(** * The workflow execution engine of tene-yie

    A shallow embedding of [src/services/executionEngine.js]: the adjacency
    builder, the recursive graph walker, the four node handlers with their
    stub collaborators, the execution logger and the top-level
    [executeWorkflow], followed by the properties the specification states
    about them.

    Conventions of the embedding.
    - JavaScript objects used as dictionaries ([adjacencyMap],
      [executionData], a node's [config]) are finite maps with string keys.
      Node identifiers are the UUID strings the controllers generate, so no
      key collides with a property of [Object.prototype].
    - A node's [config] is a JSON object, as [createNode] stores it
      ([config || {}]); the values under its keys are arbitrary JSON.
    - The engine runs in a state monad carrying the shared [executionData]
      object, the number of clock readings made so far, the console, and
      the rows of the [executions] table.  A computation ends normally,
      throws a JavaScript error (of which only [message] is ever observed),
      or exhausts the call depth it was given.
    - [new Date()] reads the host clock: the k-th reading made during a run
      is [now k].  [uuidv4()] and the Supabase client are parameters too;
      the client is taken by the result objects [{ data, error }] the
      source destructures.
    - [await] on the single logical thread of one run is sequencing. *)

From stdpp Require Import gmap strings list fin_maps.

Set Warnings "-register-all,-clear-no-such-hyp".

(** ** JSON data and the JavaScript operations on it the engine uses *)

Inductive json :=
| JNull
| JBool (b : bool)
| JNum (z : Z)
| JStr (s : string)
| JArr (items : list json)
| JObj (fields : list (string * json)).

(** A property read [config.key] is an [option json]: [None] stands for
    [undefined].  Truthiness of the left operand of [||]: *)
Definition truthy (v : option json) : bool :=
  match v with
  | None | Some JNull => false
  | Some (JBool b) => b
  | Some (JNum z) => negb (Z.eqb z 0)
  | Some (JStr s) => negb (String.eqb s "")
  | Some (JArr _) | Some (JObj _) => true
  end.

(** [v || 'd'] *)
Definition js_or (v : option json) (d : string) : json :=
  match v with
  | Some j => if truthy v then j else JStr d
  | None => JStr d
  end.

(** [v === 's'], the test a [case 's':] label performs. *)
Definition strict_eq_str (v : option json) (s : string) : bool :=
  match v with
  | Some (JStr s') => String.eqb s' s
  | _ => false
  end.

(** ** Rows of the store *)

Record Workflow := {
  wf_id : string;
  wf_name : string;
  enabled : bool
}.

Record Node := {
  node_id : string;
  node_workflow_id : string;
  node_type : string;
  label : string;
  config : gmap string json;
  position_x : Z;
  position_y : Z
}.

Record Edge := {
  edge_id : string;
  edge_workflow_id : string;
  source_node_id : string;
  target_node_id : string
}.

(** ** Result envelopes

    A payload member is JSON data (possibly [undefined]), the string
    [JSON.stringify] returned, or the [executionData] object itself.  The
    last is a reference: the pass-through transforms store the shared object,
    not a copy of it.  The text of a serialisation is represented by the
    entries that were serialised. *)

Inductive envelope :=
| ETrigger (triggeredAt : Z) (cfg : gmap string json)
| EData (source : option json) (data : json) (fetchedAt : Z)
| ETransform (transformType : option json)
             (result : list (string * member)) (transformedAt : Z)
| EAction (actionType : option json)
          (result : list (string * member)) (actionTime : Z)
with member :=
| MJson (v : option json)
| MText (serialised : gmap string envelope)
| MContext.

(** The [type] tag every envelope carries. *)
Definition envelope_type (e : envelope) : string :=
  match e with
  | ETrigger _ _ => "trigger"
  | EData _ _ _ => "data"
  | ETransform _ _ _ => "transform"
  | EAction _ _ _ => "action"
  end.

Definition is_context (m : member) : bool :=
  match m with MContext => true | _ => false end.

(** Does the envelope hold the [executionData] object? *)
Definition holds_context (e : envelope) : bool :=
  match e with
  | ETransform _ result _ | EAction _ result _ =>
      existsb (fun kv => is_context kv.2) result
  | _ => false
  end.

(** [executionData] reaches itself through one of its entries. *)
Definition circular (ctx : gmap string envelope) : bool :=
  bool_decide (map_Exists (fun _ e => holds_context e = true) ctx).

(** ** The [executions] table and the console *)

Inductive status := Completed | Failed.

Record ExecutionRecord := {
  exec_id : string;
  exec_workflow_id : string;
  exec_status : status;
  error_message : option string;
  execution_data : option (gmap string envelope);
  started_at : Z;
  ended_at : Z
}.

Inductive event :=
| LogStart (workflowId : string)
| LogExecuting (node : Node)
| LogNodeError (nodeId msg : string)
| LogTrigger (ty : json)
| LogFetching (source : json)
| LogTransforming (ty : json)
| LogAction (ty : json)
| LogSendEmail (to : option json)
| LogSendSMS (phone : option json)
| LogPost (platform : option json)
| LogCompleted (workflowId : string)
| LogFailed (msg : string)
| LogInsertFailed (msg : string).

(** The Supabase client, by what its queries resolve to: [select_workflow]
    is [None] when [.single()] reports an error or no row; [select_nodes] and
    [select_edges] are the [data] of the two list queries ([None] for
    [null]); [insert_error] is the [error] of the insert into [executions],
    given the rows already there. *)
Record Store := {
  select_workflow : string -> option Workflow;
  select_nodes : string -> option (list Node);
  select_edges : string -> option (list Edge);
  insert_error : list ExecutionRecord -> ExecutionRecord -> option string
}.

(** ** The engine monad *)

Record State := {
  executionData : gmap string envelope;
  ticks : nat;
  console : list event;
  executions : list ExecutionRecord
}.

Inductive res (A : Type) :=
| Ok (a : A) (s : State)
| Throw (msg : string) (s : State)
| Exhausted (s : State).
Arguments Ok {A} a s.
Arguments Throw {A} msg s.
Arguments Exhausted {A} s.

Definition M (A : Type) : Type := State -> res A.

#[global] Instance M_ret : MRet M := fun A a s => Ok a s.
#[global] Instance M_bind : MBind M := fun A B f m s =>
  match m s with
  | Ok a s' => f a s'
  | Throw msg s' => Throw msg s'
  | Exhausted s' => Exhausted s'
  end.

Definition throw {A} (msg : string) : M A := fun s => Throw msg s.

Definition exhausted {A} : M A := fun s => Exhausted s.

(** [try { m } catch (error) { h error.message }] *)
Definition try_catch {A} (m : M A) (h : string -> M A) : M A := fun s =>
  match m s with
  | Throw msg s' => h msg s'
  | r => r
  end.

Definition final_state {A} (r : res A) : State :=
  match r with Ok _ s | Throw _ s | Exhausted s => s end.

Definition set_executionData (ctx : gmap string envelope) (s : State) : State :=
  {| executionData := ctx; ticks := ticks s;
     console := console s; executions := executions s |}.

Definition logged (e : event) (s : State) : State :=
  {| executionData := executionData s; ticks := ticks s;
     console := console s ++ [e]; executions := executions s |}.

Definition ticked (s : State) : State :=
  {| executionData := executionData s; ticks := S (ticks s);
     console := console s; executions := executions s |}.

Definition inserted (record : ExecutionRecord) (s : State) : State :=
  {| executionData := executionData s; ticks := ticks s;
     console := console s; executions := executions s ++ [record] |}.

Definition console_log (e : event) : M unit := fun s => Ok tt (logged e s).

Definition read_executionData : M (gmap string envelope) := fun s =>
  Ok (executionData s) s.

(** [executionData[key] = result] *)
Definition store_result (key : string) (result : envelope) : M unit := fun s =>
  Ok tt (set_executionData (<[key := result]> (executionData s)) s).

(** [const executionData = {}] *)
Definition new_executionData : M unit := fun s => Ok tt (set_executionData ∅ s).

(** [for (const x of xs) { await body x }] *)
Fixpoint for_of {A} (xs : list A) (body : A -> M unit) : M unit :=
  match xs with
  | [] => mret tt
  | x :: rest => body x ≫= fun _ => for_of rest body
  end.

(** The identifiers of the nodes [executeNode] was entered for, in order. *)
Definition visits (evs : list event) : list string :=
  omap (fun e => match e with LogExecuting n => Some (node_id n) | _ => None end) evs.

(** ** Messages of the errors the JavaScript engine itself raises (V8)

    Of the message of the circular-structure error only the first line is
    kept; the engine appends a description of the cycle. *)

Definition msg_forEach_of_null : string :=
  "Cannot read properties of null (reading 'forEach')".
Definition msg_push_of_undefined : string :=
  "Cannot read properties of undefined (reading 'push')".
Definition msg_circular : string :=
  "Converting circular structure to JSON".

(** ** Adjacency builder *)

(** The outcome of a synchronous function that may throw. *)
Inductive thrown (A : Type) :=
| Returns (a : A)
| Raises (msg : string).
Arguments Returns {A} a.
Arguments Raises {A} msg.

Definition lift {A} (r : thrown A) : M A :=
  match r with
  | Returns a => mret a
  | Raises msg => throw msg
  end.

(** [map[edge.source_node_id].push(edge.target_node_id)]: reading [push] of
    an absent entry is a [TypeError]. *)
Definition add_edge (acc : thrown (gmap string (list string))) (edge : Edge)
  : thrown (gmap string (list string)) :=
  match acc with
  | Raises msg => Raises msg
  | Returns map =>
      match map !! source_node_id edge with
      | Some targets =>
          Returns (<[source_node_id edge := targets ++ [target_node_id edge]]> map)
      | None => Raises msg_push_of_undefined
      end
  end.

(** [edges] is the [data] of the edge query and may be [null]. *)
Definition buildAdjacencyMap (nodes : list Node) (edges : option (list Edge))
  : thrown (gmap string (list string)) :=
  let map := fold_left (fun map node => <[node_id node := []]> map) nodes ∅ in
  match edges with
  | None => Raises msg_forEach_of_null
  | Some edges => fold_left add_edge edges (Returns map)
  end.

Section Engine.

(** The host: its clock, the identifier [uuidv4()] hands out for this run,
    and the store behind the Supabase client. *)
Variable now : nat -> Z.
Variable uuidv4 : string.
Variable supabase : Store.

(** [new Date()] *)
Definition new_Date : M Z := fun s => Ok (now (ticks s)) (ticked s).

(** *** Data source handlers (placeholders in the source) *)

Definition fetchWeatherData (cfg : gmap string json) : M json :=
  mret (JObj [("temp", JNum 72); ("condition", JStr "Sunny")]).

Definition fetchCalendarData (cfg : gmap string json) : M json :=
  mret (JObj [("events", JArr [])]).

Definition fetchGithubData (cfg : gmap string json) : M json :=
  mret (JObj [("commits", JArr []); ("prs", JArr [])]).

(** *** Transform handlers *)

(** [JSON.stringify(executionData)] throws a [TypeError] on an object that
    reaches itself. *)
Definition JSON_stringify (ctx : gmap string envelope) : M member :=
  if circular ctx then throw msg_circular else mret (MText ctx).

Definition summarizeData (cfg : gmap string json) : M (list (string * member)) :=
  ctx ← read_executionData;
  text ← JSON_stringify ctx;
  mret [("summary", text)].

Definition filterData (cfg : gmap string json) : M (list (string * member)) :=
  mret [("filtered", MContext)].

Definition combineData (cfg : gmap string json) : M (list (string * member)) :=
  mret [("combined", MContext)].

(** *** Action handlers (placeholders in the source) *)

Definition sendEmail (cfg : gmap string json) : M (list (string * member)) :=
  console_log (LogSendEmail (cfg !! "to"));;
  mret [("sent", MJson (Some (JBool true))); ("to", MJson (cfg !! "to"))].

Definition sendSMS (cfg : gmap string json) : M (list (string * member)) :=
  console_log (LogSendSMS (cfg !! "phone"));;
  mret [("sent", MJson (Some (JBool true))); ("phone", MJson (cfg !! "phone"))].

Definition postToSocial (cfg : gmap string json) : M (list (string * member)) :=
  console_log (LogPost (cfg !! "platform"));;
  mret [("posted", MJson (Some (JBool true)));
        ("platform", MJson (cfg !! "platform"))].

(** *** Node type execution functions *)

Definition executeTrigger (node : Node) : M envelope :=
  console_log (LogTrigger (js_or (config node !! "type") "scheduled"));;
  triggeredAt ← new_Date;
  mret (ETrigger triggeredAt (config node)).

Definition executeDataNode (node : Node) : M envelope :=
  console_log (LogFetching (js_or (config node !! "source") "unknown"));;
  let source := config node !! "source" in
  data ← (if strict_eq_str source "weather" then fetchWeatherData (config node)
          else if strict_eq_str source "calendar" then fetchCalendarData (config node)
          else if strict_eq_str source "github" then fetchGithubData (config node)
          else mret (JObj [("message", JStr "Data source not configured")]));
  fetchedAt ← new_Date;
  mret (EData source data fetchedAt).

Definition executeTransform (node : Node) : M envelope :=
  console_log (LogTransforming (js_or (config node !! "type") "unknown"));;
  let transformType := config node !! "type" in
  result ← (if strict_eq_str transformType "summarize" then summarizeData (config node)
            else if strict_eq_str transformType "filter" then filterData (config node)
            else if strict_eq_str transformType "combine" then combineData (config node)
            else mret [("transformed", MContext)]);
  transformedAt ← new_Date;
  mret (ETransform transformType result transformedAt).

Definition executeAction (node : Node) : M envelope :=
  console_log (LogAction (js_or (config node !! "type") "unknown"));;
  let actionType := config node !! "type" in
  result ← (if strict_eq_str actionType "email" then sendEmail (config node)
            else if strict_eq_str actionType "sms" then sendSMS (config node)
            else if strict_eq_str actionType "post" then postToSocial (config node)
            else mret [("message", MJson (Some (JStr "Action not configured")))]);
  actionTime ← new_Date;
  mret (EAction actionType result actionTime).

(** *** Recursive node execution *)

(** The [switch] on [node.node_type]. *)
Definition dispatch (node : Node) : M envelope :=
  if String.eqb (node_type node) "trigger" then executeTrigger node
  else if String.eqb (node_type node) "data" then executeDataNode node
  else if String.eqb (node_type node) "transform" then executeTransform node
  else if String.eqb (node_type node) "action" then executeAction node
  else throw ("Unknown node type: " +:+ node_type node).

(** [nodes.find(n => n.id === nextNodeId)] *)
Definition find_node (nodes : list Node) (nextNodeId : string) : option Node :=
  find (fun n => String.eqb (node_id n) nextNodeId) nodes.

(** [fuel] bounds the depth of nested calls; the source recurses without a
    bound of its own. *)
Fixpoint executeNode (fuel : nat) (node : Node)
    (adjacencyMap : gmap string (list string)) (nodes : list Node) : M unit :=
  match fuel with
  | 0 => exhausted
  | S fuel =>
      console_log (LogExecuting node);;
      try_catch
        (result ← dispatch node;
         store_result (node_id node) result;;
         match adjacencyMap !! node_id node with
         | Some ((_ :: _) as connectedNodeIds) =>
             for_of connectedNodeIds (fun nextNodeId =>
               match find_node nodes nextNodeId with
               | Some nextNode => executeNode fuel nextNode adjacencyMap nodes
               | None => mret tt
               end)
         | _ => mret tt
         end)
        (fun msg => console_log (LogNodeError (node_id node) msg);; throw msg)
  end.

(** *** Logging *)

(** The insert into [executions]: the row is there afterwards unless the
    store reports an error; the error is what the call resolves to. *)
Definition insert_execution (record : ExecutionRecord) : M (option string) := fun s =>
  match insert_error supabase (executions s) record with
  | Some msg => Ok (Some msg) s
  | None => Ok None (inserted record s)
  end.

Definition logExecution (workflowId executionId : string) (st : status)
    (errorMessage : option string) (data : option (gmap string envelope))
    (startTime : Z) : M unit :=
  endTime ← new_Date;
  error ← insert_execution
    {| exec_id := executionId; exec_workflow_id := workflowId;
       exec_status := st; error_message := errorMessage;
       execution_data := data; started_at := startTime; ended_at := endTime |};
  match error with
  | Some msg => console_log (LogInsertFailed msg)
  | None => mret tt
  end.

(** *** Main execution function *)

(** What [executeWorkflow] resolves to: [{ success: true, executionId,
    executionData }] or [{ success: false, executionId, error }]. *)
Inductive RunOutcome :=
| RunSuccess (executionId : string) (data : gmap string envelope)
| RunFailure (executionId : string) (error : string).

Definition success (o : RunOutcome) : bool :=
  match o with RunSuccess _ _ => true | RunFailure _ _ => false end.

Definition is_trigger (n : Node) : bool := String.eqb (node_type n) "trigger".

Definition executeWorkflow (fuel : nat) (workflowId : string) : M RunOutcome :=
  let executionId := uuidv4 in
  startTime ← new_Date;
  try_catch
    (console_log (LogStart workflowId);;
     workflow ← match select_workflow supabase workflowId with
                | Some workflow => mret workflow
                | None => throw "Workflow not found"
                end;
     (if enabled workflow then mret tt else throw "Workflow is disabled");;
     let edges := select_edges supabase workflowId in
     nodes ← match select_nodes supabase workflowId with
             | Some ((_ :: _) as nodes) => mret nodes
             | _ => throw "Workflow has no nodes"
             end;
     triggerNode ← match find is_trigger nodes with
                   | Some triggerNode => mret triggerNode
                   | None => throw "No trigger node found. Workflow must start with a trigger"
                   end;
     adjacencyMap ← lift (buildAdjacencyMap nodes edges);
     new_executionData;;
     executeNode fuel triggerNode adjacencyMap nodes;;
     data ← read_executionData;
     logExecution workflowId executionId Completed None (Some data) startTime;;
     console_log (LogCompleted workflowId);;
     mret (RunSuccess executionId data))
    (fun msg =>
       console_log (LogFailed msg);;
       logExecution workflowId executionId Failed (Some msg) None startTime;;
       mret (RunFailure executionId msg)).

End Engine.

(** ** Vocabulary of the statements *)

Definition node_ids (nodes : list Node) : list string := map node_id nodes.

(** The targets of the edges leaving [k], in the order of the edge list. *)
Definition targets_of (k : string) (edges : list Edge) : list string :=
  map target_node_id (filter (fun e => source_node_id e = k) edges).

(** The [for] loop of [executeNode] over the successor identifiers. *)
Definition successors_loop (now : nat -> Z) (fuel : nat)
    (adjacencyMap : gmap string (list string)) (nodes : list Node)
    (connectedNodeIds : list string) : M unit :=
  for_of connectedNodeIds (fun nextNodeId =>
    match find_node nodes nextNodeId with
    | Some nextNode => executeNode now fuel nextNode adjacencyMap nodes
    | None => mret tt
    end).

(** What the console shows after [s] once the run has reached [s']. *)
Definition events_since (s s' : State) : list event :=
  drop (length (console s)) (console s').

Definition known_type (n : Node) : Prop :=
  node_type n ∈ ["trigger"; "data"; "transform"; "action"].

(** A transform node of subtype [summarize], the one handler that serialises
    the context. *)
Definition is_summarize (n : Node) : bool :=
  String.eqb (node_type n) "transform"
  && strict_eq_str (config n !! "type") "summarize".

(** A transform node of any other subtype: its payload is the context
    itself. *)
Definition is_passthrough (n : Node) : bool :=
  String.eqb (node_type n) "transform"
  && negb (strict_eq_str (config n !! "type") "summarize").

(** The time stamp of an envelope. *)
Definition timestamp (e : envelope) : Z :=
  match e with
  | ETrigger t _ | EData _ _ t | ETransform _ _ t | EAction _ _ t => t
  end.

Definition unknown_type_message (n : Node) : string :=
  "Unknown node type: " +:+ node_type n.

(** [s] with further console lines. *)
Definition with_events (evs : list event) (s : State) : State :=
  {| executionData := executionData s; ticks := ticks s;
     console := console s ++ evs; executions := executions s |}.

(** From [s] to [s'] the console grew by [evs], the [executions] table is
    untouched, the clock did not go back, no key left the context, and the
    entries that differ belong to nodes entered in between. *)
Definition advances (s s' : State) (evs : list event) : Prop :=
  console s' = console s ++ evs
  ∧ executions s' = executions s
  ∧ ticks s ≤ ticks s'
  ∧ dom (executionData s) ⊆ dom (executionData s')
  ∧ (∀ k, k ∉ visits evs → executionData s' !! k = executionData s !! k)
  ∧ (∀ k, k ∈ dom (executionData s') → k ∈ dom (executionData s) ∨ k ∈ visits evs).

(** The part of [executeNode] after the result is stored: the loop over the
    successors inside the [try], and the [catch] that logs and rethrows. *)
Definition continue_traversal (now : nat -> Z) (fuel : nat) (node : Node)
    (adjacencyMap : gmap string (list string)) (nodes : list Node) : M unit :=
  try_catch
    (successors_loop now fuel adjacencyMap nodes
       (default [] (adjacencyMap !! node_id node)))
    (fun msg => console_log (LogNodeError (node_id node) msg);; throw msg).

(** The state [logExecution] leaves: the clock read once, then the row in
    the table, or the console line about the insert error. *)
Definition persisted (supabase : Store) (record : ExecutionRecord) (s : State) : State :=
  match insert_error supabase (executions s) record with
  | Some msg => logged (LogInsertFailed msg) (ticked s)
  | None => inserted record (ticked s)
  end.

(** The row of a failed run started at clock reading [k] and caught in
    state [s]. *)
Definition failed_record (now : nat -> Z) (uuidv4 workflowId msg : string)
    (k : nat) (s : State) : ExecutionRecord :=
  {| exec_id := uuidv4; exec_workflow_id := workflowId; exec_status := Failed;
     error_message := Some msg; execution_data := None;
     started_at := now k; ended_at := now (ticks s) |}.

Definition completed_record (now : nat -> Z) (uuidv4 workflowId : string)
    (k : nat) (s : State) : ExecutionRecord :=
  {| exec_id := uuidv4; exec_workflow_id := workflowId; exec_status := Completed;
     error_message := None; execution_data := Some (executionData s);
     started_at := now k; ended_at := now (ticks s) |}.

(** What [executeWorkflow] resolves to when its [try] block throws [msg] in
    state [s], the run having started at clock reading [k]. *)
Definition run_failed (now : nat -> Z) (uuidv4 : string) (supabase : Store)
    (workflowId msg : string) (k : nat) (s : State) : res RunOutcome :=
  Ok (RunFailure uuidv4 msg)
     (persisted supabase (failed_record now uuidv4 workflowId msg k s)
        (logged (LogFailed msg) s)).

(** What it resolves to when the traversal ends normally in state [s]. *)
Definition run_completed (now : nat -> Z) (uuidv4 : string) (supabase : Store)
    (workflowId : string) (k : nat) (s : State) : res RunOutcome :=
  Ok (RunSuccess uuidv4 (executionData s))
     (logged (LogCompleted workflowId)
        (persisted supabase (completed_record now uuidv4 workflowId k s) s)).

(** The first precondition of [executeWorkflow] that the store violates for a
    workflow identifier, with the message of its error.  Each case assumes
    the checks before it passed. *)
Inductive violated (supabase : Store) (workflowId : string) : string -> Prop :=
| workflow_missing :
    select_workflow supabase workflowId = None ->
    violated supabase workflowId "Workflow not found"
| workflow_disabled workflow :
    select_workflow supabase workflowId = Some workflow ->
    enabled workflow = false ->
    violated supabase workflowId "Workflow is disabled"
| workflow_empty workflow :
    select_workflow supabase workflowId = Some workflow ->
    enabled workflow = true ->
    select_nodes supabase workflowId = None
    \/ select_nodes supabase workflowId = Some [] ->
    violated supabase workflowId "Workflow has no nodes"
| workflow_without_trigger workflow nodes :
    select_workflow supabase workflowId = Some workflow ->
    enabled workflow = true ->
    select_nodes supabase workflowId = Some nodes ->
    nodes <> [] ->
    (forall n, n ∈ nodes -> node_type n <> "trigger") ->
    violated supabase workflowId
      "No trigger node found. Workflow must start with a trigger".

(** The store offers a runnable workflow: the four preconditions hold, and
    [trigger] is the node the traversal starts from. *)
Definition runnable (supabase : Store) (workflowId : string)
    (nodes : list Node) (trigger : Node) : Prop :=
  (exists workflow, select_workflow supabase workflowId = Some workflow
                    /\ enabled workflow = true)
  /\ select_nodes supabase workflowId = Some nodes
  /\ find is_trigger nodes = Some trigger.

Definition outcome_of (r : res RunOutcome) : option RunOutcome :=
  match r with Ok o _ => Some o | _ => None end.

(** The nodes [executeNode] was entered for. *)
Definition entered (evs : list event) : list Node :=
  omap (fun e => match e with LogExecuting n => Some n | _ => None end) evs.

(** Over the console lines [evs] of a computation with result [r]: either
    every node entered has a recognised category, or exactly one has not, it
    is the last node entered, and the computation threw the error naming its
    category. *)
Definition unknown_stops {A} (r : res A) (evs : list event) : Prop :=
  (∀ n, n ∈ entered evs → known_type n)
  ∨ (∃ n before s', entered evs = before ++ [n]
       ∧ ¬ known_type n ∧ (∀ m, m ∈ before → known_type m)
       ∧ r = Throw (unknown_type_message n) s').

(** The store with another answer to the insert into [executions]. *)
Definition with_insert_error (supabase : Store)
    (f : list ExecutionRecord -> ExecutionRecord -> option string) : Store :=
  {| select_workflow := select_workflow supabase;
     select_nodes := select_nodes supabase;
     select_edges := select_edges supabase;
     insert_error := f |}.

(** The only row a failed run can add is its own, and it has no context. *)
Definition failed_row_of (uuidv4 msg : string) (record : ExecutionRecord) : Prop :=
  exec_id record = uuidv4 ∧ exec_status record = Failed
  ∧ error_message record = Some msg ∧ execution_data record = None.

Definition endpoints (e : Edge) : string * string :=
  (source_node_id e, target_node_id e).

(** The writes [path] were made to the context between [s] and [s'], one per
    node entered, each with one reading of the clock. *)
Definition walked (s s' : State) (path : list (string * envelope)) : Prop :=
  executionData s' = foldl (fun m kv => <[kv.1 := kv.2]> m) (executionData s) path
  ∧ (∃ evs, console s' = console s ++ evs ∧ visits evs = path.*1)
  ∧ ticks s' = ticks s + length path
  ∧ executions s' = executions s.

(** A summarize transform can serialise the context when none of the nodes
    that wrote to it before is a pass-through transform. *)
Definition serialisable_after (n : Node) (earlier : list Node) : Prop :=
  is_summarize n = true → ∀ m, m ∈ earlier → is_passthrough m = false.

(** [x -> y] is an edge of the workflow. *)
Definition edge_of (edges : list Edge) (x y : string) : Prop :=
  ∃ e, e ∈ edges ∧ source_node_id e = x ∧ target_node_id e = y.

(** No node reaches itself along the edges. *)
Definition acyclic (edges : list Edge) : Prop :=
  ∀ x, ¬ tc (edge_of edges) x x.

(** [y] is in the adjacency list of [x]. *)
Definition arc (adj : gmap string (list string)) (x y : string) : Prop :=
  ∃ ks, adj !! x = Some ks ∧ y ∈ ks.

(** The walker, at the node with identifier [x], recurses into the node with
    identifier [y]: [y] is a successor of [x] that resolves to a node. *)
Definition follows (adj : gmap string (list string)) (nodes : list Node)
    (x y : string) : Prop :=
  arc adj x y ∧ y ∈ node_ids nodes.

(** From [x] the walker gets to a node that lies on a cycle. *)
Definition reaches_cycle (adj : gmap string (list string)) (nodes : list Node)
    (x : string) : Prop :=
  ∃ c, rtc (follows adj nodes) x c ∧ tc (follows adj nodes) c c.

(** The handler of [n] cannot throw: the category is recognised and it is not
    the serialising transform. *)
Definition quiet (n : Node) : Prop :=
  known_type n ∧ is_summarize n = false.

(** ** Vocabulary of the further properties

    Besides the engine, three request handlers are embedded: [runWorkflow]
    of [executionController.js], which calls the engine, and [createNode]
    and [updateNode] of [nodeController.js], which write the nodes the
    engine reads.  A request body is the JSON object Express has parsed; the
    answers of the store to the queries of a handler are parameters, like
    the store of the engine; a handler is taken by what it answers, the
    status with the body. *)

(** The edges whose target is the identifier of a node. *)
Definition resolvable_edges (nodes : list Node) (edges : list Edge) : list Edge :=
  filter (fun e => target_node_id e ∈ node_ids nodes) edges.

(** ** Edges without a target node *)

(** The depth-first pre-order of the graph from [node], successors taken in
    the order of the adjacency list and looked up among [nodes], a node being
    listed once for every path that leads to it; [fuel] bounds the depth. *)
Fixpoint preorder (fuel : nat) (adj : gmap string (list string))
    (nodes : list Node) (node : Node) : list string :=
  match fuel with
  | 0 => []
  | S fuel =>
      node_id node ::
      flat_map (fun k => match find_node nodes k with
                         | Some next => preorder fuel adj nodes next
                         | None => []
                         end)
               (default [] (adj !! node_id node))
  end.

(** ** The order of a traversal *)

(** The pre-order of the successors [ks] of a node, one after the other. *)
Definition successors_preorder (fuel : nat) (adj : gmap string (list string))
    (nodes : list Node) (ks : list string) : list string :=
  flat_map (fun k => match find_node nodes k with
                     | Some next => preorder fuel adj nodes next
                     | None => []
                     end) ks.


(** The row of a run agrees with what the run resolves to. *)
Definition row_of (uuidv4 workflowId : string) (o : RunOutcome)
    (row : ExecutionRecord) : Prop :=
  exec_id row = uuidv4 ∧ exec_workflow_id row = workflowId
  ∧ match o with
    | RunSuccess id data =>
        id = uuidv4 ∧ exec_status row = Completed
        ∧ error_message row = None ∧ execution_data row = Some data
    | RunFailure id msg =>
        id = uuidv4 ∧ exec_status row = Failed
        ∧ error_message row = Some msg ∧ execution_data row = None
    end.

(** ** The row of a run *)

(** The lines the [catch] of [executeNode] writes: the node and the message. *)
Definition error_lines (evs : list event) : list (string * string) :=
  omap (fun e => match e with LogNodeError k msg => Some (k, msg) | _ => None end) evs.

(** Each element of [path] is related to the next. *)
Fixpoint chain (R : string → string → Prop) (path : list string) : Prop :=
  match path with
  | x :: rest => match rest with y :: _ => R x y | [] => True end ∧ chain R rest
  | [] => True
  end.

(** ** The error lines of a traversal *)

(** Between [s] and [s'] every entry written carries a reading of the clock
    made in between. *)
Definition stamped (now : nat -> Z) (s s' : State) : Prop :=
  ∀ k e, executionData s' !! k = Some e →
         executionData s !! k = Some e
         ∨ ∃ i, ticks s ≤ i < ticks s' ∧ timestamp e = now i.



(** ** The controller [runWorkflow] of [executionController.js] *)

(** What the controller answers: [NotFound] is 404 [{ error: 'Workflow not
    found' }]; [Executed] is 200 with the identifier and the context of the
    run; [ExecutionFailed] is 500 with the identifier and the message of the
    run; [InternalError] is 500 [{ error: 'Internal server error' }], sent
    after printing the error caught. *)
Inductive Response :=
| NotFound
| Executed (executionId : string) (data : gmap string envelope)
| ExecutionFailed (executionId error : string)
| InternalError (err : string).


Section Controller.
Variable now : nat -> Z.
Variable uuidv4 : string.
Variable supabase : Store.

(** The controller asks the store for the workflow before it calls the
    engine, which asks again; the store answers both queries alike. *)
Definition runWorkflow (fuel : nat) (workflowId : string) : M Response :=
  try_catch
    (match select_workflow supabase workflowId with
     | None => mret NotFound
     | Some _ =>
         result ← executeWorkflow now uuidv4 supabase fuel workflowId;
         match result with
         | RunSuccess executionId data => mret (Executed executionId data)
         | RunFailure executionId error => mret (ExecutionFailed executionId error)
         end
     end)
    (fun err => mret (InternalError err)).
End Controller.

(** ** What the handlers depend on *)

(** ** The controller [createNode] of [nodeController.js] *)

Definition validTypes : list string := ["trigger"; "data"; "transform"; "action"].

(** [xs.includes(v)] on an array of strings. *)
Definition includes (xs : list string) (v : option json) : bool :=
  existsb (strict_eq_str v) xs.

(** [v || d] *)
Definition js_or_else (v : option json) (d : json) : json :=
  match v with
  | Some j => if truthy v then j else d
  | None => d
  end.

(** The result object [{ data, error }] of an insert or an update followed
    by [.select()], the error by its message. *)
Record StoreAnswer := {
  answer_data : option (list json);
  answer_error : option string
}.

(** What [createNode] answers: 400 for [MissingFields] and for
    [InvalidNodeType], 404 for [WorkflowNotFound], 500 with the message of
    the store for [InsertError], 201 with [data[0]] for [NodeCreated], and
    500 [Internal server error] when reading [data[0]] throws. *)
Inductive NodeResponse :=
| MissingFields
| InvalidNodeType
| WorkflowNotFound
| InsertError (msg : string)
| NodeCreated (node : option json)
| NodeServerError.

Section NodeController.

(** [uuidv4()], whether the query for the workflow finds its row, and the
    store's answer to the insert of a row. *)
Variable uuidv4 : string.
Variable workflow_found : json -> bool.
Variable insert_node : list (string * json) -> StoreAnswer.

(** [req.body] is the JSON object of the request. *)
Definition createNode (body : gmap string json) : NodeResponse :=
  if negb (truthy (body !! "workflow_id")) || negb (truthy (body !! "node_type"))
     || negb (truthy (body !! "label"))
  then MissingFields
  else if negb (includes validTypes (body !! "node_type")) then InvalidNodeType
  else
    match body !! "workflow_id", body !! "node_type", body !! "label" with
    | Some workflow_id, Some node_type, Some label =>
        if negb (workflow_found workflow_id) then WorkflowNotFound
        else
          let r := insert_node
                     [("id", JStr uuidv4); ("workflow_id", workflow_id);
                      ("node_type", node_type); ("label", label);
                      ("config", js_or_else (body !! "config") (JObj []));
                      ("position_x", js_or_else (body !! "position_x") (JNum 0));
                      ("position_y", js_or_else (body !! "position_y") (JNum 0))] in
          match answer_error r with
          | Some msg => InsertError msg
          | None =>
              match answer_data r with
              | Some data => NodeCreated (head data)
              | None => NodeServerError
              end
          end
    | _, _, _ => MissingFields
    end.

End NodeController.

(** ** Creation and update of nodes *)

(** ** The controller [updateNode] of [nodeController.js] *)

(** A value of the [updates] object: JSON taken from the request, or the
    [Date] read from the clock. *)
Inductive field :=
| FJson (v : json)
| FDate (t : Z).

(** [if (v !== undefined) updates.key = v] *)
Definition set_if_defined (key : string) (v : option json)
    (updates : gmap string field) : gmap string field :=
  match v with
  | Some j => <[key := FJson j]> updates
  | None => updates
  end.

(** One for a defined value, none for [undefined]. *)
Definition defined (v : option json) : nat :=
  match v with Some _ => 1 | None => 0 end.

(** The [updates] object built from the request body, [date] being the
    reading of the clock. *)
Definition node_updates (date : Z) (body : gmap string json) : gmap string field :=
  let updates := ∅ in
  let updates := set_if_defined "label" (body !! "label") updates in
  let updates := set_if_defined "config" (body !! "config") updates in
  let updates := set_if_defined "position_x" (body !! "position_x") updates in
  let updates := set_if_defined "position_y" (body !! "position_y") updates in
  <["updated_at" := FDate date]> updates.

(** What [updateNode] answers: 400 for [NoFields], 500 with the message of
    the store for [UpdateError], 404 for [NodeNotFound], 200 with [data[0]]
    for [NodeUpdated], and 500 [Internal server error] when reading
    [data.length] throws. *)
Inductive UpdateResponse :=
| NoFields
| UpdateError (msg : string)
| NodeNotFound
| NodeUpdated (node : json)
| UpdateServerError.

Section UpdateController.

(** The reading of the clock, and the store's answer [{ data, error }] to
    the update of the row with a given identifier. *)
Variable date : Z.
Variable update_node : string -> gmap string field -> StoreAnswer.

Definition updateNode (id : string) (body : gmap string json) : UpdateResponse :=
  let updates := node_updates date body in
  if Nat.eqb (size updates) 1 then NoFields
  else
    let r := update_node id updates in
    match answer_error r with
    | Some msg => UpdateError msg
    | None =>
        match answer_data r with
        | None => UpdateServerError
        | Some [] => NodeNotFound
        | Some (node :: _) => NodeUpdated node
        end
    end.

End UpdateController.

(** ** Sample workflows *)

Module Sample.

(** A clock that advances by one at each reading. *)
Definition clock (k : nat) : Z := Z.of_nat k.

Definition idle : State :=
  {| executionData := ∅; ticks := 0; console := []; executions := [] |}.

Definition node (i ty : string) (cfg : gmap string json) : Node :=
  {| node_id := i; node_workflow_id := "wf-1"; node_type := ty; label := i;
     config := cfg; position_x := 0; position_y := 0 |}.

Definition edge (source target : string) : Edge :=
  {| edge_id := source +:+ ">" +:+ target; edge_workflow_id := "wf-1";
     source_node_id := source; target_node_id := target |}.

Definition workflow : Workflow :=
  {| wf_id := "wf-1"; wf_name := "Daily Briefing"; enabled := true |}.

(** A store holding the one enabled workflow with the given graph and
    accepting every insert. *)
Definition store (nodes : list Node) (edges : list Edge) : Store :=
  {| select_workflow := fun id => if String.eqb id "wf-1" then Some workflow else None;
     select_nodes := fun _ => Some nodes;
     select_edges := fun _ => Some edges;
     insert_error := fun _ _ => None |}.

Definition trigger : Node := node "t" "trigger" ∅.
Definition weather : Node := node "d" "data" {["source" := JStr "weather"]}.
Definition summary : Node := node "x" "transform" {["type" := JStr "summarize"]}.
Definition email : Node :=
  node "a" "action" (<["type" := JStr "email"]> {["to" := JStr "me@example.org"]}).

(** The chain trigger, data, transform, action; the store lists neither the
    nodes nor the edges in the order of the chain. *)
Definition chain_nodes : list Node := [weather; trigger; summary; email].
Definition chain_edges : list Edge := [edge "x" "a"; edge "t" "d"; edge "d" "x"].

Definition calendar : Node := node "a" "data" {["source" := JStr "calendar"]}.
Definition github : Node := node "b" "data" {["source" := JStr "github"]}.
Definition sms : Node := node "c" "action" {["type" := JStr "sms"]}.
Definition sieve : Node := node "a" "transform" {["type" := JStr "filter"]}.
Definition digest : Node := node "c" "transform" {["type" := JStr "summarize"]}.

Definition diamond_edges : list Edge :=
  [edge "t" "a"; edge "t" "b"; edge "a" "c"; edge "b" "c"].

(** A diamond of data nodes joined by an action node. *)
Definition diamond_nodes : list Node := [trigger; calendar; github; sms].

(** A diamond of data nodes joined by a summarize transform. *)
Definition digest_diamond_nodes : list Node := [trigger; calendar; github; digest].

(** A diamond in which a pass-through transform precedes a summarize
    transform. *)
Definition filtered_diamond_nodes : list Node := [trigger; sieve; github; digest].

(** A diamond one of whose nodes has an unrecognised category. *)
Definition hook : Node := node "a" "webhook" ∅.
Definition hooked_diamond_nodes : list Node := [trigger; hook; github; sms].

(** A transform and an action node of unrecognised subtypes. *)
Definition odd_transform : Node := node "x" "transform" {["type" := JStr "uppercase"]}.
Definition odd_action : Node := node "a" "action" ∅.

(** A node of an unrecognised category behind the trigger. *)
Definition webhook : Node := node "h" "webhook" ∅.

(** Two nodes on a cycle that no edge from the trigger leads to. *)
Definition island_nodes : list Node := [trigger; calendar; github].
Definition island_edges : list Edge := [edge "a" "b"; edge "b" "a"].

(** A cycle through the trigger. *)
Definition loop_nodes : list Node := [trigger; calendar].
Definition loop_edges : list Edge := [edge "t" "a"; edge "a" "t"].

(** The adjacency map of a graph whose edges all leave nodes of it. *)
Definition adjacency (nodes : list Node) (edges : list Edge)
  : gmap string (list string) :=
  match buildAdjacencyMap nodes (Some edges) with
  | Returns adj => adj
  | Raises _ => ∅
  end.

(** The height of each node of the chain above its end. *)
Definition chain_rank (k : string) : nat :=
  if String.eqb k "t" then 3
  else if String.eqb k "d" then 2
  else if String.eqb k "x" then 1
  else 0.

(** An edge that leaves an identifier no node has. *)
Definition dangling_edges : list Edge := [edge "ghost" "t"].

End Sample.

(** ** Further sample workflows *)

Module Fixture.

(** The chain with one more edge, to an identifier that no node has. *)
Definition ghost_edges : list Edge :=
  Sample.chain_edges ++ [Sample.edge "d" "ghost"].

Definition chain_store : Store := Sample.store Sample.chain_nodes Sample.chain_edges.

(** A diamond of data nodes joined by an action node. *)
Definition diamond_store : Store := Sample.store Sample.diamond_nodes Sample.diamond_edges.

(** A diamond whose first branch is a node of an unrecognised category. *)
Definition hooked_store : Store :=
  Sample.store Sample.hooked_diamond_nodes Sample.diamond_edges.


(** A store that answers an insert with the row itself. *)
Definition echo (row : list (string * json)) : StoreAnswer :=
  {| answer_data := Some [JObj row]; answer_error := None |}.

(** The body of a request for a data node. *)
Definition node_request : gmap string json :=
  <["workflow_id" := JStr "wf-1"]> (<["node_type" := JStr "data"]>
    {["label" := JStr "Weather"]}).

(** A workflow without a trigger node. *)
Definition triggerless_store : Store := Sample.store [Sample.weather; Sample.email] [].

(** The state a run of a workflow ends in, started from the idle state
    with clock [Sample.clock] under the identifier [run-1]. *)
Definition after_run (supabase : Store) (fuel : nat) : State :=
  final_state (executeWorkflow Sample.clock "run-1" supabase fuel "wf-1" Sample.idle).



End Fixture.

(** * Properties *)

(** ** The adjacency builder *)

Lemma init_map_lookup (nodes : list Node) (m : gmap string (list string)) k :
  fold_left (fun map node => <[node_id node := []]> map) nodes m !! k
  = if decide (k ∈ node_ids nodes) then Some [] else m !! k.
Proof.
  revert m. induction nodes as [|n nodes IH]; intros m; simpl.
  - done.
  - rewrite IH. unfold node_ids in *.
    destruct (decide (k ∈ map node_id nodes)) as [Hin|Hin].
    + rewrite decide_True; [done | by right].
    + destruct (decide (k = node_id n)) as [->|Hne].
      * rewrite lookup_insert_eq, decide_True; [done | by left].
      * rewrite lookup_insert_ne by done.
        rewrite decide_False; [done |].
        intros [?|?]%elem_of_cons; done.
Qed.

Lemma add_edge_raises msg (edges : list Edge) :
  fold_left add_edge edges (Raises msg) = Raises msg.
Proof. induction edges as [|e edges IH]; simpl; auto. Qed.

Lemma targets_of_cons k e edges :
  targets_of k (e :: edges)
  = if decide (source_node_id e = k) then target_node_id e :: targets_of k edges
    else targets_of k edges.
Proof.
  unfold targets_of. rewrite filter_cons. by case_decide.
Qed.

Lemma add_edges_returns (edges : list Edge) (m : gmap string (list string)) :
  (∀ e, e ∈ edges → is_Some (m !! source_node_id e)) →
  ∃ m', fold_left add_edge edges (Returns m) = Returns m'
        ∧ ∀ k, m' !! k = (fun l => l ++ targets_of k edges) <$> m !! k.
Proof.
  revert m. induction edges as [|e edges IH]; intros m Hsrc; simpl.
  - exists m. split; [done |]. intros k. unfold targets_of. simpl.
    destruct (m !! k); simpl; [by rewrite app_nil_r | done].
  - destruct (Hsrc e) as [l Hl]; [by left |]. rewrite Hl.
    destruct (IH (<[source_node_id e := l ++ [target_node_id e]]> m)) as (m' & Hm' & Hlk).
    { intros e' He'. destruct (decide (source_node_id e = source_node_id e')) as [<-|Hne].
      - rewrite lookup_insert_eq. eauto.
      - rewrite lookup_insert_ne by done. apply Hsrc. by right. }
    exists m'. split; [done |]. intros k. rewrite Hlk, targets_of_cons.
    destruct (decide (source_node_id e = k)) as [<-|Hne].
    + rewrite lookup_insert_eq, Hl. simpl. by rewrite <- app_assoc.
    + by rewrite lookup_insert_ne.
Qed.

Lemma add_edges_raises (edges : list Edge) (m : gmap string (list string)) e :
  e ∈ edges → m !! source_node_id e = None →
  fold_left add_edge edges (Returns m) = Raises msg_push_of_undefined.
Proof.
  revert m. induction edges as [|e0 edges IH]; intros m Hin Hnone.
  - by apply elem_of_nil in Hin.
  - simpl. destruct (m !! source_node_id e0) as [l|] eqn:Hl.
    + apply elem_of_cons in Hin as [->|Hin]; [congruence |].
      apply IH; [done |]. rewrite lookup_insert_ne; [done |]. congruence.
    + apply add_edge_raises.
Qed.

(** When every edge leaves a node of the workflow, the builder returns the
    map from each node identifier to its successors in edge order, and has no
    entry for any other key. *)
Lemma buildAdjacencyMap_returns (nodes : list Node) (edges : list Edge) :
  (∀ e, e ∈ edges → source_node_id e ∈ node_ids nodes) →
  ∃ adj, buildAdjacencyMap nodes (Some edges) = Returns adj
         ∧ ∀ k, adj !! k = if decide (k ∈ node_ids nodes)
                           then Some (targets_of k edges) else None.
Proof.
  intros Hsrc. unfold buildAdjacencyMap.
  destruct (add_edges_returns edges
              (fold_left (fun map node => <[node_id node := []]> map) nodes ∅))
    as (adj & Hadj & Hlk).
  { intros e He. rewrite init_map_lookup, decide_True; eauto. }
  exists adj. split; [done |]. intros k. rewrite Hlk, init_map_lookup.
  case_decide; simpl; [done | by rewrite lookup_empty].
Qed.

(** An edge leaving an identifier that is not among the nodes makes the
    builder throw. *)
Lemma buildAdjacencyMap_raises (nodes : list Node) (edges : list Edge) e :
  e ∈ edges → source_node_id e ∉ node_ids nodes →
  buildAdjacencyMap nodes (Some edges) = Raises msg_push_of_undefined.
Proof.
  intros Hin Hsrc. unfold buildAdjacencyMap.
  apply add_edges_raises with e; [done |].
  rewrite init_map_lookup, decide_False by done. apply lookup_empty.
Qed.

(** ** Handlers and the walker *)

Lemma strict_eq_str_true v s : strict_eq_str v s = true ↔ v = Some (JStr s).
Proof.
  unfold strict_eq_str. destruct v as [[]|]; try (split; [done | congruence]).
  rewrite String.eqb_eq. split; congruence.
Qed.

Lemma strict_eq_str_false v s : strict_eq_str v s = false ↔ v ≠ Some (JStr s).
Proof. rewrite <- strict_eq_str_true. by destruct (strict_eq_str v s). Qed.


Section Walker.
Variable now : nat -> Z.

Lemma visits_app evs evs' : visits (evs ++ evs') = visits evs ++ visits evs'.
Proof. unfold visits. apply omap_app. Qed.

Lemma circular_false ctx :
  circular ctx = false ↔ ∀ k e, ctx !! k = Some e → holds_context e = false.
Proof.
  unfold circular. rewrite bool_decide_eq_false. split.
  - intros Hno k e Hk. destruct (holds_context e) eqn:He; [|done].
    exfalso. apply Hno. by exists k, e.
  - intros Hall (k & e & Hk & He). rewrite (Hall k e Hk) in He. done.
Qed.

Lemma circular_true ctx :
  circular ctx = true ↔ ∃ k e, ctx !! k = Some e ∧ holds_context e = true.
Proof.
  unfold circular. rewrite bool_decide_eq_true. unfold map_Exists. naive_solver.
Qed.

Lemma logged_start e s : logged e s = with_events [e] s.
Proof. reflexivity. Qed.

Lemma logged_events e evs s :
  logged e (with_events evs s) = with_events (evs ++ [e]) s.
Proof. unfold logged, with_events; simpl. by rewrite <- app_assoc. Qed.

Ltac run_handler :=
  unfold executeTrigger, executeDataNode, executeTransform, executeAction,
    summarizeData, filterData, combineData, sendEmail, sendSMS, postToSocial,
    fetchWeatherData, fetchCalendarData, fetchGithubData, JSON_stringify,
    read_executionData, new_Date, console_log, throw, mbind, mret, M_bind, M_ret;
  simpl.

(** What a dispatch does, by the node's category. *)
Lemma dispatch_cases node s :
  ∃ evs, visits evs = [] ∧
    ((∃ e, dispatch now node s = Ok e (ticked (with_events evs s))
           ∧ known_type node
           ∧ envelope_type e = node_type node
           ∧ timestamp e = now (ticks s)
           ∧ holds_context e = is_passthrough node
           ∧ (is_summarize node = true → circular (executionData s) = false))
     ∨ (dispatch now node s = Throw (unknown_type_message node) s
        ∧ ¬ known_type node ∧ evs = [])
     ∨ (dispatch now node s = Throw msg_circular (with_events evs s)
        ∧ known_type node
        ∧ is_summarize node = true ∧ circular (executionData s) = true)).
Proof.
  destruct node as [i w ty lbl cfg px py].
  unfold dispatch, known_type, is_summarize, is_passthrough, unknown_type_message.
  simpl.
  destruct (String.eqb_spec ty "trigger") as [->|Ht].
  { eexists. split; last first.
    - left. eexists. run_handler.
      split; [reflexivity|]. repeat split; try done. set_solver.
    - done. }
  destruct (String.eqb_spec ty "data") as [->|Hd].
  { run_handler.
    destruct (strict_eq_str (cfg !! "source") "weather"), (strict_eq_str (cfg !! "source") "calendar"),
      (strict_eq_str (cfg !! "source") "github"); simpl;
      (eexists; split; last first;
       [left; eexists; split; [reflexivity|]; repeat split; try done; set_solver
       | done]). }
  destruct (String.eqb_spec ty "transform") as [->|Hx].
  { run_handler. destruct (strict_eq_str (cfg !! "type") "summarize") eqn:Hs.
    - destruct (circular (executionData s)) eqn:Hc; simpl; rewrite Hc; simpl.
      + eexists. split; last first.
        * right. right. split; [reflexivity|]. repeat split; try done. set_solver.
        * done.
      + eexists. split; last first.
        * left. eexists. split; [reflexivity|]. repeat split; try done. set_solver.
        * done.
    - destruct (strict_eq_str (cfg !! "type") "filter"), (strict_eq_str (cfg !! "type") "combine"); simpl;
        (eexists; split; last first;
         [left; eexists; split; [reflexivity|]; repeat split; try done; set_solver
         | done]). }
  destruct (String.eqb_spec ty "action") as [->|Ha].
  { run_handler.
    destruct (strict_eq_str (cfg !! "type") "email"), (strict_eq_str (cfg !! "type") "sms"),
      (strict_eq_str (cfg !! "type") "post"); simpl;
      rewrite (logged_start _ s), ?logged_events;
      (eexists; split; last first;
       [left; eexists; split; [reflexivity|]; repeat split; try done; set_solver
       | done]). }
  exists []. split; [done|]. right. left. repeat split; try done.
  intros Hin. repeat (apply elem_of_cons in Hin as [->|Hin]; [done|]).
  by apply elem_of_nil in Hin.
Qed.

(** One level of the walker, by the result of the dispatch. *)
Lemma executeNode_S fuel node adj nodes s :
  executeNode now (S fuel) node adj nodes s =
  match dispatch now node (logged (LogExecuting node) s) with
  | Ok e s2 =>
      match successors_loop now fuel adj nodes (default [] (adj !! node_id node))
              (set_executionData (<[node_id node := e]> (executionData s2)) s2) with
      | Ok _ s3 => Ok tt s3
      | Throw msg s3 => Throw msg (logged (LogNodeError (node_id node) msg) s3)
      | Exhausted s3 => Exhausted s3
      end
  | Throw msg s2 => Throw msg (logged (LogNodeError (node_id node) msg) s2)
  | Exhausted s2 => Exhausted s2
  end.
Proof.
  unfold successors_loop. simpl.
  unfold try_catch, mbind, M_bind, console_log, store_result. simpl.
  destruct (dispatch now node (logged (LogExecuting node) s)) as [e s2|msg s2|s2];
    try reflexivity.
  destruct (adj !! node_id node) as [[|k ks]|]; simpl; try reflexivity.
  match goal with |- match ?x with _ => _ end = match ?y with _ => _ end =>
    change x with y; destruct y as [[] ?|? ?|?] end; reflexivity.
Qed.

Lemma successors_loop_nil fuel adj nodes s :
  successors_loop now fuel adj nodes [] s = Ok tt s.
Proof. reflexivity. Qed.

Lemma successors_loop_cons fuel adj nodes k ks s :
  successors_loop now fuel adj nodes (k :: ks) s =
  match find_node nodes k with
  | Some n =>
      match executeNode now fuel n adj nodes s with
      | Ok _ s' => successors_loop now fuel adj nodes ks s'
      | Throw msg s' => Throw msg s'
      | Exhausted s' => Exhausted s'
      end
  | None => successors_loop now fuel adj nodes ks s
  end.
Proof.
  unfold successors_loop. simpl. unfold mbind, M_bind.
  destruct (find_node nodes k); reflexivity.
Qed.

Lemma advances_refl s : advances s s [].
Proof.
  unfold advances. rewrite app_nil_r. repeat split; auto.
Qed.

Lemma advances_trans s1 s2 s3 evs evs' :
  advances s1 s2 evs → advances s2 s3 evs' → advances s1 s3 (evs ++ evs').
Proof.
  intros (Hc & He & Ht & Hd & Hk & Hn) (Hc' & He' & Ht' & Hd' & Hk' & Hn').
  unfold advances. rewrite Hc', Hc, He', He, visits_app, app_assoc.
  repeat split; [lia | set_solver | | ].
  - intros k Hnot. rewrite Hk', Hk; [done | set_solver | set_solver].
  - intros k Hin. destruct (Hn' k Hin) as [H|H]; [|set_solver].
    destruct (Hn k H); set_solver.
Qed.

Lemma advances_logged e s :
  visits [e] = [] → advances s (logged e s) [e].
Proof. intros Hv. unfold advances. rewrite Hv. simpl. repeat split; auto. Qed.

Lemma dispatch_advances node s :
  ∃ evs, advances s (final_state (dispatch now node s)) evs ∧ visits evs = [].
Proof.
  destruct (dispatch_cases node s) as (evs & Hv & [(e & -> & _)|[(-> & _ & ->)|(-> & _)]]).
  - exists evs. split; [|done]. unfold advances. rewrite Hv. simpl.
    repeat split; auto.
  - exists []. split; [apply advances_refl | done].
  - exists evs. split; [|done]. unfold advances. rewrite Hv. simpl.
    repeat split; auto.
Qed.

(** The walker only ever adds to the context, and changes no entry but
    those of the nodes it visits. *)
Lemma executeNode_advances fuel : ∀ node adj nodes s,
  ∃ evs, advances s (final_state (executeNode now fuel node adj nodes s)) evs.
Proof.
  induction fuel as [|fuel IH]; intros node adj nodes s.
  { exists []. apply advances_refl. }
  assert (Hloop : ∀ ks s, ∃ evs,
    advances s (final_state (successors_loop now fuel adj nodes ks s)) evs).
  { induction ks as [|k ks IHks]; intros s0.
    - exists []. apply advances_refl.
    - rewrite successors_loop_cons. destruct (find_node nodes k) as [n|]; [|apply IHks].
      destruct (IH n adj nodes s0) as (evs & Hadv).
      destruct (executeNode now fuel n adj nodes s0) as [[] s1|msg s1|s1]; simpl in *;
        [|by eexists..].
      destruct (IHks s1) as (evs' & Hadv'). eexists. by eapply advances_trans. }
  rewrite executeNode_S.
  destruct (dispatch_advances node (logged (LogExecuting node) s)) as (evs & Hadv & Hv).
  assert (Hentry : advances s (logged (LogExecuting node) s) [LogExecuting node]).
  { unfold advances. simpl. repeat split; auto. }
  pose proof (advances_trans _ _ _ _ _ Hentry Hadv) as Hd.
  destruct (dispatch now node (logged (LogExecuting node) s)) as [e s2|msg s2|s2];
    simpl in *.
  - set (s2' := set_executionData _ s2).
    assert (Hst : advances s s2' ([LogExecuting node] ++ evs)).
    { destruct Hd as (Hc & He & Ht & Hdom & Hk & Hn). unfold advances, s2'. simpl.
      rewrite Hc. simpl in *. rewrite Hv in *. simpl in *.
      repeat split; auto.
      - rewrite dom_insert_L. set_solver.
      - intros k Hnot. rewrite lookup_insert_ne by set_solver. apply Hk. done.
      - intros k. rewrite dom_insert_L. intros [Hin|Hin]%elem_of_union.
        + right. set_solver.
        + apply Hn in Hin. done. }
    destruct (Hloop (default [] (adj !! node_id node)) s2') as (evs' & Hadv').
    destruct (successors_loop now fuel adj nodes _ s2') as [[] s3|msg s3|s3]; simpl in *.
    + eexists. by eapply advances_trans.
    + eexists. eapply advances_trans; [by eapply advances_trans|].
      by apply advances_logged.
    + eexists. by eapply advances_trans.
  - eexists. eapply advances_trans; [done|]. by apply advances_logged.
  - by eexists.
Qed.
Lemma executeNode_continue fuel node adj nodes s e s2 :
  dispatch now node (logged (LogExecuting node) s) = Ok e s2 →
  executeNode now (S fuel) node adj nodes s
  = continue_traversal now fuel node adj nodes
      (set_executionData (<[node_id node := e]> (executionData s2)) s2).
Proof.
  intros Hd. rewrite executeNode_S, Hd. unfold continue_traversal, try_catch.
  by destruct (successors_loop _ _ _ _ _ _) as [[] ?|? ?|?].
Qed.

(** C7 -- a data node whose configured source is "weather" gets the fixed
    placeholder reading, temperature 72 and condition "Sunny", in a data
    envelope; the handler only writes a console line and reads the clock. *)
Theorem weather_stub_envelope (node : Node) (s : State) :
  node_type node = "data" →
  config node !! "source" = Some (JStr "weather") →
  dispatch now node s = executeDataNode now node s
  ∧ executeDataNode now node s
    = Ok (EData (Some (JStr "weather"))
                (JObj [("temp", JNum 72); ("condition", JStr "Sunny")])
                (now (ticks s)))
         (ticked (logged (LogFetching (JStr "weather")) s)).
Proof.
  intros Hty Hsrc. split.
  - unfold dispatch. by rewrite Hty.
  - unfold executeDataNode. by rewrite Hsrc.
Qed.

(** C10 -- a transform node whose subtype is none of summarize, filter,
    combine yields an envelope whose payload holds the execution context
    under the key "transformed"; an action node whose subtype is none of
    email, sms, post yields the payload with the message "Action not
    configured".  Neither throws: the envelope is stored under the node's
    identifier and the walker goes on to the successors. *)
Theorem unrecognised_subtype_continues
    (fuel : nat) (adj : gmap string (list string)) (nodes : list Node)
    (nx na : Node) (s : State) :
  node_type nx = "transform" →
  config nx !! "type" ∉ [Some (JStr "summarize"); Some (JStr "filter");
                         Some (JStr "combine")] →
  node_type na = "action" →
  config na !! "type" ∉ [Some (JStr "email"); Some (JStr "sms");
                         Some (JStr "post")] →
  let ex := ETransform (config nx !! "type") [("transformed", MContext)]
                       (now (ticks s)) in
  let ea := EAction (config na !! "type")
                    [("message", MJson (Some (JStr "Action not configured")))]
                    (now (ticks s)) in
  executeTransform now nx s
    = Ok ex (ticked (logged (LogTransforming (js_or (config nx !! "type") "unknown")) s))
  ∧ executeAction now na s
    = Ok ea (ticked (logged (LogAction (js_or (config na !! "type") "unknown")) s))
  ∧ executeNode now (S fuel) nx adj nodes s
    = continue_traversal now fuel nx adj nodes
        (set_executionData (<[node_id nx := ex]> (executionData s))
           (ticked (logged (LogTransforming (js_or (config nx !! "type") "unknown"))
                      (logged (LogExecuting nx) s))))
  ∧ executeNode now (S fuel) na adj nodes s
    = continue_traversal now fuel na adj nodes
        (set_executionData (<[node_id na := ea]> (executionData s))
           (ticked (logged (LogAction (js_or (config na !! "type") "unknown"))
                      (logged (LogExecuting na) s)))).
Proof.
  intros Hx Hxty Ha Haty ex ea.
  assert (Hx' : ∀ s, executeTransform now nx s
    = Ok (ETransform (config nx !! "type") [("transformed", MContext)] (now (ticks s)))
        (ticked (logged (LogTransforming (js_or (config nx !! "type") "unknown")) s))).
  { intros s0. unfold executeTransform.
    rewrite !(proj2 (strict_eq_str_false _ _)); [done | set_solver..]. }
  assert (Ha' : ∀ s, executeAction now na s
    = Ok (EAction (config na !! "type")
            [("message", MJson (Some (JStr "Action not configured")))] (now (ticks s)))
        (ticked (logged (LogAction (js_or (config na !! "type") "unknown")) s))).
  { intros s0. unfold executeAction.
    rewrite !(proj2 (strict_eq_str_false _ _)); [done | set_solver..]. }
  repeat split; [apply Hx' | apply Ha' | |].
  - rewrite (executeNode_continue fuel nx adj nodes s _ _
               ltac:(unfold dispatch; rewrite Hx; apply Hx')).
    reflexivity.
  - rewrite (executeNode_continue fuel na adj nodes s _ _
               ltac:(unfold dispatch; rewrite Ha; apply Ha')).
    reflexivity.
Qed.

Lemma entered_app evs evs' : entered (evs ++ evs') = entered evs ++ entered evs'.
Proof. apply omap_app. Qed.

Lemma visits_entered evs : visits evs = node_id <$> entered evs.
Proof.
  induction evs as [|[] evs IH]; simpl; try done. unfold visits, entered in *.
  simpl. by rewrite IH.
Qed.

Lemma entered_nil_of_visits evs : visits evs = [] → entered evs = [].
Proof. rewrite visits_entered. by destruct (entered evs). Qed.

Lemma unknown_stops_quiet {A} (r : res A) evs :
  entered evs = [] → unknown_stops r evs.
Proof. intros H. left. rewrite H. by intros n ?%elem_of_nil. Qed.

(** Sequencing after a normal end. *)
Lemma unknown_stops_after {A B} (a : A) s1 (r : res B) evs evs' :
  unknown_stops (Ok a s1) evs → unknown_stops r evs' → unknown_stops r (evs ++ evs').
Proof.
  intros [Hk|(n & b & s' & _ & _ & _ & Hr)]; [|done].
  intros [Hk'|(n & b & s' & He & Hn & Hb & Hr)].
  - left. intros m. rewrite entered_app. intros [?|?]%elem_of_app; auto.
  - right. exists n, (entered evs ++ b), s'. rewrite entered_app, He, app_assoc.
    repeat split; auto. intros m [?|?]%elem_of_app; auto.
Qed.

(** A throw that is logged and thrown again. *)
Lemma unknown_stops_rethrow {A B} msg s1 s2 evs evs' :
  unknown_stops (@Throw A msg s1) evs → entered evs' = [] →
  unknown_stops (@Throw B msg s2) (evs ++ evs').
Proof.
  intros [Hk|(n & b & s' & He & Hn & Hb & Hr)] Hq.
  - left. intros m. rewrite entered_app, Hq, app_nil_r. auto.
  - right. exists n, b, s2. rewrite entered_app, Hq, app_nil_r.
    repeat split; auto. congruence.
Qed.

Lemma unknown_stops_exhausted {A B} s1 s2 evs :
  unknown_stops (@Exhausted A s1) evs → unknown_stops (@Exhausted B s2) evs.
Proof. intros [Hk|(n & b & s' & _ & _ & _ & Hr)]; [by left | done]. Qed.

Lemma executeNode_unknown_stops fuel : ∀ node adj nodes s,
  ∃ evs, console (final_state (executeNode now fuel node adj nodes s)) = console s ++ evs
         ∧ unknown_stops (executeNode now fuel node adj nodes s) evs.
Proof.
  induction fuel as [|fuel IH]; intros node adj nodes s.
  { exists []. simpl. rewrite app_nil_r. split; [done|]. by apply unknown_stops_quiet. }
  assert (Hloop : ∀ ks s, ∃ evs,
    console (final_state (successors_loop now fuel adj nodes ks s)) = console s ++ evs
    ∧ unknown_stops (successors_loop now fuel adj nodes ks s) evs).
  { induction ks as [|k ks IHks]; intros s0.
    - exists []. simpl. rewrite app_nil_r. split; [done|]. by apply unknown_stops_quiet.
    - rewrite successors_loop_cons. destruct (find_node nodes k) as [n|]; [|apply IHks].
      destruct (IH n adj nodes s0) as (evs & Hc & Hu).
      destruct (executeNode now fuel n adj nodes s0) as [[] s1|msg s1|s1]; simpl in *.
      + destruct (IHks s1) as (evs' & Hc' & Hu'). exists (evs ++ evs').
        rewrite Hc', Hc, app_assoc. split; [done|]. by eapply unknown_stops_after.
      + exists evs. split; [done|].
        rewrite <- (app_nil_r evs). by eapply unknown_stops_rethrow.
      + exists evs. split; [done|]. by eapply unknown_stops_exhausted. }
  rewrite executeNode_S.
  destruct (dispatch_cases node (logged (LogExecuting node) s))
    as (evs & Hv & [(e & Hd & Hk & _)|[(Hd & Hk & ->)|(Hd & Hk & _)]]); rewrite Hd.
  - set (s2 := set_executionData _ _).
    assert (Hpre : unknown_stops (Ok tt s2) (LogExecuting node :: evs)).
    { left. intros n. simpl. rewrite (entered_nil_of_visits _ Hv).
      by intros ->%list_elem_of_singleton. }
    destruct (Hloop (default [] (adj !! node_id node)) s2) as (evs' & Hc' & Hu').
    destruct (successors_loop now fuel adj nodes _ s2) as [[] s3|msg s3|s3]; simpl in *.
    + exists ((LogExecuting node :: evs) ++ evs').
      split; [rewrite Hc'; unfold s2; simpl; by rewrite <- !app_assoc|].
      by eapply unknown_stops_after.
    + exists (((LogExecuting node :: evs) ++ evs') ++ [LogNodeError (node_id node) msg]).
      split; [rewrite Hc'; unfold s2; simpl; by rewrite <- !app_assoc|].
      eapply (unknown_stops_rethrow (A:=unit)); [|done].
      by eapply unknown_stops_after.
    + exists ((LogExecuting node :: evs) ++ evs').
      split; [rewrite Hc'; unfold s2; simpl; by rewrite <- !app_assoc|].
      by eapply unknown_stops_after.
  - exists [LogExecuting node; LogNodeError (node_id node) (unknown_type_message node)].
    split; [simpl; by rewrite <- app_assoc|]. right.
    exists node, [], (logged (LogNodeError (node_id node) (unknown_type_message node))
                        (logged (LogExecuting node) s)).
    repeat split; auto. by intros m ?%elem_of_nil.
  - exists ((LogExecuting node :: evs) ++ [LogNodeError (node_id node) msg_circular]).
    split; [simpl; by rewrite <- !app_assoc|]. left. intros n.
    rewrite entered_app. simpl. rewrite (entered_nil_of_visits _ Hv).
    by intros ->%list_elem_of_singleton.
Qed.
End Walker.

(** ** The orchestrator *)

Section Run.
Variable now : nat -> Z.
Variable uuidv4 : string.
Variable supabase : Store.

Lemma logExecution_persisted workflowId st err data k s :
  logExecution now supabase workflowId uuidv4 st err data (now k) s
  = Ok tt (persisted supabase
             {| exec_id := uuidv4; exec_workflow_id := workflowId;
                exec_status := st; error_message := err; execution_data := data;
                started_at := now k; ended_at := now (ticks s) |} s).
Proof.
  unfold logExecution, persisted, new_Date, insert_execution, mbind, M_bind. simpl.
  by destruct (insert_error supabase (executions s) _).
Qed.

Lemma find_is_trigger_None nodes :
  find is_trigger nodes = None ↔ ∀ n, n ∈ nodes → node_type n ≠ "trigger".
Proof.
  split.
  - intros Hnone n Hin Hty. apply list_elem_of_In in Hin.
    pose proof (find_none _ _ Hnone n Hin) as Hf.
    unfold is_trigger in Hf. by rewrite Hty in Hf.
  - intros Hall. destruct (find is_trigger nodes) as [n|] eqn:Hf; [|done].
    apply find_some in Hf as [Hin Ht]. apply list_elem_of_In in Hin.
    unfold is_trigger in Ht. apply String.eqb_eq in Ht. by destruct (Hall n Hin).
Qed.

(** A violated precondition fails the run before anything else is done. *)
Lemma executeWorkflow_violated fuel workflowId msg s :
  violated supabase workflowId msg →
  executeWorkflow now uuidv4 supabase fuel workflowId s
  = run_failed now uuidv4 supabase workflowId msg (ticks s)
      (logged (LogStart workflowId) (ticked s)).
Proof.
  intros Hv. unfold executeWorkflow, run_failed, try_catch, new_Date, console_log,
    mbind, M_bind, throw, mret, M_ret. simpl.
  destruct Hv as [Hw|w Hw Hen|w Hw Hen Hn|w nodes Hw Hen Hn Hne Htr];
    rewrite Hw; simpl; rewrite ?Hen; simpl.
  - by rewrite logExecution_persisted.
  - by rewrite logExecution_persisted.
  - destruct Hn as [-> | ->]; simpl; by rewrite logExecution_persisted.
  - rewrite Hn. destruct nodes as [|n nodes]; [done|]. cbn -[find].
    apply find_is_trigger_None in Htr. rewrite Htr. simpl.
    by rewrite logExecution_persisted.
Qed.

(** A runnable workflow is traversed from its trigger node, unless the
    adjacency builder throws. *)
Lemma executeWorkflow_runnable fuel workflowId nodes trigger s :
  runnable supabase workflowId nodes trigger →
  executeWorkflow now uuidv4 supabase fuel workflowId s
  = let s1 := logged (LogStart workflowId) (ticked s) in
    match buildAdjacencyMap nodes (select_edges supabase workflowId) with
    | Raises msg => run_failed now uuidv4 supabase workflowId msg (ticks s) s1
    | Returns adj =>
        match executeNode now fuel trigger adj nodes (set_executionData ∅ s1) with
        | Ok _ s2 => run_completed now uuidv4 supabase workflowId (ticks s) s2
        | Throw msg s2 => run_failed now uuidv4 supabase workflowId msg (ticks s) s2
        | Exhausted s2 => Exhausted s2
        end
    end.
Proof.
  intros ((w & Hw & Hen) & Hn & Htr).
  unfold executeWorkflow, run_failed, run_completed, try_catch, new_Date, console_log,
    mbind, M_bind, throw, mret, M_ret, read_executionData. simpl.
  rewrite Hw. simpl. rewrite Hen, Hn. simpl.
  destruct nodes as [|n nodes]; [done|].
  cbn -[find buildAdjacencyMap executeNode]. rewrite Htr.
  cbn -[find buildAdjacencyMap executeNode].
  destruct (buildAdjacencyMap (n :: nodes) (select_edges supabase workflowId))
    as [adj|msg]; cbn -[executeNode].
  - destruct (executeNode now fuel trigger adj (n :: nodes) _) as [[] s2|msg s2|s2];
      simpl; by rewrite ?logExecution_persisted.
  - by rewrite logExecution_persisted.
Qed.
End Run.

Section Outcomes.
Variable now : nat -> Z.
Variable uuidv4 : string.
Variable supabase : Store.

Lemma events_since_app s s' evs :
  console s' = console s ++ evs → events_since s s' = evs.
Proof. intros H. unfold events_since. rewrite H. apply drop_app_length. Qed.

Lemma violated_or_runnable workflowId :
  (∃ msg, violated supabase workflowId msg)
  ∨ (∃ nodes trigger, runnable supabase workflowId nodes trigger).
Proof.
  destruct (select_workflow supabase workflowId) as [w|] eqn:Hw;
    [|left; eexists; by apply workflow_missing].
  destruct (enabled w) eqn:Hen; [|left; eexists; by eapply workflow_disabled].
  destruct (select_nodes supabase workflowId) as [[|n nodes]|] eqn:Hn;
    [left; eexists; eapply workflow_empty; eauto| |
     left; eexists; eapply workflow_empty; eauto].
  destruct (find is_trigger (n :: nodes)) as [t|] eqn:Ht.
  - right. exists (n :: nodes), t. repeat split; eauto.
  - left. eexists. eapply workflow_without_trigger; eauto.
    by apply find_is_trigger_None.
Qed.

Lemma persisted_advances record s :
  ∃ evs, console (persisted supabase record s) = console s ++ evs
         ∧ entered evs = []
         ∧ executionData (persisted supabase record s) = executionData s
         ∧ (executions (persisted supabase record s) = executions s ++ [record]
            ∧ insert_error supabase (executions s) record = None ∧ evs = []
            ∨ ∃ msg, insert_error supabase (executions s) record = Some msg
                     ∧ executions (persisted supabase record s) = executions s
                     ∧ evs = [LogInsertFailed msg]).
Proof.
  unfold persisted. destruct (insert_error supabase (executions s) record) as [msg|].
  - exists [LogInsertFailed msg]. simpl. repeat split; eauto.
  - exists []. simpl. rewrite app_nil_r. repeat split; eauto.
Qed.

(** The only row a failed run can add is its own, and it has no context. *)

Lemma run_failed_facts workflowId msg k s :
  let s' := final_state (run_failed now uuidv4 supabase workflowId msg k s) in
  outcome_of (run_failed now uuidv4 supabase workflowId msg k s)
  = Some (RunFailure uuidv4 msg)
  ∧ (∃ evs, console s' = console s ++ evs ∧ entered evs = [])
  ∧ (∀ record, record ∈ executions s' →
       record ∈ executions s ∨ failed_row_of uuidv4 msg record).
Proof.
  unfold run_failed. simpl. split; [done|].
  destruct (persisted_advances
              (failed_record now uuidv4 workflowId msg k s) (logged (LogFailed msg) s))
    as (evs & Hc & He & _ & Hx).
  split.
  - exists (LogFailed msg :: evs). rewrite Hc. simpl. rewrite <- app_assoc.
    split; [done|]. simpl. done.
  - intros record. destruct Hx as [[Hx _]|[e [_ [Hx _]]]]; rewrite Hx; simpl.
    + intros [?|Hin]%elem_of_app; [by left|].
      apply list_elem_of_singleton in Hin as ->. right. by repeat split.
    + by left.
Qed.

Lemma executeNode_executions fuel node adj nodes s :
  executions (final_state (executeNode now fuel node adj nodes s)) = executions s.
Proof. destruct (executeNode_advances now fuel node adj nodes s) as (? & ? & ? & _). done. Qed.

Lemma violated_precondition_fails_run_aux
    (fuel : nat) (workflowId msg : string) (s : State) :
  violated supabase workflowId msg →
  let r := executeWorkflow now uuidv4 supabase fuel workflowId s in
  outcome_of r = Some (RunFailure uuidv4 msg)
  ∧ entered (events_since s (final_state r)) = []
  ∧ (∀ record, record ∈ executions (final_state r) →
       record ∈ executions s ∨ failed_row_of uuidv4 msg record).
Proof.
  intros Hv r. unfold r. rewrite (executeWorkflow_violated _ _ _ _ _ _ _ Hv).
  destruct (run_failed_facts workflowId msg (ticks s)
              (logged (LogStart workflowId) (ticked s)))
    as (Ho & (evs & Hc & He) & Hx).
  split; [done|]. split; [|exact Hx].
  rewrite (events_since_app s _ (LogStart workflowId :: evs)).
  - simpl. exact He.
  - rewrite Hc. simpl. by rewrite <- app_assoc.
Qed.

Lemma violated_functional workflowId msg msg' :
  violated supabase workflowId msg → violated supabase workflowId msg' → msg' = msg.
Proof.
  intros [Hw|w Hw Hen|w Hw Hen Hn|w nodes Hw Hen Hn Hne Htr]
         [Hw'|w' Hw' Hen'|w' Hw' Hen' Hn'|w' nodes' Hw' Hen' Hn' Hne' Htr'];
    try done; try congruence.
  - destruct Hn as [Hn|Hn]; congruence.
  - destruct Hn' as [Hn'|Hn']; congruence.
Qed.

(** C2 (amended) -- the preconditions are checked in the order: the
    workflow exists, it is enabled, it has a node, it has a trigger node.
    The first one violated fails the run with its own message and no other:
    no node is entered, no context is created, and the row of the failed
    run carries no context.  A workflow without trigger nodes therefore
    gets the missing-trigger message exactly when it exists, is enabled and
    has at least one node. *)
Theorem violated_precondition_fails_run
    (fuel : nat) (workflowId msg : string) (s : State) :
  violated supabase workflowId msg →
  let r := executeWorkflow now uuidv4 supabase fuel workflowId s in
  outcome_of r = Some (RunFailure uuidv4 msg)
  ∧ (∀ msg', violated supabase workflowId msg' → msg' = msg)
  ∧ entered (events_since s (final_state r)) = []
  ∧ executionData (final_state r) = executionData s
  ∧ (∀ record, record ∈ executions (final_state r) →
       record ∈ executions s ∨ failed_row_of uuidv4 msg record).
Proof.
  intros Hv r. unfold r. rewrite (executeWorkflow_violated _ _ _ _ _ _ _ Hv).
  set (s1 := logged (LogStart workflowId) (ticked s)).
  destruct (run_failed_facts workflowId msg (ticks s) s1)
    as (Ho & (evs & Hc & He) & Hx).
  split; [exact Ho|]. split; [intros msg' Hv'; by eapply violated_functional|].
  split; [|split; [|exact Hx]].
  - rewrite (events_since_app s _ (LogStart workflowId :: evs)).
    + simpl. exact He.
    + rewrite Hc. unfold s1. simpl. by rewrite <- app_assoc.
  - unfold run_failed. simpl.
    destruct (persisted_advances
                (failed_record now uuidv4 workflowId msg (ticks s) s1)
                (logged (LogFailed msg) s1)) as (_ & _ & _ & Hd & _).
    by rewrite Hd.
Qed.

(** C6 -- a node whose category is none of trigger, data, transform, action
    stops the run where it is dispatched: it is the last node entered, the
    run resolves to a failure whose message names the category, and the
    only row the run can add is a failed one without context. *)
Theorem unknown_category_fails_run
    (fuel : nat) (workflowId : string) (s : State) (n : Node) :
  let r := executeWorkflow now uuidv4 supabase fuel workflowId s in
  n ∈ entered (events_since s (final_state r)) →
  ¬ known_type n →
  outcome_of r = Some (RunFailure uuidv4 (unknown_type_message n))
  ∧ last (entered (events_since s (final_state r))) = Some n
  ∧ (∀ record, record ∈ executions (final_state r) →
       record ∈ executions s ∨ failed_row_of uuidv4 (unknown_type_message n) record).
Proof.
  intros r. unfold r. clear r.
  destruct (violated_or_runnable workflowId) as [(msg & Hv)|(nodes & t & Hr)].
  { destruct (violated_precondition_fails_run_aux fuel workflowId msg s Hv) as (_ & He & _).
    rewrite He. by intros ?%elem_of_nil. }
  rewrite (executeWorkflow_runnable _ _ _ _ _ _ _ _ Hr). simpl.
  set (s1 := logged (LogStart workflowId) (ticked s)).
  destruct (buildAdjacencyMap nodes (select_edges supabase workflowId)) as [adj|msg].
  2:{ destruct (run_failed_facts workflowId msg (ticks s) s1)
        as (_ & (evs & Hc & He) & _).
      rewrite (events_since_app s _ (LogStart workflowId :: evs)).
      - simpl. rewrite He. by intros ?%elem_of_nil.
      - rewrite Hc. simpl. by rewrite <- app_assoc. }
  destruct (executeNode_unknown_stops now fuel t adj nodes (set_executionData ∅ s1))
    as (evs & Hc & Hu).
  pose proof (executeNode_executions fuel t adj nodes (set_executionData ∅ s1)) as Hx.
  destruct (executeNode now fuel t adj nodes (set_executionData ∅ s1))
    as [[] s2|msg s2|s2]; simpl in Hc, Hx.
  - destruct Hu as [Hk|(? & ? & ? & _ & _ & _ & ?)]; [|done].
    destruct (persisted_advances
                (completed_record now uuidv4 workflowId (ticks s) s2) s2)
      as (evs' & Hc' & He' & _).
    unfold run_completed. simpl.
    rewrite (events_since_app s _ (LogStart workflowId :: evs ++ evs'
                                     ++ [LogCompleted workflowId])).
    + simpl. rewrite !entered_app, He'. simpl. rewrite app_nil_r.
      intros Hin Hn. by destruct Hn; apply Hk.
    + simpl. rewrite Hc', Hc. simpl. by rewrite <- !app_assoc.
  - destruct (run_failed_facts workflowId msg (ticks s) s2)
      as (Ho & (evs' & Hc' & He') & Hrec).
    rewrite (events_since_app s _ (LogStart workflowId :: evs ++ evs')).
    2:{ rewrite Hc', Hc. simpl. by rewrite <- !app_assoc. }
    simpl. rewrite entered_app, He', app_nil_r. intros Hin Hn.
    destruct Hu as [Hk|(n0 & before & s' & Hent & Hn0 & Hb & Hthrow)];
      [by destruct Hn; apply Hk|].
    rewrite Hent in Hin |- *.
    assert (n = n0) as <-.
    { apply elem_of_app in Hin as [Hin|Hin]; [by destruct Hn; apply Hb|].
      by apply list_elem_of_singleton in Hin. }
    injection Hthrow as -> _. split; [done|]. split; [apply last_snoc|].
    intros record Hin'. destruct (Hrec record Hin') as [?|?]; [left|by right].
    by rewrite <- Hx.
  - destruct Hu as [Hk|(? & ? & ? & _ & _ & _ & ?)]; [|done].
    rewrite (events_since_app s _ (LogStart workflowId :: evs)).
    + simpl. intros Hin Hn. by destruct Hn; apply Hk.
    + simpl. rewrite Hc. simpl. by rewrite <- !app_assoc.
Qed.

Lemma violated_with_insert_error f workflowId msg :
  violated supabase workflowId msg →
  violated (with_insert_error supabase f) workflowId msg.
Proof.
  intros [Hw|w Hw Hen|w Hw Hen Hn|w nodes Hw Hen Hn Hne Htr].
  - by apply workflow_missing.
  - by eapply workflow_disabled.
  - by eapply workflow_empty.
  - by eapply workflow_without_trigger.
Qed.

Lemma runnable_with_insert_error f workflowId nodes t :
  runnable supabase workflowId nodes t →
  runnable (with_insert_error supabase f) workflowId nodes t.
Proof. intros H. exact H. Qed.
End Outcomes.

Section Persistence.
Variable now : nat -> Z.
Variable uuidv4 : string.
Variable supabase : Store.

(** C9 -- however the insert into [executions] answers, [executeWorkflow]
    resolves to the same outcome, and it never rejects.  With a store that
    refuses every insert with an error, the run still resolves -- to a
    success carrying the execution identifier and the context whenever the
    run against the original store does -- while the error is written to
    the console and the table stays as it was. *)
Theorem persistence_error_keeps_outcome
    (fuel : nat) (workflowId : string) (s : State)
    (f : list ExecutionRecord → ExecutionRecord → option string) (e : string) :
  let r := executeWorkflow now uuidv4 supabase fuel workflowId s in
  let r' := executeWorkflow now uuidv4 (with_insert_error supabase f) fuel workflowId s in
  let r'' := executeWorkflow now uuidv4
               (with_insert_error supabase (fun _ _ => Some e)) fuel workflowId s in
  outcome_of r' = outcome_of r
  ∧ (∀ msg s', r' ≠ Throw msg s')
  ∧ (∀ data, outcome_of r = Some (RunSuccess uuidv4 data) →
       outcome_of r'' = Some (RunSuccess uuidv4 data))
  ∧ (∀ o s', r'' = Ok o s' →
       LogInsertFailed e ∈ events_since s s' ∧ executions s' = executions s).
Proof.
  intros r r' r''.
  cut (outcome_of r' = outcome_of r ∧ outcome_of r'' = outcome_of r
       ∧ (∀ msg s', r' ≠ Throw msg s')
       ∧ (∀ o s', r'' = Ok o s' →
            LogInsertFailed e ∈ events_since s s' ∧ executions s' = executions s)).
  { intros (H1 & H2 & H3 & H4). split; [done|]. split; [done|].
    split; [|done]. intros data Hd. by rewrite H2. }
  unfold r, r', r''. clear r r' r''.
  destruct (violated_or_runnable supabase workflowId) as [(msg & Hv)|(nodes & t & Hr)].
  { rewrite !(executeWorkflow_violated _ _ _ _ _ _ _
                (violated_with_insert_error _ _ _ _ Hv)).
    rewrite (executeWorkflow_violated _ _ _ _ _ _ _ Hv).
    split; [done|]. split; [done|]. split; [done|]. intros o s'. unfold run_failed, persisted. simpl.
    intros [= <- <-]. simpl. split; [|done].
    rewrite (events_since_app s _ [LogStart workflowId; LogFailed msg; LogInsertFailed e]).
    - set_solver.
    - simpl. by rewrite <- !app_assoc. }
  rewrite !(executeWorkflow_runnable _ _ _ _ _ _ _ _
              (runnable_with_insert_error _ _ _ _ _ Hr)).
  rewrite (executeWorkflow_runnable _ _ _ _ _ _ _ _ Hr). simpl.
  set (s1 := logged (LogStart workflowId) (ticked s)).
  destruct (buildAdjacencyMap nodes (select_edges supabase workflowId)) as [adj|msg].
  2:{ split; [done|]. split; [done|]. split; [done|]. intros o s'. unfold run_failed, persisted. simpl.
      intros [= <- <-]. simpl. split; [|done].
      rewrite (events_since_app s _ [LogStart workflowId; LogFailed msg; LogInsertFailed e]).
      - set_solver.
      - simpl. by rewrite <- !app_assoc. }
  destruct (executeNode_advances now fuel t adj nodes (set_executionData ∅ s1))
    as (evs & Hc & Hx & _).
  destruct (executeNode now fuel t adj nodes (set_executionData ∅ s1))
    as [[] s2|msg s2|s2]; simpl in Hc, Hx.
  - split; [done|]. split; [done|]. split; [done|]. intros o s'. unfold run_completed, persisted. simpl.
    intros [= <- <-]. simpl. split; [|done].
    rewrite (events_since_app s _ (LogStart workflowId :: evs
               ++ [LogInsertFailed e; LogCompleted workflowId])).
    + set_solver.
    + simpl. rewrite Hc. simpl. by rewrite <- !app_assoc.
  - split; [done|]. split; [done|]. split; [done|]. intros o s'. unfold run_failed, persisted. simpl.
    intros [= <- <-]. simpl. split; [|done].
    rewrite (events_since_app s _ (LogStart workflowId :: evs
               ++ [LogFailed msg; LogInsertFailed e])).
    + set_solver.
    + simpl. rewrite Hc. simpl. by rewrite <- !app_assoc.
  - split; [done|]. split; [done|]. split; done.
Qed.
End Persistence.

(** ** Walking a given graph *)

Lemma targets_of_endpoints k edges :
  targets_of k edges = (filter (fun p => p.1 = k) (endpoints <$> edges)).*2.
Proof.
  unfold targets_of. induction edges as [|e edges IH]; [done|].
  rewrite fmap_cons, !filter_cons. simpl. case_decide; simpl; by rewrite IH.
Qed.

Lemma targets_of_perm k edges pairs :
  endpoints <$> edges ≡ₚ pairs →
  targets_of k edges ≡ₚ (filter (fun p => p.1 = k) pairs).*2.
Proof. intros H. rewrite targets_of_endpoints. by rewrite H. Qed.

Lemma edge_sources edges pairs e :
  endpoints <$> edges ≡ₚ pairs → e ∈ edges → source_node_id e ∈ pairs.*1.
Proof.
  intros Hp He. rewrite <- Hp. rewrite <- list_fmap_compose.
  apply list_elem_of_fmap. by exists e.
Qed.

Lemma find_unique {A} (p : A → bool) (l : list A) (x : A) :
  x ∈ l → p x = true → (∀ y, y ∈ l → p y = true → y = x) → find p l = Some x.
Proof.
  induction l as [|a l IH]; intros Hin Hp Hu; [by apply elem_of_nil in Hin|].
  simpl. destruct (p a) eqn:Ha.
  - f_equal. apply Hu; [by left | done].
  - apply IH; [|done|].
    + apply elem_of_cons in Hin as [->|?]; [congruence | done].
    + intros y Hy. apply Hu. by right.
Qed.

Lemma find_node_elem nodes n :
  NoDup (node_ids nodes) → n ∈ nodes → find_node nodes (node_id n) = Some n.
Proof.
  intros Hnd Hin. unfold find_node. apply find_unique; [done | apply String.eqb_refl |].
  intros m Hm Heq. apply String.eqb_eq in Heq.
  unfold node_ids in Hnd. clear -Hnd Hin Hm Heq.
  induction nodes as [|a nodes IH]; [by apply elem_of_nil in Hin|].
  apply NoDup_cons in Hnd as [Ha Hnd].
  apply elem_of_cons in Hin as [->|Hin]; apply elem_of_cons in Hm as [->|Hm]; auto.
  - destruct Ha. rewrite <- Heq. apply list_elem_of_fmap. by exists m.
  - destruct Ha. rewrite Heq. apply list_elem_of_fmap. by exists n.
Qed.

Lemma walked_app s s1 s2 p1 p2 :
  walked s s1 p1 → walked s1 s2 p2 → walked s s2 (p1 ++ p2).
Proof.
  intros (Hd & (evs & Hc & Hv) & Ht & Hx) (Hd' & (evs' & Hc' & Hv') & Ht' & Hx').
  unfold walked. rewrite Hd', Hd, foldl_app, Ht', Ht, Hx', Hx, length_app, fmap_app.
  repeat split; [|lia]. exists (evs ++ evs').
  rewrite Hc', Hc, <- app_assoc. split; [done|].
  unfold visits in *. by rewrite omap_app, Hv, Hv'.
Qed.

Lemma walked_nil s : walked s s [].
Proof. unfold walked. simpl. repeat split; [|lia]. exists []. by rewrite app_nil_r. Qed.

Lemma circular_empty : circular ∅ = false.
Proof. apply circular_false. intros k e. by rewrite lookup_empty. Qed.

Lemma circular_insert_false k e m :
  holds_context e = false → circular m = false → circular (<[k:=e]> m) = false.
Proof.
  rewrite !circular_false. intros He Hm k' e'.
  destruct (decide (k = k')) as [<-|Hne].
  - rewrite lookup_insert_eq. congruence.
  - rewrite lookup_insert_ne by done. apply Hm.
Qed.

Section Stepping.
Variable now : nat -> Z.

(** Entering a node whose handler does not throw: the envelope goes into
    the context under the node's identifier and the walker turns to the
    successors. *)
Lemma executeNode_enter fuel node adj nodes s :
  known_type node →
  (is_summarize node = true → circular (executionData s) = false) →
  ∃ e sd s1,
    dispatch now node (logged (LogExecuting node) s) = Ok e sd
    ∧ s1 = set_executionData (<[node_id node := e]> (executionData s)) sd
    ∧ envelope_type e = node_type node
    ∧ timestamp e = now (ticks s)
    ∧ holds_context e = is_passthrough node
    ∧ walked s s1 [(node_id node, e)]
    ∧ executeNode now (S fuel) node adj nodes s
      = continue_traversal now fuel node adj nodes s1.
Proof.
  intros Hk Hs.
  destruct (dispatch_cases now node (logged (LogExecuting node) s))
    as (evs & Hv & [(e & Hd & _ & Hty & Hts & Hh & _)|[(_ & Hn & _)|(_ & _ & Hsum & Hc)]]).
  - exists e. eexists. eexists. split; [exact Hd|]. split; [reflexivity|].
    repeat split; try done.
    + exists (LogExecuting node :: evs). simpl. rewrite <- app_assoc. split; [done|].
      unfold visits in *. simpl. by rewrite Hv.
    + simpl. lia.
    + by rewrite (executeNode_continue now fuel node adj nodes s _ _ Hd).
  - done.
  - simpl in Hc. rewrite Hs in Hc; done.
Qed.

Lemma continue_traversal_ok fuel node adj nodes ks s s' :
  adj !! node_id node = Some ks →
  successors_loop now fuel adj nodes ks s = Ok tt s' →
  continue_traversal now fuel node adj nodes s = Ok tt s'.
Proof.
  intros Ha Hl. unfold continue_traversal, try_catch. rewrite Ha. simpl. by rewrite Hl.
Qed.

Lemma successors_loop_ok fuel adj nodes k n ks s s1 s2 :
  find_node nodes k = Some n →
  executeNode now fuel n adj nodes s = Ok tt s1 →
  successors_loop now fuel adj nodes ks s1 = Ok tt s2 →
  successors_loop now fuel adj nodes (k :: ks) s = Ok tt s2.
Proof. intros Hf He Hl. by rewrite successors_loop_cons, Hf, He. Qed.
End Stepping.

Lemma not_passthrough n :
  node_type n ≠ "transform" → is_passthrough n = false.
Proof.
  intros H. unfold is_passthrough.
  destruct (String.eqb_spec (node_type n) "transform"); done.
Qed.

Lemma not_summarize n :
  node_type n ≠ "transform" → is_summarize n = true → False.
Proof.
  intros H. unfold is_summarize.
  destruct (String.eqb_spec (node_type n) "transform"); done.
Qed.

Lemma summarize_not_passthrough n : is_summarize n = true → is_passthrough n = false.
Proof.
  unfold is_summarize, is_passthrough. intros [-> ->]%andb_true_iff. done.
Qed.

(** ** The linear chain *)

Section Chain.
Variable now : nat -> Z.
Variable uuidv4 : string.
Variable supabase : Store.
Variables (workflowId : string) (workflow : Workflow).
Variables (nodes : list Node) (edges : list Edge).
Variables nT nD nX nA : Node.

Hypothesis Hworkflow : select_workflow supabase workflowId = Some workflow.
Hypothesis Henabled : enabled workflow = true.
Hypothesis Hnodes : select_nodes supabase workflowId = Some nodes.
Hypothesis Hedges : select_edges supabase workflowId = Some edges.
Hypothesis Hfour : nodes ≡ₚ [nT; nD; nX; nA].
Hypothesis Hchain :
  endpoints <$> edges ≡ₚ [(node_id nT, node_id nD); (node_id nD, node_id nX);
                          (node_id nX, node_id nA)].
Hypothesis Hdistinct : NoDup [node_id nT; node_id nD; node_id nX; node_id nA].
Hypothesis HT : node_type nT = "trigger".
Hypothesis HD : node_type nD = "data".
Hypothesis HX : node_type nX = "transform".
Hypothesis HA : node_type nA = "action".

Local Lemma chain_ids : node_ids nodes ≡ₚ [node_id nT; node_id nD; node_id nX; node_id nA].
Proof. unfold node_ids. by rewrite Hfour. Qed.

Local Lemma chain_runnable : runnable supabase workflowId nodes nT.
Proof.
  repeat split; [by exists workflow | done |].
  apply find_unique.
  - rewrite Hfour. set_solver.
  - unfold is_trigger. by rewrite HT.
  - intros y Hy Hty. unfold is_trigger in Hty. apply String.eqb_eq in Hty.
    rewrite Hfour in Hy. set_unfold. destruct Hy as [->|[->|[->|[->|[]]]]]; congruence.
Qed.

Local Lemma chain_neq :
  node_id nT ≠ node_id nD ∧ node_id nT ≠ node_id nX ∧ node_id nT ≠ node_id nA
  ∧ node_id nD ≠ node_id nX ∧ node_id nD ≠ node_id nA ∧ node_id nX ≠ node_id nA.
Proof.
  pose proof Hdistinct as H. rewrite !NoDup_cons in H. set_solver.
Qed.

Local Lemma chain_adjacency :
  ∃ adj, buildAdjacencyMap nodes (Some edges) = Returns adj
         ∧ adj !! node_id nT = Some [node_id nD]
         ∧ adj !! node_id nD = Some [node_id nX]
         ∧ adj !! node_id nX = Some [node_id nA]
         ∧ adj !! node_id nA = Some [].
Proof.
  destruct chain_neq as (? & ? & ? & ? & ? & ?).
  destruct (buildAdjacencyMap_returns nodes edges) as (adj & Hadj & Hlk).
  { intros e He. rewrite chain_ids.
    pose proof (edge_sources _ _ _ Hchain He) as Hs. simpl in Hs. set_solver. }
  exists adj. split; [done|].
  assert (Hin : ∀ k, k ∈ [node_id nT; node_id nD; node_id nX; node_id nA] →
                     ∃ l, adj !! k = Some l
                          ∧ l ≡ₚ (filter (fun p => p.1 = k)
                               [(node_id nT, node_id nD); (node_id nD, node_id nX);
                                (node_id nX, node_id nA)]).*2).
  { intros k Hk. rewrite Hlk, decide_True by (by rewrite chain_ids).
    eexists. split; [done|]. by apply targets_of_perm. }
  repeat split.
  - destruct (Hin (node_id nT)) as (l & -> & Hl); [set_solver|].
    rewrite !filter_cons, filter_nil in Hl. simpl in Hl.
    rewrite decide_True, !decide_False in Hl by done.
    by apply Permutation_singleton_r in Hl as ->.
  - destruct (Hin (node_id nD)) as (l & -> & Hl); [set_solver|].
    rewrite !filter_cons, filter_nil in Hl. simpl in Hl.
    rewrite decide_False, decide_True, decide_False in Hl by done.
    by apply Permutation_singleton_r in Hl as ->.
  - destruct (Hin (node_id nX)) as (l & -> & Hl); [set_solver|].
    rewrite !filter_cons, filter_nil in Hl. simpl in Hl.
    rewrite !decide_False, decide_True in Hl by done.
    by apply Permutation_singleton_r in Hl as ->.
  - destruct (Hin (node_id nA)) as (l & -> & Hl); [set_solver|].
    rewrite !filter_cons, filter_nil in Hl. simpl in Hl.
    rewrite !decide_False in Hl by done.
    by apply Permutation_nil_r in Hl as ->.
Qed.

Local Lemma chain_find n :
  n ∈ [nT; nD; nX; nA] → find_node nodes (node_id n) = Some n.
Proof.
  intros Hn. apply find_node_elem.
  - by rewrite chain_ids.
  - by rewrite Hfour.
Qed.

Local Lemma chain_walk fuel s :
  circular (executionData s) = false →
  ∃ adj et ed ex ea s',
    buildAdjacencyMap nodes (Some edges) = Returns adj
    ∧ executeNode now (S (S (S (S fuel)))) nT adj nodes s = Ok tt s'
    ∧ walked s s' [(node_id nT, et); (node_id nD, ed); (node_id nX, ex); (node_id nA, ea)]
    ∧ envelope_type et = "trigger" ∧ envelope_type ed = "data"
    ∧ envelope_type ex = "transform" ∧ envelope_type ea = "action"
    ∧ timestamp et = now (ticks s) ∧ timestamp ed = now (1 + ticks s)
    ∧ timestamp ex = now (2 + ticks s) ∧ timestamp ea = now (3 + ticks s).
Proof.
  intros Hc0.
  destruct chain_adjacency as (adj & Hadj & Ht & Hd & Hx & Ha).
  destruct (executeNode_enter now (S (S (S fuel))) nT adj nodes s)
    as (et & ? & s1 & _ & _ & Hty1 & Hts1 & Hh1 & Hw1 & He1).
  { unfold known_type. rewrite HT. set_solver. }
  { intros Hs. destruct (not_summarize nT); [by rewrite HT | done]. }
  destruct (executeNode_enter now (S (S fuel)) nD adj nodes s1)
    as (ed & ? & s2 & _ & _ & Hty2 & Hts2 & Hh2 & Hw2 & He2).
  { unfold known_type. rewrite HD. set_solver. }
  { intros Hs. destruct (not_summarize nD); [by rewrite HD | done]. }
  rewrite not_passthrough in Hh1 by (by rewrite HT).
  rewrite not_passthrough in Hh2 by (by rewrite HD).
  destruct (executeNode_enter now (S fuel) nX adj nodes s2)
    as (ex & ? & s3 & _ & _ & Hty3 & Hts3 & Hh3 & Hw3 & He3).
  { unfold known_type. rewrite HX. set_solver. }
  { intros _. destruct Hw2 as (-> & _), Hw1 as (-> & _). simpl.
    by repeat apply circular_insert_false. }
  destruct (executeNode_enter now fuel nA adj nodes s3)
    as (ea & ? & s4 & _ & _ & Hty4 & Hts4 & Hh4 & Hw4 & He4).
  { unfold known_type. rewrite HA. set_solver. }
  { intros Hs. destruct (not_summarize nA); [by rewrite HA | done]. }
  rewrite (continue_traversal_ok now fuel nA adj nodes [] s4 s4 Ha eq_refl) in He4.
  erewrite continue_traversal_ok in He3; [|exact Hx|];
    [|eapply successors_loop_ok; [apply chain_find; set_solver | exact He4 | reflexivity]].
  erewrite continue_traversal_ok in He2; [|exact Hd|];
    [|eapply successors_loop_ok; [apply chain_find; set_solver | exact He3 | reflexivity]].
  erewrite continue_traversal_ok in He1; [|exact Ht|];
    [|eapply successors_loop_ok; [apply chain_find; set_solver | exact He2 | reflexivity]].
  exists adj, et, ed, ex, ea, s4. split; [done|]. split; [done|].
  split.
  { apply (walked_app _ _ _ [_] [_; _; _] Hw1).
    apply (walked_app _ _ _ [_] [_; _] Hw2).
    apply (walked_app _ _ _ [_] [_] Hw3). exact Hw4. }
  rewrite Hty1, Hty2, Hty3, Hty4, Hts1, Hts2, Hts3, Hts4.
  destruct Hw1 as (_ & _ & Hk1 & _), Hw2 as (_ & _ & Hk2 & _), Hw3 as (_ & _ & Hk3 & _).
  simpl in Hk1, Hk2, Hk3. repeat split; try done; f_equal; lia.
Qed.

(** C1 -- on a runnable workflow whose graph is the chain trigger, data,
    transform, action, with whatever order the store lists the nodes and
    the edges in, [executeWorkflow] enters the four nodes in the order of
    the chain and resolves to a success whose context has exactly the four
    node identifiers as keys, each with the envelope of its own category. *)
Theorem linear_chain_run (fuel : nat) (s : State) :
  4 ≤ fuel →
  ∃ et ed ex ea s',
    executeWorkflow now uuidv4 supabase fuel workflowId s
    = Ok (RunSuccess uuidv4 (executionData s')) s'
    ∧ visits (events_since s s')
      = [node_id nT; node_id nD; node_id nX; node_id nA]
    ∧ executionData s'
      = <[node_id nA := ea]> (<[node_id nX := ex]> (<[node_id nD := ed]>
          (<[node_id nT := et]> ∅)))
    ∧ dom (executionData s') = {[node_id nT; node_id nD; node_id nX; node_id nA]}
    ∧ size (executionData s') = 4
    ∧ envelope_type et = "trigger" ∧ envelope_type ed = "data"
    ∧ envelope_type ex = "transform" ∧ envelope_type ea = "action".
Proof.
  intros Hfuel.
  destruct fuel as [|[|[|[|fuel]]]]; try lia. clear Hfuel.
  set (s1 := set_executionData ∅ (logged (LogStart workflowId) (ticked s))).
  destruct (chain_walk fuel s1 circular_empty)
    as (adj & et & ed & ex & ea & s2 & Hadj & Hexec & Hw & Hty).
  rewrite (executeWorkflow_runnable _ _ _ _ _ _ _ _ chain_runnable).
  cbv zeta. rewrite Hedges, Hadj. cbv beta iota. fold s1. rewrite Hexec.
  unfold run_completed.
  destruct Hw as (Hd & (evs & Hc & Hv) & Ht & Hx). simpl in Hd, Hc, Hv.
  destruct (persisted_advances supabase
              (completed_record now uuidv4 workflowId (ticks s) s2) s2)
    as (evs' & Hc' & He' & Hd' & _).
  exists et, ed, ex, ea.
  exists (logged (LogCompleted workflowId)
            (persisted supabase
               (completed_record now uuidv4 workflowId (ticks s) s2) s2)).
  split; [|split; [|split; [|split; [|split]]]].
  - simpl. by rewrite Hd'.
  - rewrite (events_since_app s _ (LogStart workflowId :: evs ++ evs'
                                    ++ [LogCompleted workflowId])).
    + simpl. rewrite !visits_app, Hv. rewrite (visits_entered evs'), He'. done.
    + simpl. rewrite Hc', Hc. by rewrite <- !app_assoc.
  - simpl. by rewrite Hd', Hd.
  - simpl. rewrite Hd', Hd, !dom_insert_L, dom_empty_L. set_solver.
  - simpl. rewrite Hd', Hd.
    destruct chain_neq as (? & ? & ? & ? & ? & ?).
    rewrite !map_size_insert_None, map_size_empty; [done|..];
      rewrite ?lookup_insert_ne by done; apply lookup_empty.
  - destruct Hty as (? & ? & ? & ? & _). done.
Qed.
End Chain.

(** ** The diamond *)

Section Diamond.
Variable now : nat -> Z.
Variable uuidv4 : string.
Variable supabase : Store.
Variables (workflowId : string) (workflow : Workflow).
Variables (nodes : list Node) (edges : list Edge).
Variables nT nA nB nC : Node.

Hypothesis Hworkflow : select_workflow supabase workflowId = Some workflow.
Hypothesis Henabled : enabled workflow = true.
Hypothesis Hnodes : select_nodes supabase workflowId = Some nodes.
Hypothesis Hedges : select_edges supabase workflowId = Some edges.
Hypothesis Hfour : nodes ≡ₚ [nT; nA; nB; nC].
Hypothesis Hdiamond :
  endpoints <$> edges ≡ₚ [(node_id nT, node_id nA); (node_id nT, node_id nB);
                          (node_id nA, node_id nC); (node_id nB, node_id nC)].
Hypothesis Horder : targets_of (node_id nT) edges = [node_id nA; node_id nB].
Hypothesis Hdistinct : NoDup [node_id nT; node_id nA; node_id nB; node_id nC].
Hypothesis HT : node_type nT = "trigger".
Hypothesis HA : node_type nA ∈ ["data"; "transform"; "action"].
Hypothesis HB : node_type nB ∈ ["data"; "transform"; "action"].
Hypothesis HC : node_type nC ∈ ["data"; "transform"; "action"].
Hypothesis HserC : serialisable_after nC [nA; nB].
Hypothesis HserB : serialisable_after nB [nA; nC].

Local Lemma diamond_ids :
  node_ids nodes ≡ₚ [node_id nT; node_id nA; node_id nB; node_id nC].
Proof. unfold node_ids. by rewrite Hfour. Qed.

Local Lemma diamond_runnable : runnable supabase workflowId nodes nT.
Proof.
  repeat split; [by exists workflow | done |].
  apply find_unique.
  - rewrite Hfour. set_solver.
  - unfold is_trigger. by rewrite HT.
  - intros y Hy Hty. unfold is_trigger in Hty. apply String.eqb_eq in Hty.
    rewrite Hfour in Hy. set_unfold.
    destruct Hy as [->|[->|[->|[->|[]]]]]; [done|..]; rewrite Hty in *;
      set_solver.
Qed.

Local Lemma diamond_neq :
  node_id nT ≠ node_id nA ∧ node_id nT ≠ node_id nB ∧ node_id nT ≠ node_id nC
  ∧ node_id nA ≠ node_id nB ∧ node_id nA ≠ node_id nC ∧ node_id nB ≠ node_id nC.
Proof.
  pose proof Hdistinct as H. rewrite !NoDup_cons in H. set_solver.
Qed.

Local Lemma diamond_adjacency :
  ∃ adj, buildAdjacencyMap nodes (Some edges) = Returns adj
         ∧ adj !! node_id nT = Some [node_id nA; node_id nB]
         ∧ adj !! node_id nA = Some [node_id nC]
         ∧ adj !! node_id nB = Some [node_id nC]
         ∧ adj !! node_id nC = Some [].
Proof.
  destruct diamond_neq as (? & ? & ? & ? & ? & ?).
  destruct (buildAdjacencyMap_returns nodes edges) as (adj & Hadj & Hlk).
  { intros e He. rewrite diamond_ids.
    pose proof (edge_sources _ _ _ Hdiamond He) as Hs. simpl in Hs. set_solver. }
  exists adj. split; [done|].
  assert (Hin : ∀ k, k ∈ [node_id nT; node_id nA; node_id nB; node_id nC] →
                     adj !! k = Some (targets_of k edges)
                     ∧ targets_of k edges ≡ₚ (filter (fun p => p.1 = k)
                          [(node_id nT, node_id nA); (node_id nT, node_id nB);
                           (node_id nA, node_id nC); (node_id nB, node_id nC)]).*2).
  { intros k Hk. rewrite Hlk, decide_True by (by rewrite diamond_ids).
    split; [done|]. by apply targets_of_perm. }
  repeat split.
  - destruct (Hin (node_id nT)) as (-> & _); [set_solver|]. by rewrite Horder.
  - destruct (Hin (node_id nA)) as (-> & Hl); [set_solver|].
    rewrite !filter_cons, filter_nil in Hl. simpl in Hl.
    rewrite !decide_False, decide_True, decide_False in Hl by done.
    by apply Permutation_singleton_r in Hl as ->.
  - destruct (Hin (node_id nB)) as (-> & Hl); [set_solver|].
    rewrite !filter_cons, filter_nil in Hl. simpl in Hl.
    rewrite !decide_False, decide_True in Hl by done.
    by apply Permutation_singleton_r in Hl as ->.
  - destruct (Hin (node_id nC)) as (-> & Hl); [set_solver|].
    rewrite !filter_cons, filter_nil in Hl. simpl in Hl.
    rewrite !decide_False in Hl by done.
    by apply Permutation_nil_r in Hl as ->.
Qed.

Local Lemma diamond_find n :
  n ∈ [nT; nA; nB; nC] → find_node nodes (node_id n) = Some n.
Proof.
  intros Hn. apply find_node_elem.
  - by rewrite diamond_ids.
  - by rewrite Hfour.
Qed.

Local Lemma diamond_known n : n ∈ [nT; nA; nB; nC] → known_type n.
Proof.
  unfold known_type. intros Hn. set_unfold.
  destruct Hn as [->|[->|[->|[->|[]]]]]; [rewrite HT; auto|..];
    [destruct HA as [->|[->|[->|[]]]]|destruct HB as [->|[->|[->|[]]]]
    |destruct HC as [->|[->|[->|[]]]]]; auto.
Qed.

Local Lemma diamond_walk fuel s :
  circular (executionData s) = false →
  ∃ adj et ea ec eb ec' s',
    buildAdjacencyMap nodes (Some edges) = Returns adj
    ∧ executeNode now (S (S (S fuel))) nT adj nodes s = Ok tt s'
    ∧ walked s s' [(node_id nT, et); (node_id nA, ea); (node_id nC, ec);
                   (node_id nB, eb); (node_id nC, ec')]
    ∧ timestamp ec = now (2 + ticks s) ∧ timestamp ec' = now (4 + ticks s)
    ∧ envelope_type ec' = node_type nC.
Proof.
  intros Hc0.
  destruct diamond_adjacency as (adj & Hadj & Ht & Ha & Hb & Hc).
  destruct (executeNode_enter now (S (S fuel)) nT adj nodes s)
    as (et & ? & s1 & _ & _ & Hty1 & Hts1 & Hh1 & Hw1 & He1).
  { apply diamond_known. set_solver. }
  { intros Hs. destruct (not_summarize nT); [by rewrite HT | done]. }
  rewrite not_passthrough in Hh1 by (by rewrite HT).
  pose proof Hw1 as (Hd1 & _ & Hk1 & _). simpl in Hd1, Hk1.
  assert (Hc1 : circular (executionData s1) = false).
  { rewrite Hd1. by apply circular_insert_false. }
  destruct (executeNode_enter now (S fuel) nA adj nodes s1)
    as (ea & ? & s2 & _ & _ & Hty2 & Hts2 & Hh2 & Hw2 & He2).
  { apply diamond_known. set_solver. }
  { done. }
  pose proof Hw2 as (Hd2 & _ & Hk2 & _). simpl in Hd2, Hk2.
  destruct (executeNode_enter now fuel nC adj nodes s2)
    as (ec & ? & s3 & _ & _ & Hty3 & Hts3 & Hh3 & Hw3 & He3).
  { apply diamond_known. set_solver. }
  { intros Hs. rewrite Hd2. apply circular_insert_false; [|done].
    rewrite Hh2. apply (HserC Hs). set_solver. }
  pose proof Hw3 as (Hd3 & _ & Hk3 & _). simpl in Hd3, Hk3.
  destruct (executeNode_enter now (S fuel) nB adj nodes s3)
    as (eb & ? & s4 & _ & _ & Hty4 & Hts4 & Hh4 & Hw4 & He4).
  { apply diamond_known. set_solver. }
  { intros Hs. rewrite Hd3, Hd2. repeat apply circular_insert_false; [..|done].
    - rewrite Hh3. apply (HserB Hs). set_solver.
    - rewrite Hh2. apply (HserB Hs). set_solver. }
  pose proof Hw4 as (Hd4 & _ & Hk4 & _). simpl in Hd4, Hk4.
  destruct (executeNode_enter now fuel nC adj nodes s4)
    as (ec' & ? & s5 & _ & _ & Hty5 & Hts5 & Hh5 & Hw5 & He5).
  { apply diamond_known. set_solver. }
  { intros Hs. rewrite Hd4, Hd3, Hd2. repeat apply circular_insert_false; [..|done].
    - rewrite Hh4. apply (HserC Hs). set_solver.
    - rewrite Hh3. by apply summarize_not_passthrough.
    - rewrite Hh2. apply (HserC Hs). set_solver. }
  rewrite (continue_traversal_ok now fuel nC adj nodes [] s3 s3 Hc eq_refl) in He3.
  rewrite (continue_traversal_ok now fuel nC adj nodes [] s5 s5 Hc eq_refl) in He5.
  erewrite continue_traversal_ok in He2; [|exact Ha|];
    [|eapply successors_loop_ok; [apply diamond_find; set_solver | exact He3 | reflexivity]].
  erewrite continue_traversal_ok in He4; [|exact Hb|];
    [|eapply successors_loop_ok; [apply diamond_find; set_solver | exact He5 | reflexivity]].
  erewrite continue_traversal_ok in He1; [|exact Ht|];
    [|eapply successors_loop_ok; [apply diamond_find; set_solver | exact He2 |];
      eapply successors_loop_ok; [apply diamond_find; set_solver | exact He4 | reflexivity]].
  exists adj, et, ea, ec, eb, ec', s5. split; [done|]. split; [done|].
  split.
  { apply (walked_app _ _ _ [_] [_; _; _; _] Hw1).
    apply (walked_app _ _ _ [_] [_; _; _] Hw2).
    apply (walked_app _ _ _ [_] [_; _] Hw3).
    apply (walked_app _ _ _ [_] [_] Hw4). exact Hw5. }
  rewrite Hts3, Hts5, Hty5. repeat split; f_equal; lia.
Qed.

(** C3 (amended) -- on a runnable diamond (the trigger leads to A and to B,
    in that order of the edge list, and both lead to C) whose nodes A, B, C
    are data, transform or action nodes, and in which no summarize
    transform is dispatched after a pass-through transform has written to
    the context, [executeWorkflow] resolves to a success.  C is entered
    once per incoming path, after A and again after B, and each time its
    entry is written anew: the final entry of C is the envelope of the
    second execution, the one reached through B. *)
Theorem diamond_run (fuel : nat) (s : State) :
  3 ≤ fuel →
  ∃ et ea ec eb ec' s',
    executeWorkflow now uuidv4 supabase fuel workflowId s
    = Ok (RunSuccess uuidv4 (executionData s')) s'
    ∧ visits (events_since s s')
      = [node_id nT; node_id nA; node_id nC; node_id nB; node_id nC]
    ∧ executionData s'
      = <[node_id nC := ec']> (<[node_id nB := eb]> (<[node_id nC := ec]>
          (<[node_id nA := ea]> (<[node_id nT := et]> ∅))))
    ∧ executionData s' !! node_id nC = Some ec'
    ∧ timestamp ec = now (3 + ticks s)
    ∧ timestamp ec' = now (5 + ticks s)
    ∧ envelope_type ec' = node_type nC.
Proof.
  intros Hfuel.
  destruct fuel as [|[|[|fuel]]]; try lia. clear Hfuel.
  set (s1 := set_executionData ∅ (logged (LogStart workflowId) (ticked s))).
  destruct (diamond_walk fuel s1 circular_empty)
    as (adj & et & ea & ec & eb & ec' & s2 & Hadj & Hexec & Hw & Hts & Hts' & Hty).
  rewrite (executeWorkflow_runnable _ _ _ _ _ _ _ _ diamond_runnable).
  cbv zeta. rewrite Hedges, Hadj. cbv beta iota. fold s1. rewrite Hexec.
  unfold run_completed.
  destruct Hw as (Hd & (evs & Hc & Hv) & Ht & Hx). simpl in Hd, Hc, Hv.
  destruct (persisted_advances supabase
              (completed_record now uuidv4 workflowId (ticks s) s2) s2)
    as (evs' & Hc' & He' & Hd' & _).
  exists et, ea, ec, eb, ec'.
  exists (logged (LogCompleted workflowId)
            (persisted supabase
               (completed_record now uuidv4 workflowId (ticks s) s2) s2)).
  split; [|split; [|split; [|split; [|split; [|split]]]]].
  - simpl. by rewrite Hd'.
  - rewrite (events_since_app s _ (LogStart workflowId :: evs ++ evs'
                                    ++ [LogCompleted workflowId])).
    + simpl. rewrite !visits_app, Hv. rewrite (visits_entered evs'), He'. done.
    + simpl. rewrite Hc', Hc. by rewrite <- !app_assoc.
  - simpl. by rewrite Hd', Hd.
  - simpl. rewrite Hd', Hd. apply lookup_insert_eq.
  - exact Hts.
  - exact Hts'.
  - exact Hty.
Qed.
End Diamond.

(** ** Termination of the walker *)

Lemma buildAdjacencyMap_Returns_inv nodes edges adj :
  buildAdjacencyMap nodes (Some edges) = Returns adj →
  ∀ k, adj !! k = if decide (k ∈ node_ids nodes)
                  then Some (targets_of k edges) else None.
Proof.
  intros Hb.
  destruct (decide (Forall (fun e => source_node_id e ∈ node_ids nodes) edges))
    as [Hall|Hex].
  - rewrite Forall_forall in Hall.
    destruct (buildAdjacencyMap_returns nodes edges) as (adj' & Hadj' & Hlk).
    { intros e He. by apply Hall. }
    rewrite Hb in Hadj'. by injection Hadj' as ->.
  - apply not_Forall_Exists in Hex; [|apply _].
    apply Exists_exists in Hex as (e & He & Hsrc).
    rewrite (buildAdjacencyMap_raises nodes edges e He Hsrc) in Hb. done.
Qed.

Lemma arc_edge_of nodes edges adj x y :
  buildAdjacencyMap nodes (Some edges) = Returns adj →
  arc adj x y → edge_of edges x y.
Proof.
  intros Hb (ks & Hks & Hy).
  rewrite (buildAdjacencyMap_Returns_inv _ _ _ Hb) in Hks.
  case_decide; [|done]. injection Hks as <-.
  unfold targets_of in Hy. apply list_elem_of_fmap in Hy as (e & -> & He).
  apply list_elem_of_filter in He as [Hs He]. by exists e.
Qed.

Lemma tc_arc_edge_of nodes edges adj x y :
  buildAdjacencyMap nodes (Some edges) = Returns adj →
  tc (arc adj) x y → tc (edge_of edges) x y.
Proof.
  intros Hb Htc. induction Htc as [x y H|x y z H _ IH].
  - apply tc_once. by eapply arc_edge_of.
  - eapply tc_l; [by eapply arc_edge_of | done].
Qed.

Lemma find_node_Some nodes k n :
  find_node nodes k = Some n → node_id n = k ∧ n ∈ nodes.
Proof.
  unfold find_node. intros [Hin Heq]%find_some.
  apply String.eqb_eq in Heq. by apply list_elem_of_In in Hin.
Qed.

Lemma find_node_resolves nodes k :
  k ∈ node_ids nodes → ∃ n, find_node nodes k = Some n ∧ node_id n = k.
Proof.
  intros (n & -> & Hn)%list_elem_of_fmap.
  destruct (find_node nodes (node_id n)) as [m|] eqn:Hf.
  - exists m. split; [done|]. by apply find_node_Some in Hf as [? _].
  - unfold find_node in Hf. apply list_elem_of_In in Hn.
    pose proof (find_none _ _ Hf n Hn) as H. simpl in H.
    by rewrite String.eqb_refl in H.
Qed.

Section Termination.
Variable now : nat -> Z.
Variable adj : gmap string (list string).
Variable nodes : list Node.

Lemma dispatch_not_exhausted node s s' : dispatch now node s ≠ Exhausted s'.
Proof.
  destruct (dispatch_cases now node s)
    as (evs & _ & [(e & -> & _)|[(-> & _)|(-> & _)]]); done.
Qed.

Lemma loop_not_exhausted fuel ks :
  (∀ k n s s', k ∈ ks → find_node nodes k = Some n →
               executeNode now fuel n adj nodes s ≠ Exhausted s') →
  ∀ s s', successors_loop now fuel adj nodes ks s ≠ Exhausted s'.
Proof.
  induction ks as [|k ks IH]; intros Hall s s'; [done|].
  rewrite successors_loop_cons.
  destruct (find_node nodes k) as [n|] eqn:Hf.
  - pose proof (Hall k n s) as Hn.
    destruct (executeNode now fuel n adj nodes s) as [[] s1|msg s1|s1].
    + apply IH. intros k' n' s0 s0' Hk'. apply Hall. by right.
    + done.
    + destruct (Hn s1); [by left | done | done].
  - apply IH. intros k' n' s0 s0' Hk'. apply Hall. by right.
Qed.

Lemma executeNode_S_not_exhausted fuel node :
  (∀ s s', successors_loop now fuel adj nodes
             (default [] (adj !! node_id node)) s ≠ Exhausted s') →
  ∀ s s', executeNode now (S fuel) node adj nodes s ≠ Exhausted s'.
Proof.
  intros Hloop s s'. rewrite executeNode_S.
  pose proof (dispatch_not_exhausted node (logged (LogExecuting node) s)) as Hd.
  destruct (dispatch now node (logged (LogExecuting node) s)) as [e s1|msg s1|s1];
    [|done|by destruct (Hd s1)].
  set (s2 := set_executionData _ _). pose proof (Hloop s2) as Hl.
  destruct (successors_loop now fuel adj nodes _ s2) as [[] s3|msg s3|s3];
    [done|done|by destruct (Hl s3)].
Qed.

Hypothesis Hacyclic : ∀ x, ¬ tc (arc adj) x x.

Lemma walk_terminates fuel : ∀ n anc s s',
  node_id n ∈ node_ids nodes →
  NoDup anc →
  (∀ a, a ∈ anc → a ∈ node_ids nodes ∧ tc (arc adj) a (node_id n)) →
  length (node_ids nodes) ≤ fuel + length anc →
  executeNode now fuel n adj nodes s ≠ Exhausted s'.
Proof.
  induction fuel as [|fuel IH]; intros n anc s s' Hn Hnd Hanc Hlen.
  - exfalso.
    assert (Hfresh : node_id n ∉ anc).
    { intros Hin. apply (Hacyclic (node_id n)). by apply Hanc. }
    assert (Hsub : node_id n :: anc ⊆+ node_ids nodes).
    { apply NoDup_submseteq; [by apply NoDup_cons|].
      intros x [->|Hx]%elem_of_cons; [done|]. by apply Hanc. }
    apply submseteq_length in Hsub. simpl in *. lia.
  - apply executeNode_S_not_exhausted. apply loop_not_exhausted.
    intros k m s0 s0' Hk Hf.
    apply find_node_Some in Hf as [<- Hm].
    assert (Harc : arc adj (node_id n) (node_id m)).
    { destruct (adj !! node_id n) as [ks|] eqn:Hks; [|by apply elem_of_nil in Hk].
      by exists ks. }
    apply (IH m (node_id n :: anc)).
    + apply list_elem_of_fmap. by exists m.
    + apply NoDup_cons. split; [|done].
      intros Hin. apply (Hacyclic (node_id n)). by apply Hanc.
    + intros a [->|Ha]%elem_of_cons.
      * split; [done | by apply tc_once].
      * destruct (Hanc a Ha) as [? Htc]. split; [done|]. by eapply tc_r.
    + simpl. lia.
Qed.
End Termination.

Section Cycles.
Variable now : nat -> Z.
Variable adj : gmap string (list string).
Variable nodes : list Node.

Lemma loop_ok_each fuel ks : ∀ s s',
  successors_loop now fuel adj nodes ks s = Ok tt s' →
  ∀ k n, k ∈ ks → find_node nodes k = Some n →
         ∃ s1 s1', executeNode now fuel n adj nodes s1 = Ok tt s1'.
Proof.
  induction ks as [|k0 ks IH]; intros s s' Hl k n Hk Hf;
    [by apply elem_of_nil in Hk|].
  rewrite successors_loop_cons in Hl.
  apply elem_of_cons in Hk as [->|Hk].
  - rewrite Hf in Hl.
    destruct (executeNode now fuel n adj nodes s) as [[] s1|msg s1|s1] eqn:He;
      [by exists s, s1 | done | done].
  - destruct (find_node nodes k0) as [n0|]; [|by eapply IH].
    destruct (executeNode now fuel n0 adj nodes s) as [[] s1|msg s1|s1];
      [by eapply IH | done | done].
Qed.

(** A call that ends normally has made a call, one level deeper, that ends
    normally, on every node it recurses into. *)
Lemma ok_descends fuel n s s' y :
  executeNode now fuel n adj nodes s = Ok tt s' →
  follows adj nodes (node_id n) y →
  ∃ fuel' m s1 s1', fuel' < fuel ∧ node_id m = y
                    ∧ executeNode now fuel' m adj nodes s1 = Ok tt s1'.
Proof.
  intros He [(ks & Hks & Hy) Hres].
  destruct fuel as [|fuel]; [done|].
  rewrite executeNode_S, Hks in He. simpl in He.
  destruct (dispatch now n (logged (LogExecuting n) s)) as [e s1|msg s1|s1]; [|done..].
  destruct (successors_loop now fuel adj nodes ks _) as [[] s2|msg s2|s2] eqn:Hl;
    [|done..].
  destruct (find_node_resolves nodes y Hres) as (m & Hf & Hm).
  destruct (loop_ok_each fuel ks _ _ Hl y m Hy Hf) as (s3 & s3' & Hok).
  exists fuel, m, s3, s3'. split; [lia|]. done.
Qed.

Lemma ok_descends_tc x y :
  tc (follows adj nodes) x y →
  ∀ fuel n s s', node_id n = x →
    executeNode now fuel n adj nodes s = Ok tt s' →
    ∃ fuel' m s1 s1', fuel' < fuel ∧ node_id m = y
                      ∧ executeNode now fuel' m adj nodes s1 = Ok tt s1'.
Proof.
  induction 1 as [x y H|x y z H _ IH]; intros fuel n s s' Hn He; subst x.
  - by eapply ok_descends.
  - destruct (ok_descends fuel n s s' y He H) as (f1 & m & s1 & s1' & Hlt & Hm & He1).
    destruct (IH f1 m s1 s1' Hm He1) as (f2 & m2 & s2 & s2' & Hlt2 & Hm2 & He2).
    exists f2, m2, s2, s2'. split; [lia|]. done.
Qed.

(** No call on a node of a cycle ends normally, whatever depth it is
    allowed. *)
Lemma cycle_never_ok c :
  tc (follows adj nodes) c c →
  ∀ fuel n s s', node_id n = c → executeNode now fuel n adj nodes s ≠ Ok tt s'.
Proof.
  intros Hcyc fuel. induction (lt_wf fuel) as [fuel _ IH].
  intros n s s' Hn He.
  destruct (ok_descends_tc c c Hcyc fuel n s s' Hn He)
    as (f1 & m & s1 & s1' & Hlt & Hm & He1).
  exact (IH f1 Hlt m s1 s1' Hm He1).
Qed.

Lemma reaches_cycle_never_ok start :
  reaches_cycle adj nodes (node_id start) →
  ∀ fuel s s', executeNode now fuel start adj nodes s ≠ Ok tt s'.
Proof.
  intros (c & Hreach & Hcyc) fuel s s' He.
  apply rtc_tc in Hreach as [Heq|Htc].
  - by apply (cycle_never_ok c Hcyc fuel start s s').
  - destruct (ok_descends_tc _ _ Htc fuel start s s' eq_refl He)
      as (f1 & m & s1 & s1' & _ & Hm & He1).
    by apply (cycle_never_ok c Hcyc f1 m s1 s1').
Qed.

Lemma quiet_never_throws fuel : ∀ n s msg s',
  quiet n → (∀ m, m ∈ nodes → quiet m) →
  executeNode now fuel n adj nodes s ≠ Throw msg s'.
Proof.
  induction fuel as [|fuel IH]; intros n s msg s' [Hk Hs] Hall; [done|].
  rewrite executeNode_S.
  destruct (dispatch_cases now n (logged (LogExecuting n) s))
    as (evs & _ & [(e & -> & _)|[(_ & Hn & _)|(_ & _ & Hsum & _)]]);
    [|done|congruence].
  set (s2 := set_executionData _ _).
  assert (Hloop : ∀ ks s0 msg0 s0',
    successors_loop now fuel adj nodes ks s0 ≠ Throw msg0 s0').
  { induction ks as [|k ks IHks]; intros s0 msg0 s0'; [done|].
    rewrite successors_loop_cons. destruct (find_node nodes k) as [m|] eqn:Hf; [|done].
    apply find_node_Some in Hf as [_ Hm].
    pose proof (IH m s0 msg0 s0' (Hall m Hm) Hall) as Hno.
    destruct (executeNode now fuel m adj nodes s0) as [[] s1|msg1 s1|s1]; [done| |done].
    intros [= -> ->]. done. }
  pose proof (Hloop (default [] (adj !! node_id n)) s2) as Hl.
  destruct (successors_loop now fuel adj nodes _ s2) as [[] s3|msg3 s3|s3];
    [done| |done].
  by destruct (Hl msg3 s3).
Qed.
End Cycles.

Section NoCycleDetection.
Variable now : nat -> Z.

(** C8 (amended) -- the walker keeps no record of the nodes it has entered.
    On a workflow whose edge set has no cycle the traversal terminates: a
    call depth of one more than the number of nodes is never exhausted.
    When the walker can reach a cycle from its start node, the traversal
    never ends normally; unless a handler throws on the way, it exhausts
    every call depth it is given. *)
Theorem walker_termination
    (nodes : list Node) (edges : list Edge) (adj : gmap string (list string))
    (start : Node) :
  buildAdjacencyMap nodes (Some edges) = Returns adj →
  (acyclic edges →
     ∀ fuel s s', length nodes < fuel →
       executeNode now fuel start adj nodes s ≠ Exhausted s')
  ∧ (reaches_cycle adj nodes (node_id start) →
     ∀ fuel s,
       (∀ s', executeNode now fuel start adj nodes s ≠ Ok tt s')
       ∧ ((∀ n, n ∈ start :: nodes → quiet n) →
          ∃ s', executeNode now fuel start adj nodes s = Exhausted s')).
Proof.
  intros Hb. split.
  - intros Hacyc fuel s s' Hfuel.
    assert (Hadj : ∀ x, ¬ tc (arc adj) x x).
    { intros x Hx. apply (Hacyc x). by eapply tc_arc_edge_of. }
    assert (Hlen : length (node_ids nodes) = length nodes)
      by (unfold node_ids; apply length_fmap).
    destruct (decide (node_id start ∈ node_ids nodes)) as [Hin|Hout].
    + apply (walk_terminates now adj nodes Hadj fuel start []); auto.
      * apply NoDup_nil_2.
      * by intros a ?%elem_of_nil.
      * simpl. lia.
    + destruct fuel as [|fuel]; [lia|].
      apply executeNode_S_not_exhausted. apply loop_not_exhausted.
      intros k m s0 s0' _ Hf. apply find_node_Some in Hf as [<- Hm].
      apply (walk_terminates now adj nodes Hadj fuel m []); auto.
      * apply list_elem_of_fmap. by exists m.
      * apply NoDup_nil_2.
      * by intros a ?%elem_of_nil.
      * simpl. lia.
  - intros Hcyc fuel s. split.
    + intros s'. by apply reaches_cycle_never_ok.
    + intros Hq.
      pose proof (reaches_cycle_never_ok now adj nodes start Hcyc fuel s) as Hok.
      pose proof (quiet_never_throws now adj nodes fuel start s) as Hthrow.
      destruct (executeNode now fuel start adj nodes s) as [[] s1|msg s1|s1].
      * by destruct (Hok s1).
      * destruct (Hthrow msg s1); [apply Hq; by left | | done].
        intros m Hm. apply Hq. by right.
      * by exists s1.
Qed.
End NoCycleDetection.

(** ** The execution context during a traversal *)

Section Accumulation.
Variable now : nat -> Z.

Lemma successors_loop_advances fuel adj nodes ks : ∀ s,
  ∃ evs, advances s (final_state (successors_loop now fuel adj nodes ks s)) evs.
Proof.
  induction ks as [|k ks IH]; intros s.
  - exists []. apply advances_refl.
  - rewrite successors_loop_cons. destruct (find_node nodes k) as [n|]; [|apply IH].
    destruct (executeNode_advances now fuel n adj nodes s) as (evs & Hadv).
    destruct (executeNode now fuel n adj nodes s) as [[] s1|msg s1|s1]; simpl in *;
      [|by eexists..].
    destruct (IH s1) as (evs' & Hadv'). eexists. by eapply advances_trans.
Qed.

(** After a call that ends normally every node entered has an entry. *)
Lemma executeNode_ok_written fuel : ∀ node adj nodes s s',
  executeNode now fuel node adj nodes s = Ok tt s' →
  ∀ k, k ∈ visits (events_since s s') → k ∈ dom (executionData s').
Proof.
  induction fuel as [|fuel IH]; intros node adj nodes s s' He; [done|].
  assert (Hloop : ∀ ks s0 s0',
    successors_loop now fuel adj nodes ks s0 = Ok tt s0' →
    ∀ k, k ∈ visits (events_since s0 s0') ∨ k ∈ dom (executionData s0) →
         k ∈ dom (executionData s0')).
  { induction ks as [|k0 ks IHks]; intros s0 s0' Hl k.
    - injection Hl as <-. unfold events_since. rewrite drop_all.
      by intros [?%elem_of_nil|?].
    - rewrite successors_loop_cons in Hl.
      destruct (find_node nodes k0) as [n|]; [|by eapply IHks].
      destruct (executeNode_advances now fuel n adj nodes s0) as (evs & Hadv).
      destruct (executeNode now fuel n adj nodes s0) as [[] s1|msg s1|s1] eqn:Hn;
        [|done..]. simpl in Hadv.
      pose proof (IH n adj nodes s0 s1 Hn) as Hw.
      destruct Hadv as (Hc & _ & _ & Hdom & _).
      rewrite (events_since_app _ _ _ Hc) in Hw.
      destruct (successors_loop_advances fuel adj nodes ks s1) as (evs1 & Hc1 & _).
      rewrite Hl in Hc1. cbn [final_state] in Hc1.
      rewrite (events_since_app s0 s0' (evs ++ evs1)) by (by rewrite Hc1, Hc, app_assoc).
      rewrite visits_app. intros [[Hk|Hk]%elem_of_app|Hk].
      + apply (IHks s1 s0' Hl). right. by apply Hw.
      + apply (IHks s1 s0' Hl). left. by rewrite (events_since_app _ _ _ Hc1).
      + apply (IHks s1 s0' Hl). right. by apply Hdom. }
  rewrite executeNode_S in He.
  destruct (dispatch_cases now node (logged (LogExecuting node) s))
    as (evs & Hv & [(e & Hd & _)|[(Hd & _)|(Hd & _)]]); rewrite Hd in He; [|done..].
  set (s2 := set_executionData _ _) in He.
  destruct (successors_loop now fuel adj nodes _ s2) as [[] s3|msg s3|s3] eqn:Hl;
    [|done..]. injection He as <-.
  pose proof (Hloop _ s2 s3 Hl) as Hw.
  assert (Hc2 : console s2 = console s ++ LogExecuting node :: evs).
  { unfold s2. simpl. by rewrite <- app_assoc. }
  destruct (successors_loop_advances fuel adj nodes
              (default [] (adj !! node_id node)) s2) as (evs3 & Hc3 & _).
  rewrite Hl in Hc3. cbn [final_state] in Hc3.
  rewrite (events_since_app s s3 ((LogExecuting node :: evs) ++ evs3))
    by (by rewrite Hc3, Hc2, app_assoc).
  assert (Hv1 : visits (LogExecuting node :: evs) = [node_id node]).
  { change (LogExecuting node :: evs) with ([LogExecuting node] ++ evs).
    by rewrite visits_app, Hv. }
  intros k. rewrite visits_app, Hv1.
  intros [Hk|Hk]%elem_of_app.
  - apply Hw. right. unfold s2. simpl. rewrite dom_insert_L.
    apply list_elem_of_singleton in Hk as ->. set_solver.
  - apply Hw. left. by rewrite (events_since_app _ _ _ Hc3).
Qed.

Lemma dispatch_keeps_context node s e sd :
  dispatch now node s = Ok e sd → executionData sd = executionData s.
Proof.
  intros Hd.
  destruct (dispatch_advances now node s) as (evs & (_ & _ & _ & _ & Hsame & _) & Hv).
  rewrite Hd in Hsame. simpl in Hsame. apply map_eq. intros k.
  apply Hsame. rewrite Hv. apply not_elem_of_nil.
Qed.

(** C4 (amended) -- during a traversal the context only accumulates: no key
    ever leaves it, every key it gains is the identifier of a node entered
    in between, the entries of the nodes not entered in between are left
    as they were, and when the traversal ends normally every node entered
    has an entry.  The entry of a node is written each time the node is
    entered and its handler returns, whether or not it had one before. *)
Theorem context_accumulates
    (fuel : nat) (node : Node) (adj : gmap string (list string))
    (nodes : list Node) (s : State) :
  let r := executeNode now fuel node adj nodes s in
  let s' := final_state r in
  dom (executionData s) ⊆ dom (executionData s')
  ∧ (∀ k, k ∈ dom (executionData s') →
          k ∈ dom (executionData s) ∨ k ∈ visits (events_since s s'))
  ∧ (∀ k, k ∉ visits (events_since s s') →
          executionData s' !! k = executionData s !! k)
  ∧ (r = Ok tt s' →
     ∀ k, k ∈ visits (events_since s s') → k ∈ dom (executionData s'))
  ∧ (∀ e sd, dispatch now node (logged (LogExecuting node) s) = Ok e sd →
       executeNode now (S fuel) node adj nodes s
       = continue_traversal now fuel node adj nodes
           (set_executionData (<[node_id node := e]> (executionData s)) sd)).
Proof.
  intros r s'. unfold s', r.
  destruct (executeNode_advances now fuel node adj nodes s)
    as (evs & Hc & _ & _ & Hdom & Hsame & Hnew).
  rewrite (events_since_app _ _ _ Hc).
  split; [done|]. split; [done|]. split; [done|]. split.
  - intros Hok k. rewrite <- (events_since_app _ _ _ Hc).
    by apply (executeNode_ok_written fuel node adj nodes s).
  - intros e sd Hd. rewrite (executeNode_continue now fuel node adj nodes s e sd Hd).
    by rewrite (dispatch_keeps_context _ _ _ _ Hd).
Qed.
End Accumulation.

(** ** The properties on the sample workflows *)

Example chain_sample_run :
  match executeWorkflow Sample.clock "run-1"
          (Sample.store Sample.chain_nodes Sample.chain_edges) 4 "wf-1" Sample.idle with
  | Ok (RunSuccess id data) s' =>
      id = "run-1" ∧ dom data = {["t"; "d"; "x"; "a"]}
      ∧ visits (console s') = ["t"; "d"; "x"; "a"]
  | _ => False
  end.
Proof. vm_compute. repeat split. Qed.

(** A rank that decreases along every edge rules out cycles. *)
Lemma ranked_acyclic (edges : list Edge) (rank : string → nat) :
  (∀ e, e ∈ edges → rank (target_node_id e) < rank (source_node_id e)) →
  acyclic edges.
Proof.
  intros Hrank x Hx.
  assert (Hlt : ∀ a b, tc (edge_of edges) a b → rank b < rank a).
  { intros a b Htc. induction Htc as [a b (e & He & <- & <-)|a b c (e & He & <- & <-) _ IH].
    - by apply Hrank.
    - specialize (Hrank e He). lia. }
  specialize (Hlt x x Hx). lia.
Qed.

Lemma linear_chain_run_witness :
  ∃ et ed ex ea s',
    executeWorkflow Sample.clock "run-1"
      (Sample.store Sample.chain_nodes Sample.chain_edges) 4 "wf-1" Sample.idle
    = Ok (RunSuccess "run-1" (executionData s')) s'
    ∧ visits (events_since Sample.idle s') = ["t"; "d"; "x"; "a"]
    ∧ executionData s'
      = <["a" := ea]> (<["x" := ex]> (<["d" := ed]> (<["t" := et]> ∅)))
    ∧ dom (executionData s') = {["t"; "d"; "x"; "a"]}
    ∧ size (executionData s') = 4
    ∧ envelope_type et = "trigger" ∧ envelope_type ed = "data"
    ∧ envelope_type ex = "transform" ∧ envelope_type ea = "action".
Proof.
  apply (linear_chain_run Sample.clock "run-1"
           (Sample.store Sample.chain_nodes Sample.chain_edges) "wf-1" Sample.workflow
           Sample.chain_nodes Sample.chain_edges
           Sample.trigger Sample.weather Sample.summary Sample.email);
    try reflexivity.
  - apply perm_swap.
  - simpl. apply (Permutation_cons_append [_; _]).
  - vm_compute. repeat constructor; set_solver.
Defined.

Lemma violated_precondition_fails_run_witness :
  let r := executeWorkflow Sample.clock "run-1"
             (Sample.store [Sample.weather; Sample.email] []) 4 "wf-1" Sample.idle in
  outcome_of r
  = Some (RunFailure "run-1" "No trigger node found. Workflow must start with a trigger")
  ∧ (∀ msg', violated (Sample.store [Sample.weather; Sample.email] []) "wf-1" msg' →
       msg' = "No trigger node found. Workflow must start with a trigger")
  ∧ entered (events_since Sample.idle (final_state r)) = []
  ∧ executionData (final_state r) = executionData Sample.idle
  ∧ (∀ record, record ∈ executions (final_state r) →
       record ∈ executions Sample.idle
       ∨ failed_row_of "run-1"
           "No trigger node found. Workflow must start with a trigger" record).
Proof.
  apply (violated_precondition_fails_run Sample.clock "run-1"
           (Sample.store [Sample.weather; Sample.email] []) 4 "wf-1" _ Sample.idle).
  apply (workflow_without_trigger _ _ Sample.workflow [Sample.weather; Sample.email]);
    try reflexivity; [done|].
  intros n Hn. apply elem_of_cons in Hn as [->|Hn]; [done|].
  apply elem_of_cons in Hn as [->|Hn]; [done|]. by apply elem_of_nil in Hn.
Defined.

(** A workflow without nodes has no trigger node, yet its run fails with the
    message of the check that comes first. *)
Lemma empty_workflow_counterexample :
  (∀ n : Node, n ∈ [] → node_type n ≠ "trigger")
  ∧ outcome_of (executeWorkflow Sample.clock "run-1" (Sample.store [] []) 4 "wf-1"
                  Sample.idle)
    = Some (RunFailure "run-1" "Workflow has no nodes")
  ∧ outcome_of (executeWorkflow Sample.clock "run-1" (Sample.store [] []) 4 "wf-1"
                  Sample.idle)
    ≠ Some (RunFailure "run-1"
              "No trigger node found. Workflow must start with a trigger").
Proof.
  split; [by intros n ?%elem_of_nil|]. split; [reflexivity|]. vm_compute. discriminate.
Qed.

Lemma diamond_run_witness :
  ∃ et ea ec eb ec' s',
    executeWorkflow Sample.clock "run-1"
      (Sample.store Sample.digest_diamond_nodes Sample.diamond_edges) 3 "wf-1"
      Sample.idle
    = Ok (RunSuccess "run-1" (executionData s')) s'
    ∧ visits (events_since Sample.idle s') = ["t"; "a"; "c"; "b"; "c"]
    ∧ executionData s'
      = <["c" := ec']> (<["b" := eb]> (<["c" := ec]> (<["a" := ea]> (<["t" := et]> ∅))))
    ∧ executionData s' !! "c" = Some ec'
    ∧ timestamp ec = 3%Z
    ∧ timestamp ec' = 5%Z
    ∧ envelope_type ec' = "transform".
Proof.
  apply (diamond_run Sample.clock "run-1"
           (Sample.store Sample.digest_diamond_nodes Sample.diamond_edges) "wf-1"
           Sample.workflow Sample.digest_diamond_nodes Sample.diamond_edges
           Sample.trigger Sample.calendar Sample.github Sample.digest);
    try reflexivity.
  - vm_compute. repeat constructor; set_solver.
  - simpl. set_solver.
  - simpl. set_solver.
  - simpl. set_solver.
  - intros _ m Hm.
    repeat (apply elem_of_cons in Hm as [->|Hm]; [reflexivity|]).
    by apply elem_of_nil in Hm.
  - intros H. vm_compute in H. discriminate.
Defined.

(** Two diamonds whose runs fail.  In the first a node has a category the
    dispatch does not know.  In the second every category is recognised: the
    filter transform stores the context in its own entry, and the summarize
    transform after it cannot serialise the context. *)
Lemma failing_diamond_counterexample :
  endpoints <$> Sample.diamond_edges = [("t", "a"); ("t", "b"); ("a", "c"); ("b", "c")]
  ∧ outcome_of (executeWorkflow Sample.clock "run-1"
                  (Sample.store Sample.hooked_diamond_nodes Sample.diamond_edges)
                  3 "wf-1" Sample.idle)
    = Some (RunFailure "run-1" "Unknown node type: webhook")
  ∧ Forall known_type Sample.filtered_diamond_nodes
  ∧ outcome_of (executeWorkflow Sample.clock "run-1"
                  (Sample.store Sample.filtered_diamond_nodes Sample.diamond_edges)
                  3 "wf-1" Sample.idle)
    = Some (RunFailure "run-1" msg_circular).
Proof.
  split; [reflexivity|]. split; [reflexivity|]. split.
  { unfold known_type. repeat constructor; simpl; set_solver. }
  reflexivity.
Qed.

(** In the diamond of data nodes the entry of the join node is written in the
    first iteration of the trigger's loop and written again, with another
    envelope, in the second. *)
Lemma entry_rewritten_counterexample :
  let adj := Sample.adjacency Sample.diamond_nodes Sample.diamond_edges in
  ∃ s1 s2 s3 e e',
    executeNode Sample.clock 3 Sample.trigger adj Sample.diamond_nodes Sample.idle
    = continue_traversal Sample.clock 2 Sample.trigger adj Sample.diamond_nodes s1
    ∧ adj !! "t" = Some ["a"; "b"]
    ∧ executeNode Sample.clock 2 Sample.calendar adj Sample.diamond_nodes s1 = Ok tt s2
    ∧ executeNode Sample.clock 2 Sample.github adj Sample.diamond_nodes s2 = Ok tt s3
    ∧ executeNode Sample.clock 3 Sample.trigger adj Sample.diamond_nodes Sample.idle
      = Ok tt s3
    ∧ executionData s2 !! "c" = Some e
    ∧ executionData s3 !! "c" = Some e'
    ∧ e ≠ e'.
Proof.
  intros adj.
  destruct (executeNode Sample.clock 2 Sample.calendar adj Sample.diamond_nodes
              (set_executionData
                 (<["t" := ETrigger 0 ∅]> ∅)
                 (ticked (logged (LogTrigger (JStr "scheduled"))
                            (logged (LogExecuting Sample.trigger) Sample.idle)))))
    as [[] s2|msg s2|s2] eqn:H2; [|by vm_compute in H2..].
  destruct (executeNode Sample.clock 2 Sample.github adj Sample.diamond_nodes s2)
    as [[] s3|msg s3|s3] eqn:H3.
  2,3: by (vm_compute in H2; injection H2 as <-; vm_compute in H3).
  eexists _, s2, s3, _, _.
  split; [apply executeNode_continue; reflexivity|].
  split; [reflexivity|]. split; [exact H2|]. split; [exact H3|].
  vm_compute in H2. injection H2 as <-. vm_compute in H3. injection H3 as <-.
  split; [reflexivity|]. split; [reflexivity|]. split; [reflexivity|].
  vm_compute. discriminate.
Qed.

(** C5 -- the adjacency builder read against its contract on an edge whose
    source is the identifier of no node: [map[edge.source_node_id]] is
    [undefined] and the call of [push] throws, where the contract promises a
    map.  The run of such a workflow fails with the message of that
    [TypeError]; so does a run whose edge query resolved to [null], which
    the source does not test for as it does for the nodes.  An edge whose
    target is missing is taken without complaint. *)
Theorem dangling_source_throws :
  buildAdjacencyMap [Sample.trigger] (Some Sample.dangling_edges)
  = Raises msg_push_of_undefined
  ∧ buildAdjacencyMap [Sample.trigger] None = Raises msg_forEach_of_null
  ∧ outcome_of (executeWorkflow Sample.clock "run-1"
                  (Sample.store [Sample.trigger] Sample.dangling_edges) 4 "wf-1"
                  Sample.idle)
    = Some (RunFailure "run-1" msg_push_of_undefined)
  ∧ buildAdjacencyMap [Sample.trigger] (Some [Sample.edge "t" "ghost"])
    = Returns {["t" := ["ghost"]]}.
Proof. repeat split; reflexivity. Qed.

Lemma unknown_category_fails_run_witness :
  let r := executeWorkflow Sample.clock "run-1"
             (Sample.store [Sample.trigger; Sample.webhook] [Sample.edge "t" "h"])
             4 "wf-1" Sample.idle in
  outcome_of r = Some (RunFailure "run-1" "Unknown node type: webhook")
  ∧ last (entered (events_since Sample.idle (final_state r))) = Some Sample.webhook
  ∧ (∀ record, record ∈ executions (final_state r) →
       record ∈ executions Sample.idle
       ∨ failed_row_of "run-1" "Unknown node type: webhook" record).
Proof.
  apply (unknown_category_fails_run Sample.clock "run-1"
           (Sample.store [Sample.trigger; Sample.webhook] [Sample.edge "t" "h"])
           4 "wf-1" Sample.idle Sample.webhook).
  - vm_compute. apply list_elem_of_further, list_elem_of_here.
  - unfold known_type. simpl. intros H.
    repeat (apply elem_of_cons in H as [H|H]; [discriminate|]).
    by apply elem_of_nil in H.
Defined.

Lemma weather_stub_envelope_witness :
  dispatch Sample.clock Sample.weather Sample.idle
  = executeDataNode Sample.clock Sample.weather Sample.idle
  ∧ executeDataNode Sample.clock Sample.weather Sample.idle
    = Ok (EData (Some (JStr "weather"))
                (JObj [("temp", JNum 72); ("condition", JStr "Sunny")]) 0)
         (ticked (logged (LogFetching (JStr "weather")) Sample.idle)).
Proof.
  exact (weather_stub_envelope Sample.clock Sample.weather Sample.idle eq_refl eq_refl).
Defined.

Lemma unrecognised_subtype_continues_witness :
  let ex := ETransform (Some (JStr "uppercase")) [("transformed", MContext)] 0 in
  let ea := EAction None [("message", MJson (Some (JStr "Action not configured")))] 0 in
  executeTransform Sample.clock Sample.odd_transform Sample.idle
  = Ok ex (ticked (logged (LogTransforming (JStr "uppercase")) Sample.idle))
  ∧ executeAction Sample.clock Sample.odd_action Sample.idle
    = Ok ea (ticked (logged (LogAction (JStr "unknown")) Sample.idle))
  ∧ executeNode Sample.clock 2 Sample.odd_transform
      {["x" := ["a"]; "a" := []]} [Sample.odd_transform; Sample.odd_action] Sample.idle
    = continue_traversal Sample.clock 1 Sample.odd_transform
        {["x" := ["a"]; "a" := []]} [Sample.odd_transform; Sample.odd_action]
        (set_executionData (<["x" := ex]> ∅)
           (ticked (logged (LogTransforming (JStr "uppercase"))
                      (logged (LogExecuting Sample.odd_transform) Sample.idle))))
  ∧ executeNode Sample.clock 2 Sample.odd_action
      {["x" := ["a"]; "a" := []]} [Sample.odd_transform; Sample.odd_action] Sample.idle
    = continue_traversal Sample.clock 1 Sample.odd_action
        {["x" := ["a"]; "a" := []]} [Sample.odd_transform; Sample.odd_action]
        (set_executionData (<["a" := ea]> ∅)
           (ticked (logged (LogAction (JStr "unknown"))
                      (logged (LogExecuting Sample.odd_action) Sample.idle)))).
Proof.
  apply (unrecognised_subtype_continues Sample.clock 1
           {["x" := ["a"]; "a" := []]} [Sample.odd_transform; Sample.odd_action]
           Sample.odd_transform Sample.odd_action Sample.idle);
    try reflexivity.
  - vm_compute. intros H.
    repeat (apply elem_of_cons in H as [H|H]; [discriminate|]).
    by apply elem_of_nil in H.
  - vm_compute. intros H.
    repeat (apply elem_of_cons in H as [H|H]; [discriminate|]).
    by apply elem_of_nil in H.
Defined.

Lemma walker_termination_witness :
  (∀ fuel s s', 4 < fuel →
     executeNode Sample.clock fuel Sample.trigger
       (Sample.adjacency Sample.chain_nodes Sample.chain_edges) Sample.chain_nodes s
     ≠ Exhausted s')
  ∧ (∀ fuel s,
       (∀ s', executeNode Sample.clock fuel Sample.trigger
                (Sample.adjacency Sample.loop_nodes Sample.loop_edges)
                Sample.loop_nodes s ≠ Ok tt s')
       ∧ ∃ s', executeNode Sample.clock fuel Sample.trigger
                 (Sample.adjacency Sample.loop_nodes Sample.loop_edges)
                 Sample.loop_nodes s = Exhausted s').
Proof.
  split.
  - apply (proj1 (walker_termination Sample.clock Sample.chain_nodes Sample.chain_edges
                    (Sample.adjacency Sample.chain_nodes Sample.chain_edges)
                    Sample.trigger eq_refl)).
    apply (ranked_acyclic _ Sample.chain_rank). intros e He.
    repeat (apply elem_of_cons in He as [->|He]; [vm_compute; lia|]).
    by apply elem_of_nil in He.
  - intros fuel s.
    destruct (proj2 (walker_termination Sample.clock Sample.loop_nodes Sample.loop_edges
                       (Sample.adjacency Sample.loop_nodes Sample.loop_edges)
                       Sample.trigger eq_refl)) with (fuel := fuel) (s := s)
      as [Hnever Hexhausts].
    { exists "t". split; [apply rtc_refl|].
      apply tc_l with "a"; [|apply tc_once].
      - split; [exists ["a"]; split; [reflexivity|apply list_elem_of_here]|].
        apply list_elem_of_further, list_elem_of_here.
      - split; [exists ["t"]; split; [reflexivity|apply list_elem_of_here]|].
        apply list_elem_of_here. }
    split; [exact Hnever|]. apply Hexhausts.
    intros n Hn. unfold quiet, known_type.
    repeat (apply elem_of_cons in Hn as [->|Hn];
            [split; [simpl; set_solver | reflexivity]|]).
    by apply elem_of_nil in Hn.
Defined.

(** A workflow whose edge set has a cycle and whose traversal terminates:
    no edge leads from the trigger to the cycle. *)
Lemma unreached_cycle_counterexample :
  ¬ acyclic Sample.island_edges
  ∧ outcome_of (executeWorkflow Sample.clock "run-1"
                  (Sample.store Sample.island_nodes Sample.island_edges) 1 "wf-1"
                  Sample.idle)
    = Some (RunSuccess "run-1" {["t" := ETrigger 1 ∅]}).
Proof.
  split; [|reflexivity].
  intros H. apply (H "a").
  apply tc_l with "b"; [|apply tc_once].
  - exists (Sample.edge "a" "b"). split; [apply list_elem_of_here | done].
  - exists (Sample.edge "b" "a").
    split; [apply list_elem_of_further, list_elem_of_here | done].
Qed.

(** * Further properties of the engine and of its callers *)

Lemma find_node_None nodes k : k ∉ node_ids nodes → find_node nodes k = None.
Proof.
  intros Hk. destruct (find_node nodes k) as [n|] eqn:Hf; [|done].
  apply find_node_Some in Hf as [<- Hn]. destruct Hk.
  apply list_elem_of_fmap. by exists n.
Qed.

Lemma targets_of_resolvable nodes edges k :
  targets_of k (resolvable_edges nodes edges)
  = filter (fun y => y ∈ node_ids nodes) (targets_of k edges).
Proof.
  unfold targets_of, resolvable_edges.
  induction edges as [|e edges IH]; [done|].
  rewrite !filter_cons. destruct (decide (target_node_id e ∈ node_ids nodes)) as [Ht|Ht];
    destruct (decide (source_node_id e = k)) as [Hs|Hs]; simpl;
    rewrite ?filter_cons, ?decide_True, ?decide_False by done; simpl;
    rewrite ?filter_cons, ?decide_True, ?decide_False by done; by rewrite IH.
Qed.

Section Skipping.
Variable now : nat -> Z.
Variable nodes : list Node.
Variables adj adj' : gmap string (list string).
Hypothesis Hadj : ∀ k, adj' !! k = filter (fun y => y ∈ node_ids nodes) <$> adj !! k.

Lemma successors_loop_resolvable fuel ks s :
  successors_loop now fuel adj nodes (filter (fun y => y ∈ node_ids nodes) ks) s
  = successors_loop now fuel adj nodes ks s.
Proof.
  revert s. induction ks as [|k ks IH]; intros s; [done|].
  rewrite filter_cons. destruct (decide (k ∈ node_ids nodes)) as [Hk|Hk].
  - rewrite !successors_loop_cons. destruct (find_node nodes k); [|apply IH].
    destruct (executeNode now fuel n adj nodes s) as [[] s1|msg s1|s1]; [apply IH|done..].
  - rewrite (successors_loop_cons _ _ _ _ k ks), (find_node_None _ _ Hk). apply IH.
Qed.

Lemma executeNode_resolvable fuel : ∀ node s,
  executeNode now fuel node adj' nodes s = executeNode now fuel node adj nodes s.
Proof.
  induction fuel as [|fuel IH]; intros node s; [done|].
  assert (Hloop : ∀ ks s0, successors_loop now fuel adj' nodes ks s0
                           = successors_loop now fuel adj nodes ks s0).
  { induction ks as [|k ks IHks]; intros s0; [done|].
    rewrite !successors_loop_cons. destruct (find_node nodes k) as [n|]; [|apply IHks].
    rewrite IH. destruct (executeNode now fuel n adj nodes s0) as [[] s1|msg s1|s1];
      [apply IHks|done..]. }
  rewrite !executeNode_S.
  destruct (dispatch now node (logged (LogExecuting node) s)) as [e s2|msg s2|s2];
    [|done..].
  rewrite Hadj, Hloop. destruct (adj !! node_id node) as [ks|]; simpl; [|done].
  by rewrite successors_loop_resolvable.
Qed.
End Skipping.

Section Builder.
Variable now : nat -> Z.

(** X1 -- an edge whose target is the identifier of no node has no effect on a
    traversal: the walker behaves on the adjacency map of all the edges as on
    the map of the edges with a resolvable target. *)
Theorem dangling_targets_ignored
    (nodes : list Node) (edges : list Edge) (adj : gmap string (list string)) :
  buildAdjacencyMap nodes (Some edges) = Returns adj →
  ∃ adj', buildAdjacencyMap nodes (Some (resolvable_edges nodes edges)) = Returns adj'
          ∧ ∀ fuel start s, executeNode now fuel start adj nodes s
                            = executeNode now fuel start adj' nodes s.
Proof.
  intros Hb. pose proof (buildAdjacencyMap_Returns_inv _ _ _ Hb) as Hlk.
  destruct (buildAdjacencyMap_returns nodes (resolvable_edges nodes edges))
    as (adj' & Hb' & Hlk').
  { intros e [_ He]%list_elem_of_filter.
    destruct (decide (source_node_id e ∈ node_ids nodes)) as [|Hs]; [done|].
    by rewrite (buildAdjacencyMap_raises nodes edges e He Hs) in Hb. }
  exists adj'. split; [done|]. intros fuel start s. symmetry.
  apply executeNode_resolvable. intros k. rewrite Hlk', Hlk.
  case_decide; simpl; [|done]. by rewrite targets_of_resolvable.
Qed.

(** X2 -- the adjacency builder throws exactly when some edge leaves an
    identifier that no node has, and then with the [TypeError] of [push];
    otherwise it returns a map whose keys are the node identifiers, each with
    the targets of its edges in the order of the edge list. *)
Theorem adjacency_builder_contract (nodes : list Node) (edges : list Edge) :
  (buildAdjacencyMap nodes (Some edges) = Raises msg_push_of_undefined
   ↔ ∃ e, e ∈ edges ∧ source_node_id e ∉ node_ids nodes)
  ∧ (∀ msg, buildAdjacencyMap nodes (Some edges) = Raises msg →
            msg = msg_push_of_undefined)
  ∧ (∀ adj, buildAdjacencyMap nodes (Some edges) = Returns adj →
       dom adj = list_to_set (node_ids nodes)
       ∧ ∀ k, k ∈ node_ids nodes → adj !! k = Some (targets_of k edges)).
Proof.
  assert (Hcases : (∃ e, e ∈ edges ∧ source_node_id e ∉ node_ids nodes)
                   ∨ ∀ e, e ∈ edges → source_node_id e ∈ node_ids nodes).
  { destruct (decide (Forall (fun e => source_node_id e ∈ node_ids nodes) edges))
      as [Hall|Hex].
    - right. by apply Forall_forall.
    - left. apply not_Forall_Exists in Hex; [|apply _].
      by apply Exists_exists in Hex. }
  split; [|split].
  - split; [|intros (e & He & Hs); by eapply buildAdjacencyMap_raises].
    intros Hr. destruct Hcases as [|Hall]; [done|].
    destruct (buildAdjacencyMap_returns nodes edges Hall) as (adj & Hadj & _).
    congruence.
  - intros msg Hr. destruct Hcases as [(e & He & Hs)|Hall].
    + rewrite (buildAdjacencyMap_raises nodes edges e He Hs) in Hr. congruence.
    + destruct (buildAdjacencyMap_returns nodes edges Hall) as (adj & Hadj & _).
      congruence.
  - intros adj Hb. pose proof (buildAdjacencyMap_Returns_inv _ _ _ Hb) as Hlk. split.
    + apply set_eq. intros k. rewrite elem_of_dom, Hlk, elem_of_list_to_set.
      case_decide; [by split; eauto|]. split; [by intros [? ?]|done].
    + intros k Hk. by rewrite Hlk, decide_True.
Qed.
End Builder.

Section Order.
Variable now : nat -> Z.
Variable adj : gmap string (list string).
Variable nodes : list Node.

Lemma walk_console fuel node s :
  ∃ evs, console (final_state (executeNode now fuel node adj nodes s)) = console s ++ evs.
Proof. destruct (executeNode_advances now fuel node adj nodes s) as (evs & H & _). eauto. Qed.

Lemma loop_console fuel ks s :
  ∃ evs, console (final_state (successors_loop now fuel adj nodes ks s)) = console s ++ evs.
Proof. destruct (successors_loop_advances now fuel adj nodes ks s) as (evs & H & _). eauto. Qed.

Lemma events_since_trans s1 s2 s3 :
  (∃ evs, console s2 = console s1 ++ evs) → (∃ evs, console s3 = console s2 ++ evs) →
  events_since s1 s3 = events_since s1 s2 ++ events_since s2 s3.
Proof.
  intros (e1 & H1) (e2 & H2).
  rewrite (events_since_app s1 s2 e1 H1), (events_since_app s2 s3 e2 H2).
  apply events_since_app. by rewrite H2, H1, app_assoc.
Qed.

(** The identifiers entered by a traversal, whatever its result, are an
    initial segment of the pre-order; all of it when the traversal ends
    normally. *)
Lemma executeNode_preorder fuel : ∀ node s,
  let r := executeNode now fuel node adj nodes s in
  visits (events_since s (final_state r)) `prefix_of` preorder fuel adj nodes node
  ∧ (∀ s', r = Ok tt s' →
       visits (events_since s s') = preorder fuel adj nodes node).
Proof.
  induction fuel as [|fuel IH]; intros node s r.
  { unfold r. simpl. unfold events_since. rewrite drop_all. split; [apply prefix_nil|done]. }
  assert (Hloop : ∀ ks s0,
    let r0 := successors_loop now fuel adj nodes ks s0 in
    visits (events_since s0 (final_state r0)) `prefix_of` successors_preorder fuel adj nodes ks
    ∧ (∀ s0', r0 = Ok tt s0' →
         visits (events_since s0 s0') = successors_preorder fuel adj nodes ks)).
  { induction ks as [|k ks IHks]; intros s0 r0; unfold r0.
    - simpl. unfold events_since. rewrite drop_all. split; [apply prefix_nil|].
      intros ? [= <-]. by rewrite drop_all.
    - rewrite successors_loop_cons. unfold successors_preorder. simpl.
      destruct (find_node nodes k) as [n|]; [|apply IHks].
      destruct (IH n s0) as [Hpre Hok]. destruct (walk_console fuel n s0) as (evs & Hc).
      destruct (executeNode now fuel n adj nodes s0) as [[] s1|msg s1|s1]; simpl in *.
      + destruct (IHks s1) as [Hpre' Hok']. destruct (loop_console fuel ks s1) as (evs' & Hc').
        rewrite (events_since_trans s0 s1) by eauto.
        rewrite visits_app, (Hok s1 eq_refl). split.
        * by apply prefix_app.
        * intros s0' Heq. rewrite Heq in *. simpl in *.
          rewrite (events_since_trans s0 s1) by eauto.
          by rewrite visits_app, (Hok s1 eq_refl), (Hok' s0' eq_refl).
      + split; [|done]. by apply prefix_app_r.
      + split; [|done]. by apply prefix_app_r. }
  unfold r. rewrite executeNode_S. simpl.
  destruct (dispatch_cases now node (logged (LogExecuting node) s))
    as (evs & Hv & [(e & Hd & _)|[(Hd & _ & ->)|(Hd & _)]]); rewrite Hd.
  - set (s2 := set_executionData _ _).
    assert (Hc2 : console s2 = console s ++ LogExecuting node :: evs).
    { unfold s2. simpl. by rewrite <- app_assoc. }
    assert (Hv2 : visits (events_since s s2) = [node_id node]).
    { rewrite (events_since_app _ _ _ Hc2).
      change (LogExecuting node :: evs) with ([LogExecuting node] ++ evs).
      by rewrite visits_app, Hv. }
    destruct (Hloop (default [] (adj !! node_id node)) s2) as [Hpre Hok].
    destruct (loop_console fuel (default [] (adj !! node_id node)) s2) as (evs' & Hc').
    fold (successors_preorder fuel adj nodes (default [] (adj !! node_id node))).
    destruct (successors_loop now fuel adj nodes _ s2) as [[] s3|msg s3|s3]; simpl in *.
    + rewrite (events_since_trans s s2 s3) by eauto. rewrite visits_app, Hv2. simpl.
      split; [by apply prefix_cons|]. intros s' [= <-].
      rewrite (events_since_trans s s2 s3) by eauto.
      by rewrite visits_app, Hv2, (Hok s3 eq_refl).
    + split; [|done].
      assert (Hc3 : ∃ evs3, console (logged (LogNodeError (node_id node) msg) s3)
                            = console s3 ++ evs3) by (by eexists).
      rewrite (events_since_trans s s3) by (try done; rewrite Hc', Hc2, <- app_assoc; eauto).
      rewrite (events_since_trans s s2 s3) by eauto.
      rewrite !visits_app, Hv2.
      rewrite (events_since_app s3 _ [LogNodeError (node_id node) msg]) by done.
      simpl. rewrite app_nil_r. by apply prefix_cons.
    + split; [|done]. rewrite (events_since_trans s s2 s3) by eauto.
      rewrite visits_app, Hv2. simpl. by apply prefix_cons.
  - split; [|done].
    rewrite (events_since_app s _ [LogExecuting node;
               LogNodeError (node_id node) (unknown_type_message node)]).
    + simpl. apply prefix_cons, prefix_nil.
    + simpl. by rewrite <- app_assoc.
  - split; [|done].
    rewrite (events_since_app s _ ((LogExecuting node :: evs)
               ++ [LogNodeError (node_id node) msg_circular])).
    + change (LogExecuting node :: evs) with ([LogExecuting node] ++ evs).
      rewrite !visits_app, Hv. simpl. apply prefix_cons, prefix_nil.
    + simpl. by rewrite <- !app_assoc.
Qed.
End Order.

Section Reach.
Variable now : nat -> Z.
Variable adj : gmap string (list string).
Variable nodes : list Node.

Lemma preorder_reachable fuel : ∀ node k,
  k ∈ preorder fuel adj nodes node → rtc (follows adj nodes) (node_id node) k.
Proof.
  induction fuel as [|fuel IH]; intros node k; [by intros ?%elem_of_nil|].
  simpl. intros [->|Hk]%elem_of_cons; [apply rtc_refl|].
  apply list_elem_of_In, in_flat_map in Hk as (y & Hy & Hk).
  apply list_elem_of_In in Hy, Hk.
  destruct (find_node nodes y) as [m|] eqn:Hf; [|by apply elem_of_nil in Hk].
  apply find_node_Some in Hf as [<- Hm].
  eapply rtc_l; [|by apply IH]. split.
  - destruct (adj !! node_id node) as [ks|] eqn:Hks; simpl in Hy;
      [by exists ks | by apply elem_of_nil in Hy].
  - apply list_elem_of_fmap. by exists m.
Qed.

Lemma ok_preorder_complete fuel : ∀ node s s' k,
  executeNode now fuel node adj nodes s = Ok tt s' →
  rtc (follows adj nodes) (node_id node) k →
  k ∈ preorder fuel adj nodes node.
Proof.
  induction fuel as [|fuel IH]; intros node s s' k He Hr; [done|].
  simpl. apply rtc_inv in Hr as [->|(y & [(ks & Hks & Hy) Hres] & Hr)]; [by left|].
  right. rewrite executeNode_S, Hks in He. simpl in He.
  destruct (dispatch now node (logged (LogExecuting node) s)) as [e s1|msg s1|s1]; [|done..].
  destruct (successors_loop now fuel adj nodes ks _) as [[] s2|msg s2|s2] eqn:Hl; [|done..].
  destruct (find_node_resolves nodes y Hres) as (m & Hf & Hm).
  destruct (loop_ok_each now adj nodes fuel ks _ _ Hl y m Hy Hf) as (s3 & s3' & Hok).
  rewrite Hks. simpl. apply list_elem_of_In, in_flat_map. exists y.
  split; [by apply list_elem_of_In|]. rewrite Hf. apply list_elem_of_In.
  apply (IH m s3 s3'); [done|]. by rewrite Hm.
Qed.
End Reach.

Section RunOrder.
Variable now : nat -> Z.
Variable uuidv4 : string.
Variable supabase : Store.

(** A run of a runnable workflow, by its traversal. *)
Lemma run_by_traversal fuel workflowId nodes trigger adj s :
  runnable supabase workflowId nodes trigger →
  buildAdjacencyMap nodes (select_edges supabase workflowId) = Returns adj →
  let s1 := set_executionData ∅ (logged (LogStart workflowId) (ticked s)) in
  let r0 := executeNode now fuel trigger adj nodes s1 in
  let r := executeWorkflow now uuidv4 supabase fuel workflowId s in
  visits (events_since s (final_state r)) = visits (events_since s1 (final_state r0))
  ∧ (∀ id data, outcome_of r = Some (RunSuccess id data) →
       id = uuidv4 ∧ r0 = Ok tt (final_state r0) ∧ data = executionData (final_state r0))
  ∧ (∀ id msg, outcome_of r = Some (RunFailure id msg) →
       id = uuidv4 ∧ r0 = Throw msg (final_state r0)).
Proof.
  intros Hr Hb s1 r0 r. unfold r.
  rewrite (executeWorkflow_runnable _ _ _ _ _ _ _ _ Hr). cbv zeta. rewrite Hb.
  cbv beta iota. fold s1. fold r0.
  destruct (walk_console now adj nodes fuel trigger s1) as (evs & Hc). fold r0 in Hc.
  assert (Hs1 : console s1 = console s ++ [LogStart workflowId]) by done.
  destruct r0 as [[] s2|msg s2|s2] eqn:Hr0; simpl in Hc |- *.
  - destruct (persisted_advances supabase
                (completed_record now uuidv4 workflowId (ticks s) s2) s2)
      as (evs' & Hc' & He' & _).
    split; [|split; [by intros id data [= <- <-]|done]].
    rewrite (events_since_app s _ ([LogStart workflowId] ++ evs ++ evs'
                                     ++ [LogCompleted workflowId])).
    + rewrite (events_since_app s1 s2 evs Hc), !visits_app, (visits_entered evs'), He'.
      simpl. by rewrite app_nil_r.
    + simpl. rewrite Hc', Hc, ?Hs1. simpl. by rewrite <- !app_assoc.
  - destruct (persisted_advances supabase
                (failed_record now uuidv4 workflowId msg (ticks s) s2)
                (logged (LogFailed msg) s2))
      as (evs' & Hc' & He' & _).
    split; [|split; [done|by intros id msg' [= <- <-]]].
    rewrite (events_since_app s _ ([LogStart workflowId] ++ evs ++ [LogFailed msg] ++ evs')).
    + rewrite (events_since_app s1 s2 evs Hc), !visits_app, (visits_entered evs'), He'.
      simpl. by rewrite app_nil_r.
    + rewrite Hc'. simpl. rewrite Hc, ?Hs1. simpl. by rewrite <- !app_assoc.
  - split; [|done].
    rewrite (events_since_app s _ ([LogStart workflowId] ++ evs)).
    + by rewrite (events_since_app s1 s2 evs Hc), !visits_app.
    + rewrite Hc, ?Hs1. simpl. by rewrite <- !app_assoc.
Qed.

(** X3 -- a run enters the nodes in depth-first pre-order from the trigger,
    successors in the order of their edges, a node with several incoming
    paths once per path: what a run has entered is always an initial segment
    of that order, and all of it when the run succeeds.  Whatever its
    outcome, a run enters only nodes the walker can reach from the trigger. *)
Theorem run_enters_in_preorder
    (fuel : nat) (workflowId : string) (nodes : list Node) (trigger : Node)
    (adj : gmap string (list string)) (s : State) :
  runnable supabase workflowId nodes trigger →
  buildAdjacencyMap nodes (select_edges supabase workflowId) = Returns adj →
  let r := executeWorkflow now uuidv4 supabase fuel workflowId s in
  visits (events_since s (final_state r)) `prefix_of` preorder fuel adj nodes trigger
  ∧ (∀ id data, outcome_of r = Some (RunSuccess id data) →
       visits (events_since s (final_state r)) = preorder fuel adj nodes trigger)
  ∧ (∀ k, k ∈ visits (events_since s (final_state r)) →
       rtc (follows adj nodes) (node_id trigger) k).
Proof.
  intros Hr Hb r.
  destruct (run_by_traversal fuel workflowId nodes trigger adj s Hr Hb)
    as (Hv & Hok & _). fold r in Hv, Hok.
  set (s1 := set_executionData ∅ (logged (LogStart workflowId) (ticked s))) in *.
  destruct (executeNode_preorder now adj nodes fuel trigger s1) as [Hpre Hall].
  rewrite Hv. split; [exact Hpre|]. split.
  - intros id data Ho. destruct (Hok id data Ho) as (_ & Hr0 & _).
    by apply Hall.
  - intros k Hk. apply (preorder_reachable adj nodes fuel).
    destruct Hpre as (rest & ->). apply elem_of_app. by left.
Qed.

(** X4 -- the context a successful run returns has an entry for exactly the
    nodes the walker can reach from the trigger along edges whose target
    resolves to a node. *)
Theorem successful_run_covers_reachable
    (fuel : nat) (workflowId : string) (nodes : list Node) (trigger : Node)
    (adj : gmap string (list string)) (s : State) (id : string)
    (data : gmap string envelope) :
  runnable supabase workflowId nodes trigger →
  buildAdjacencyMap nodes (select_edges supabase workflowId) = Returns adj →
  outcome_of (executeWorkflow now uuidv4 supabase fuel workflowId s)
  = Some (RunSuccess id data) →
  ∀ k, k ∈ dom data ↔ rtc (follows adj nodes) (node_id trigger) k.
Proof.
  intros Hr Hb Ho k.
  destruct (run_by_traversal fuel workflowId nodes trigger adj s Hr Hb)
    as (_ & Hok & _). destruct (Hok id data Ho) as (_ & Hr0 & ->).
  set (s1 := set_executionData ∅ (logged (LogStart workflowId) (ticked s))) in *.
  set (s2 := final_state (executeNode now fuel trigger adj nodes s1)) in *.
  destruct (executeNode_preorder now adj nodes fuel trigger s1) as [_ Hall].
  specialize (Hall s2 Hr0).
  destruct (executeNode_advances now fuel trigger adj nodes s1)
    as (evs & Hc & _ & _ & _ & _ & Hnew). fold s2 in Hc, Hnew.
  pose proof (executeNode_ok_written now fuel trigger adj nodes s1 s2 Hr0) as Hw.
  rewrite (events_since_app _ _ _ Hc) in Hall, Hw.
  split.
  - intros Hk. apply (preorder_reachable adj nodes fuel). rewrite <- Hall.
    destruct (Hnew k Hk) as [Hin|Hin]; [|done].
    unfold s1 in Hin. simpl in Hin. by rewrite dom_empty_L in Hin.
  - intros Hk. apply Hw. rewrite Hall.
    by apply (ok_preorder_complete now adj nodes fuel trigger s1 s2).
Qed.
End RunOrder.

(** ** What the handlers read and write *)

Section HandlerFacts.
Variable now : nat -> Z.

(** X5 -- no handler writes to the execution context or to the executions
    table, and none enters a node.  A handler that returns has read the clock
    exactly once: its envelope carries that reading and the category of the
    node.  A handler that throws has not read the clock. *)
Theorem handlers_only_read (node : Node) (s : State) :
  let r := dispatch now node s in
  executionData (final_state r) = executionData s
  ∧ executions (final_state r) = executions s
  ∧ entered (events_since s (final_state r)) = []
  ∧ (∀ e s', r = Ok e s' →
       ticks s' = S (ticks s) ∧ timestamp e = now (ticks s)
       ∧ envelope_type e = node_type node)
  ∧ (∀ msg s', r = Throw msg s' → ticks s' = ticks s)
  ∧ (∀ s', r ≠ Exhausted s').
Proof.
  intros r. unfold r.
  destruct (dispatch_cases now node s)
    as (evs & Hv & [(e & Hd & _ & Hty & Hts & _)|[(Hd & _ & ->)|(Hd & _)]]); rewrite Hd; simpl.
  - rewrite (events_since_app s _ evs) by done.
    rewrite (entered_nil_of_visits _ Hv).
    split; [done|]. split; [done|]. split; [done|]. split; [|split]; [|done..].
    by intros e' s' [= <- <-].
  - unfold events_since. rewrite drop_all.
    split; [done|]. split; [done|]. split; [done|]. split; [|split]; [done| |done].
    by intros msg s' [= _ <-].
  - rewrite (events_since_app s _ evs) by done.
    rewrite (entered_nil_of_visits _ Hv).
    split; [done|]. split; [done|]. split; [done|]. split; [|split]; [done| |done].
    by intros msg s' [= _ <-].
Qed.

(** X6 -- a transform of a subtype other than summarize leaves the context
    holding itself, and on such a context every summarize transform throws
    the circular-structure error: a pass-through transform whose first
    successor is a summarize transform fails the traversal. *)
Theorem passthrough_breaks_summarize
    (fuel : nat) (adj : gmap string (list string)) (nodes : list Node)
    (p q : Node) (k : string) (ks : list string) (s : State) :
  is_passthrough p = true →
  is_summarize q = true →
  adj !! node_id p = Some (k :: ks) →
  find_node nodes k = Some q →
  (∀ e sd, dispatch now p (logged (LogExecuting p) s) = Ok e sd →
           circular (<[node_id p := e]> (executionData s)) = true)
  ∧ (circular (executionData s) = true →
     ∃ s', executeNode now (S fuel) q adj nodes s = Throw msg_circular s')
  ∧ ∃ s', executeNode now (S (S fuel)) p adj nodes s = Throw msg_circular s'.
Proof.
  intros Hp Hq Ha Hf.
  assert (Hthrow : ∀ s0, circular (executionData s0) = true →
            ∃ s', executeNode now (S fuel) q adj nodes s0 = Throw msg_circular s').
  { intros s0 Hc. rewrite executeNode_S.
    destruct (dispatch_cases now q (logged (LogExecuting q) s0))
      as (evs & Hv & [(e & Hd & _ & _ & _ & _ & Hno)|[(Hd & Hn & _)|(Hd & _)]]).
    - simpl in Hno. rewrite (Hno Hq) in Hc. done.
    - destruct Hn. unfold is_summarize in Hq. apply andb_true_iff in Hq as [Hq _].
      apply String.eqb_eq in Hq. unfold known_type. rewrite Hq. set_solver.
    - rewrite Hd. eauto. }
  assert (Hstore : ∀ e sd, dispatch now p (logged (LogExecuting p) s) = Ok e sd →
            circular (<[node_id p := e]> (executionData s)) = true).
  { intros e sd Hd.
    destruct (dispatch_cases now p (logged (LogExecuting p) s))
      as (evs & Hv & [(e' & Hd' & _ & _ & _ & Hh & _)|[(Hd' & _)|(Hd' & _)]]);
      rewrite Hd' in Hd; [|done..]. injection Hd as <- _.
    apply circular_true. exists (node_id p), e'. rewrite lookup_insert_eq.
    split; [done|]. by rewrite Hh. }
  split; [exact Hstore|]. split; [apply Hthrow|].
  rewrite executeNode_S.
  destruct (dispatch_cases now p (logged (LogExecuting p) s))
    as (evs & Hv & [(e & Hd & _)|[(Hd & Hn & _)|(Hd & _ & Hsum & _)]]).
  - rewrite Hd, Ha. simpl. rewrite successors_loop_cons, Hf.
    destruct (Hthrow (set_executionData (<[node_id p := e]> (executionData s))
                        (ticked (with_events evs (logged (LogExecuting p) s)))))
      as (s' & Hs').
    { simpl. by eapply Hstore. }
    simpl in Hs' |- *. rewrite Hs'. eauto.
  - destruct Hn. unfold is_passthrough in Hp. apply andb_true_iff in Hp as [Hp _].
    apply String.eqb_eq in Hp. unfold known_type. rewrite Hp. set_solver.
  - unfold is_passthrough in Hp. unfold is_summarize in Hsum.
    apply andb_true_iff in Hp as [_ Hp]. apply andb_true_iff in Hsum as [_ Hsum].
    rewrite Hsum in Hp. done.
Qed.
End HandlerFacts.

(** ** The depth of the calls

    A traversal that does not exhaust the depth it is given behaves in the
    same way at every greater depth. *)

Section Depth.
Variable now : nat -> Z.
Variable adj : gmap string (list string).
Variable nodes : list Node.


End Depth.

Section RunDepth.
Variable now : nat -> Z.
Variable uuidv4 : string.
Variable supabase : Store.

End RunDepth.

(** ** The failures of a run *)

Section Messages.
Variable now : nat -> Z.
Variable adj : gmap string (list string).
Variable nodes : list Node.

End Messages.

Section RunFacts.
Variable now : nat -> Z.
Variable uuidv4 : string.
Variable supabase : Store.



End RunFacts.

Section Rows.
Variable now : nat -> Z.
Variable uuidv4 : string.
Variable supabase : Store.

Lemma persisted_row record s :
  ticks (persisted supabase record s) = S (ticks s)
  ∧ match insert_error supabase (executions s) record with
    | None => executions (persisted supabase record s) = executions s ++ [record]
    | Some _ => executions (persisted supabase record s) = executions s
    end.
Proof. unfold persisted. by destruct (insert_error _ _ _). Qed.

Lemma run_failed_row workflowId msg k s :
  ∃ row,
    row_of uuidv4 workflowId (RunFailure uuidv4 msg) row
    ∧ started_at row = now k ∧ ended_at row = now (ticks s)
    ∧ ticks (final_state (run_failed now uuidv4 supabase workflowId msg k s)) = S (ticks s)
    ∧ match insert_error supabase (executions s) row with
      | None => executions (final_state (run_failed now uuidv4 supabase workflowId msg k s))
                = executions s ++ [row]
      | Some _ => executions (final_state (run_failed now uuidv4 supabase workflowId msg k s))
                  = executions s
      end.
Proof.
  exists (failed_record now uuidv4 workflowId msg k (logged (LogFailed msg) s)).
  unfold run_failed. cbn [final_state].
  destruct (persisted_row (failed_record now uuidv4 workflowId msg k (logged (LogFailed msg) s))
              (logged (LogFailed msg) s)) as [Ht Hx].
  by repeat split.
Qed.

(** X8 -- every run that resolves offers exactly one row to the [executions]
    table, after everything else it does: the row carries the identifier
    and the result the caller gets, the start time read before anything
    else and the end time read last; the table grows by that row, or stays
    as it was when the store reports an error. *)
Theorem run_persists_one_row
    (fuel : nat) (workflowId : string) (s s' : State) (o : RunOutcome) :
  executeWorkflow now uuidv4 supabase fuel workflowId s = Ok o s' →
  ∃ row k,
    row_of uuidv4 workflowId o row
    ∧ started_at row = now (ticks s) ∧ ended_at row = now k
    ∧ ticks s < k ∧ ticks s' = S k
    ∧ match insert_error supabase (executions s) row with
      | None => executions s' = executions s ++ [row]
      | Some _ => executions s' = executions s
      end.
Proof.
  intros He.
  assert (Hfail : ∀ msg s1, ticks s < ticks s1 → executions s1 = executions s →
            run_failed now uuidv4 supabase workflowId msg (ticks s) s1 = Ok o s' →
            ∃ row k,
              row_of uuidv4 workflowId o row
              ∧ started_at row = now (ticks s) ∧ ended_at row = now k
              ∧ ticks s < k ∧ ticks s' = S k
              ∧ match insert_error supabase (executions s) row with
                | None => executions s' = executions s ++ [row]
                | Some _ => executions s' = executions s
                end).
  { intros msg s1 Ht Hx Hr.
    destruct (run_failed_row workflowId msg (ticks s) s1) as (row & Hrow & Hs & He' & Ht' & Hx').
    rewrite Hr in Ht', Hx'. cbn [final_state] in Ht', Hx'. rewrite Hx in Hx'.
    injection Hr as <- _. by exists row, (ticks s1). }
  destruct (violated_or_runnable supabase workflowId) as [(msg & Hv)|(nodes & t & Hr)].
  { rewrite (executeWorkflow_violated _ _ _ _ _ _ _ Hv) in He.
    eapply (Hfail msg); [| |exact He]; [simpl; lia|done]. }
  rewrite (executeWorkflow_runnable _ _ _ _ _ _ _ _ Hr) in He. cbv zeta in He.
  destruct (buildAdjacencyMap nodes (select_edges supabase workflowId)) as [adj|msg].
  2:{ eapply (Hfail msg); [| |exact He]; [simpl; lia|done]. }
  set (s1 := set_executionData ∅ _) in He.
  destruct (executeNode_advances now fuel t adj nodes s1) as (evs & _ & Hx & Ht & _).
  destruct (executeNode now fuel t adj nodes s1) as [[] s2|msg s2|s2]; [| |done];
    cbn [final_state] in Hx, Ht.
  - unfold run_completed in He. injection He as <- <-.
    destruct (persisted_row (completed_record now uuidv4 workflowId (ticks s) s2) s2)
      as [Ht' Hx'].
    exists (completed_record now uuidv4 workflowId (ticks s) s2), (ticks s2).
    rewrite Hx in Hx'. simpl in Ht. repeat split; try done; simpl; lia.
  - apply (Hfail msg s2); [simpl in Ht; lia|done|exact He].
Qed.
End Rows.

Ltac unfold_handlers :=
  unfold dispatch, executeTrigger, executeDataNode, executeTransform, executeAction,
    summarizeData, filterData, combineData, sendEmail, sendSMS, postToSocial,
    fetchWeatherData, fetchCalendarData, fetchGithubData, JSON_stringify,
    read_executionData, new_Date, console_log, throw, mbind, mret, M_bind, M_ret.

Lemma error_lines_app evs evs' :
  error_lines (evs ++ evs') = error_lines evs ++ error_lines evs'.
Proof. apply omap_app. Qed.

Section Stack.
Variable now : nat -> Z.
Variable adj : gmap string (list string).
Variable nodes : list Node.

Lemma dispatch_lines node s :
  ∃ evs, console (final_state (dispatch now node s)) = console s ++ evs
         ∧ error_lines evs = [].
Proof.
  destruct node as [i w ty lbl cfg px py]. unfold_handlers. simpl.
  destruct (String.eqb ty "trigger"); [by eexists [_]|].
  destruct (String.eqb ty "data").
  { destruct (strict_eq_str (cfg !! "source") "weather"),
      (strict_eq_str (cfg !! "source") "calendar"),
      (strict_eq_str (cfg !! "source") "github"); by eexists [_]. }
  destruct (String.eqb ty "transform").
  { destruct (strict_eq_str (cfg !! "type") "summarize").
    - simpl. destruct (circular (executionData s)); by eexists [_].
    - destruct (strict_eq_str (cfg !! "type") "filter"),
        (strict_eq_str (cfg !! "type") "combine"); by eexists [_]. }
  destruct (String.eqb ty "action").
  { destruct (strict_eq_str (cfg !! "type") "email"),
      (strict_eq_str (cfg !! "type") "sms"),
      (strict_eq_str (cfg !! "type") "post"); simpl; rewrite <- ?app_assoc;
      first [by eexists [_; _] | by eexists [_]]. }
  exists []. by rewrite app_nil_r.
Qed.

(** X9 -- an error thrown while a node executes is printed once by every
    call of [executeNode] it passes through, innermost first, with the same
    message, and rethrown: the lines written are those of a chain of nested
    calls that starts at the node the traversal was entered for.  A traversal
    that returns has printed no error. *)
Theorem errors_logged_per_level (fuel : nat) : ∀ node s,
  let r := executeNode now fuel node adj nodes s in
  (∀ s', r = Ok tt s' → error_lines (events_since s s') = [])
  ∧ (∀ msg s', r = Throw msg s' →
       ∃ path, error_lines (events_since s s')
               = (fun k => (k, msg)) <$> rev (node_id node :: path)
               ∧ chain (follows adj nodes) (node_id node :: path)).
Proof.
  induction fuel as [|fuel IH]; intros node s r; [done|].
  assert (Hloop : ∀ ks s0,
    let r0 := successors_loop now fuel adj nodes ks s0 in
    (∀ s', r0 = Ok tt s' → error_lines (events_since s0 s') = [])
    ∧ (∀ msg s', r0 = Throw msg s' →
         ∃ k path, k ∈ ks ∧ k ∈ node_ids nodes
           ∧ error_lines (events_since s0 s') = (fun k => (k, msg)) <$> rev (k :: path)
           ∧ chain (follows adj nodes) (k :: path))).
  { induction ks as [|k ks IHks]; intros s0 r0; unfold r0.
    - split; [|done]. intros s' [= <-]. unfold events_since. by rewrite drop_all.
    - rewrite successors_loop_cons.
      destruct (find_node nodes k) as [n|] eqn:Hf.
      2:{ destruct (IHks s0) as [Hok Hth]. split; [done|].
          intros msg s' Hr. destruct (Hth msg s' Hr) as (k' & path & Hk & ?).
          exists k', path. split; [by right|done]. }
      apply find_node_Some in Hf as [<- Hin].
      destruct (IH n s0) as [Hok Hth].
      destruct (executeNode_advances now fuel n adj nodes s0) as (evs & Hc & _).
      destruct (executeNode now fuel n adj nodes s0) as [[] s1|msg1 s1|s1];
        cbn [final_state] in Hc.
      + destruct (IHks s1) as [Hok' Hth'].
        destruct (successors_loop_advances now fuel adj nodes ks s1) as (evs' & Hc' & _).
        assert (Hsplit : ∀ s', final_state (successors_loop now fuel adj nodes ks s1) = s' →
                  error_lines (events_since s0 s') = error_lines (events_since s1 s')).
        { intros s' <-. rewrite (events_since_app s0 _ (evs ++ evs'))
            by (by rewrite Hc', Hc, app_assoc).
          rewrite (events_since_app s1 _ evs' Hc'), error_lines_app.
          by rewrite <- (events_since_app s0 s1 evs Hc), (Hok s1 eq_refl). }
        split.
        * intros s' Hr. rewrite Hsplit by (by rewrite Hr). by apply Hok'.
        * intros msg s' Hr. rewrite Hsplit by (by rewrite Hr).
          destruct (Hth' msg s' Hr) as (k' & path & Hk & ?).
          exists k', path. split; [by right|done].
      + split; [done|]. intros msg s' [= <- <-].
        destruct (Hth msg1 s1 eq_refl) as (path & Hl & Hch).
        exists (node_id n), path. split; [by left|]. split; [|done].
        apply list_elem_of_fmap. by exists n.
      + done. }
  unfold r. rewrite executeNode_S.
  destruct (dispatch_lines node (logged (LogExecuting node) s)) as (evs & Hc & Hevs).
  destruct (dispatch now node (logged (LogExecuting node) s)) as [e s2|msg s2|s2];
    cbn [final_state] in Hc.
  - set (s2' := set_executionData _ s2).
    assert (Hc2 : console s2' = console s ++ LogExecuting node :: evs).
    { unfold s2'. simpl. rewrite Hc. simpl. by rewrite <- app_assoc. }
    destruct (Hloop (default [] (adj !! node_id node)) s2') as [Hok Hth].
    destruct (successors_loop_advances now fuel adj nodes
                (default [] (adj !! node_id node)) s2') as (evs' & Hc' & _).
    destruct (successors_loop now fuel adj nodes _ s2') as [[] s3|msg s3|s3];
      cbn [final_state] in Hc'.
    + split; [|done]. intros s' [= <-].
      rewrite (events_since_app s s3 ((LogExecuting node :: evs) ++ evs'))
        by (by rewrite Hc', Hc2, app_assoc).
      rewrite error_lines_app, <- (events_since_app s2' s3 evs' Hc'), (Hok s3 eq_refl).
      simpl. by rewrite Hevs.
    + split; [done|]. intros msg' s' [= <- <-].
      destruct (Hth msg s3 eq_refl) as (k & path & Hk & Hin & Hl & Hch).
      exists (k :: path).
      rewrite (events_since_app s _ ((LogExecuting node :: evs) ++ evs'
                                       ++ [LogNodeError (node_id node) msg]))
        by (simpl; rewrite Hc', Hc2; by rewrite <- !app_assoc).
      rewrite !error_lines_app, <- (events_since_app s2' s3 evs' Hc'), Hl.
      split.
      * simpl. rewrite Hevs. simpl. by rewrite !fmap_app.
      * split; [|done]. split; [|done].
        destruct (adj !! node_id node) as [ks|] eqn:Hks; simpl in Hk;
          [by exists ks | by apply elem_of_nil in Hk].
    + done.
  - split; [done|]. intros msg' s' [= <- <-]. exists [].
    rewrite (events_since_app s _ ((LogExecuting node :: evs)
                                     ++ [LogNodeError (node_id node) msg]))
      by (simpl; rewrite Hc; simpl; by rewrite <- !app_assoc).
    rewrite error_lines_app. simpl. by rewrite Hevs.
  - done.
Qed.
End Stack.

(** ** Readings of the clock *)

Section Clock.
Variable now : nat -> Z.
Variable adj : gmap string (list string).
Variable nodes : list Node.

Lemma executeNode_clock fuel : ∀ node s,
  let r := executeNode now fuel node adj nodes s in
  stamped now s (final_state r)
  ∧ (∀ s', r = Ok tt s' → ticks s' = ticks s + length (visits (events_since s s')))
  ∧ (∀ msg s', r = Throw msg s' →
       S (ticks s') = ticks s + length (visits (events_since s s'))).
Proof.
  induction fuel as [|fuel IH]; intros node s r.
  { unfold r. simpl. split; [|done]. intros k e He. by left. }
  assert (Hloop : ∀ ks s0,
    let r0 := successors_loop now fuel adj nodes ks s0 in
    stamped now s0 (final_state r0)
    ∧ (∀ s', r0 = Ok tt s' → ticks s' = ticks s0 + length (visits (events_since s0 s')))
    ∧ (∀ msg s', r0 = Throw msg s' →
         S (ticks s') = ticks s0 + length (visits (events_since s0 s')))).
  { induction ks as [|k ks IHks]; intros s0 r0; unfold r0.
    - split; [by left|]. split; [|done]. intros s' [= <-].
      unfold events_since. rewrite drop_all. simpl. lia.
    - rewrite successors_loop_cons.
      destruct (find_node nodes k) as [n|]; [|apply IHks].
      destruct (IH n s0) as (Hst & Hok & Hth).
      destruct (executeNode_advances now fuel n adj nodes s0) as (evs & Hc & _ & Ht & _).
      destruct (executeNode now fuel n adj nodes s0) as [[] s1|msg1 s1|s1];
        cbn [final_state] in Hc, Hst, Ht.
      + destruct (IHks s1) as (Hst' & Hok' & Hth').
        destruct (successors_loop_advances now fuel adj nodes ks s1)
          as (evs' & Hc' & _ & Ht' & _).
        assert (Hlen : ∀ s', final_state (successors_loop now fuel adj nodes ks s1) = s' →
                  length (visits (events_since s0 s'))
                  = length (visits (events_since s0 s1))
                    + length (visits (events_since s1 s'))).
        { intros s' <-. rewrite (events_since_app s0 _ (evs ++ evs'))
            by (by rewrite Hc', Hc, app_assoc).
          rewrite (events_since_app s1 _ evs' Hc'), (events_since_app s0 s1 evs Hc).
          by rewrite visits_app, length_app. }
        split; [|split].
        * intros k' e He. destruct (Hst' k' e He) as [Hin|(i & Hi & Hts)].
          -- destruct (Hst k' e Hin) as [?|(i & Hi & Hts)]; [by left|].
             right. exists i. split; [lia|done].
          -- right. exists i. split; [lia|done].
        * intros s' Hr. rewrite (Hlen s') by (by rewrite Hr).
          rewrite (Hok' s' Hr), (Hok s1 eq_refl). lia.
        * intros msg s' Hr. rewrite (Hlen s') by (by rewrite Hr).
          rewrite (Hth' msg s' Hr), (Hok s1 eq_refl). lia.
      + split; [done|]. split; [done|]. intros msg s' [= <- <-]. exact (Hth msg1 s1 eq_refl).
      + done. }
  unfold r. rewrite executeNode_S.
  destruct (dispatch_cases now node (logged (LogExecuting node) s))
    as (evs & Hv & [(e & Hd & _ & _ & Hts & _)|[(Hd & _ & ->)|(Hd & _)]]); rewrite Hd.
  - set (s2' := set_executionData _ _).
    assert (Hc2 : console s2' = console s ++ LogExecuting node :: evs).
    { unfold s2'. simpl. by rewrite <- app_assoc. }
    destruct (Hloop (default [] (adj !! node_id node)) s2') as (Hst & Hok & Hth).
    destruct (successors_loop_advances now fuel adj nodes
                (default [] (adj !! node_id node)) s2') as (evs' & Hc' & _ & Ht' & _).
    assert (Hv2 : length (visits (LogExecuting node :: evs)) = 1).
    { change (LogExecuting node :: evs) with ([LogExecuting node] ++ evs).
      by rewrite visits_app, Hv. }
    assert (Hstamped : stamped now s (final_state (successors_loop now fuel adj nodes
                                    (default [] (adj !! node_id node)) s2'))).
    { intros k e' He. destruct (Hst k e' He) as [Hin|(i & Hi & Hi')].
      - unfold s2' in Hin. simpl in Hin.
        destruct (decide (k = node_id node)) as [->|Hk].
        + rewrite lookup_insert_eq in Hin. injection Hin as <-.
          right. exists (ticks s). simpl in Ht', Hts. split; [lia|done].
        + rewrite lookup_insert_ne in Hin by done. by left.
      - right. exists i. simpl in Hi. split; [lia|done]. }
    destruct (successors_loop now fuel adj nodes _ s2') as [[] s3|msg s3|s3];
      cbn [final_state] in Hc', Hstamped, Ht'.
    + split; [done|]. split; [|done]. intros s' [= <-].
      rewrite (events_since_app s s3 ((LogExecuting node :: evs) ++ evs'))
        by (by rewrite Hc', Hc2, app_assoc).
      rewrite visits_app, length_app, Hv2, <- (events_since_app s2' s3 evs' Hc').
      rewrite (Hok s3 eq_refl). simpl. lia.
    + split; [done|]. split; [done|]. intros msg' s' [= <- <-].
      rewrite (events_since_app s _ ((LogExecuting node :: evs) ++ evs'
                                       ++ [LogNodeError (node_id node) msg]))
        by (simpl; rewrite Hc', Hc2; by rewrite <- !app_assoc).
      rewrite !visits_app, !length_app, Hv2, <- (events_since_app s2' s3 evs' Hc').
      pose proof (Hth msg s3 eq_refl) as Hs3. simpl in Hs3 |- *. lia.
    + done.
  - split; [by left|]. split; [done|]. intros msg' s' [= <- <-].
    rewrite (events_since_app s _ [LogExecuting node;
               LogNodeError (node_id node) (unknown_type_message node)])
      by (simpl; by rewrite <- !app_assoc).
    simpl. lia.
  - split; [by left|]. split; [done|]. intros msg' s' [= <- <-].
    rewrite (events_since_app s _ ((LogExecuting node :: evs)
               ++ [LogNodeError (node_id node) msg_circular]))
      by (simpl; by rewrite <- !app_assoc).
    change (LogExecuting node :: evs) with ([LogExecuting node] ++ evs).
    rewrite !visits_app, Hv. simpl. lia.
Qed.
End Clock.


Section RunClock.
Variable now : nat -> Z.
Variable uuidv4 : string.
Variable supabase : Store.

Lemma run_failed_clock workflowId msg k s0 s evs :
  console s = console s0 ++ evs →
  let s' := final_state (run_failed now uuidv4 supabase workflowId msg k s) in
  ticks s' = S (ticks s) ∧ visits (events_since s0 s') = visits evs.
Proof.
  intros Hc s'. unfold s', run_failed. cbn [final_state].
  destruct (persisted_advances supabase
              (failed_record now uuidv4 workflowId msg k s)
              (logged (LogFailed msg) s)) as (evs' & Hc' & He' & _).
  split; [unfold persisted; by destruct (insert_error _ _ _)|].
  rewrite (events_since_app s0 _ (evs ++ [LogFailed msg] ++ evs')).
  - rewrite !visits_app, (visits_entered evs'), He'. simpl. by rewrite app_nil_r.
  - rewrite Hc'. simpl. rewrite Hc. by rewrite <- !app_assoc.
Qed.

(** X10 -- a run reads the clock once at its start, once per node whose
    handler returns, and once at its end; a node whose handler throws is
    entered without a reading.  Every envelope of the context a successful
    run returns carries a reading made strictly between the two. *)
Theorem run_reads_clock_per_node
    (fuel : nat) (workflowId : string) (s s' : State) (o : RunOutcome) :
  executeWorkflow now uuidv4 supabase fuel workflowId s = Ok o s' →
  match o with
  | RunSuccess _ data =>
      ticks s' = ticks s + 2 + length (visits (events_since s s'))
      ∧ ∀ k e, data !! k = Some e →
               ∃ i, ticks s < i ∧ S i < ticks s' ∧ timestamp e = now i
  | RunFailure _ _ =>
      ticks s' = ticks s + 2 + Nat.pred (length (visits (events_since s s')))
  end.
Proof.
  intros He.
  assert (Hs1 : console (logged (LogStart workflowId) (ticked s))
                = console s ++ [LogStart workflowId]) by done.
  assert (Hpre : ∀ msg,
            run_failed now uuidv4 supabase workflowId msg (ticks s)
              (logged (LogStart workflowId) (ticked s)) = Ok o s' →
            match o with
            | RunSuccess _ data =>
                ticks s' = ticks s + 2 + length (visits (events_since s s'))
                ∧ ∀ k e, data !! k = Some e →
                         ∃ i, ticks s < i ∧ S i < ticks s' ∧ timestamp e = now i
            | RunFailure _ _ =>
                ticks s' = ticks s + 2 + Nat.pred (length (visits (events_since s s')))
            end).
  { intros msg Hr.
    destruct (run_failed_clock workflowId msg (ticks s) s _ _ Hs1) as [Ht Hv].
    rewrite Hr in Ht, Hv. cbn [final_state] in Ht, Hv. injection Hr as <- _.
    rewrite Hv, Ht. simpl. lia. }
  destruct (violated_or_runnable supabase workflowId) as [(msg & Hv)|(nodes & t & Hr)].
  { rewrite (executeWorkflow_violated _ _ _ _ _ _ _ Hv) in He. by apply (Hpre msg). }
  destruct (buildAdjacencyMap nodes (select_edges supabase workflowId)) as [adj|msg] eqn:Hb.
  2:{ rewrite (executeWorkflow_runnable _ _ _ _ _ _ _ _ Hr) in He. cbv zeta in He.
      rewrite Hb in He. by apply (Hpre msg). }
  destruct (run_by_traversal now uuidv4 supabase fuel workflowId nodes t adj s Hr Hb)
    as (Hv & _).
  rewrite He in Hv. cbn [final_state] in Hv. rewrite Hv. clear Hv.
  rewrite (executeWorkflow_runnable _ _ _ _ _ _ _ _ Hr) in He. cbv zeta in He.
  rewrite Hb in He. cbv beta iota in He.
  set (s1 := set_executionData ∅ _) in *.
  destruct (executeNode_clock now adj nodes fuel t s1) as (Hst & Hok & Hth).
  destruct (executeNode_advances now fuel t adj nodes s1) as (evs1 & _ & _ & Hmono & _).
  destruct (executeNode now fuel t adj nodes s1) as [[] s2|msg s2|s2];
    cbn [final_state] in Hst, Hmono |- *; [| |done].
  - unfold run_completed in He. injection He as <- <-.
    assert (Ht : ticks (logged (LogCompleted workflowId)
                          (persisted supabase
                             (completed_record now uuidv4 workflowId (ticks s) s2) s2))
                 = S (ticks s2)).
    { simpl. unfold persisted. by destruct (insert_error _ _ _). }
    pose proof (Hok s2 eq_refl) as Hs2.
    assert (Ht1 : ticks s1 = S (ticks s)) by done.
    rewrite Ht. split; [lia|].
    intros k e Hk. destruct (Hst k e Hk) as [Hin|(i & Hi & Hts)]; [done|].
    exists i. simpl in Hi. split; [lia|]. split; [lia|done].
  - destruct (run_failed_clock workflowId msg (ticks s) s2 s2 [] ltac:(by rewrite app_nil_r))
      as [Ht _].
    rewrite He in Ht. cbn [final_state] in Ht. injection He as <- _.
    pose proof (Hth msg s2 eq_refl) as Hs2.
    assert (Ht1 : ticks s1 = S (ticks s)) by done. lia.
Qed.
End RunClock.

(** ** What a summary serialises *)

Section Summaries.
Variable now : nat -> Z.
Variable adj : gmap string (list string).
Variable nodes : list Node.



End Summaries.

Section RunSummaries.
Variable now : nat -> Z.
Variable uuidv4 : string.
Variable supabase : Store.

End RunSummaries.

Section HandlerInputs.
Variable now : nat -> Z.

(** X11 -- only a transform handler looks at the execution context: the
    handler of a node of any other category gives, in two states that agree
    on the clock, the same envelope or the same error, and prints the same
    lines. *)
Theorem only_transforms_read_context (node : Node) (s1 s2 : State) :
  node_type node ≠ "transform" →
  ticks s1 = ticks s2 →
  let r1 := dispatch now node s1 in
  let r2 := dispatch now node s2 in
  match r1, r2 with
  | Ok e1 _, Ok e2 _ => e1 = e2
  | Throw msg1 _, Throw msg2 _ => msg1 = msg2
  | _, _ => False
  end
  ∧ events_since s1 (final_state r1) = events_since s2 (final_state r2).
Proof.
  intros Hty Ht r1 r2. unfold r1, r2.
  destruct node as [i w ty lbl cfg px py]. simpl in Hty.
  unfold_handlers. unfold events_since. simpl.
  destruct (String.eqb ty "trigger").
  { simpl. by rewrite Ht, !drop_app_length. }
  destruct (String.eqb ty "data").
  { destruct (strict_eq_str (cfg !! "source") "weather"),
      (strict_eq_str (cfg !! "source") "calendar"),
      (strict_eq_str (cfg !! "source") "github"); simpl;
      by rewrite Ht, !drop_app_length. }
  destruct (String.eqb_spec ty "transform") as [|_]; [done|].
  destruct (String.eqb ty "action").
  { destruct (strict_eq_str (cfg !! "type") "email"),
      (strict_eq_str (cfg !! "type") "sms"),
      (strict_eq_str (cfg !! "type") "post"); simpl;
      rewrite <- ?app_assoc; by rewrite Ht, !drop_app_length. }
  simpl. by rewrite !drop_all.
Qed.
End HandlerInputs.

(** ** The controller of a run *)

Section ControllerFacts.
Variable now : nat -> Z.
Variable uuidv4 : string.
Variable supabase : Store.


End ControllerFacts.

(** ** Runs that resolve, and runs that cannot succeed *)

Section RunTermination.
Variable now : nat -> Z.
Variable uuidv4 : string.
Variable supabase : Store.

(** X13 -- a run of a workflow whose edges form no cycle resolves: given a
    call depth of at least the number of nodes, [executeWorkflow] returns
    its result object, with success or with failure, whatever the store
    holds otherwise. *)
Theorem acyclic_run_resolves (fuel : nat) (workflowId : string) (s : State) :
  (∀ edges, select_edges supabase workflowId = Some edges → acyclic edges) →
  (∀ nodes, select_nodes supabase workflowId = Some nodes → length nodes ≤ fuel) →
  ∃ o s', executeWorkflow now uuidv4 supabase fuel workflowId s = Ok o s'.
Proof.
  intros Hacyc Hfuel.
  destruct (violated_or_runnable supabase workflowId) as [(msg & Hv)|(nodes & t & Hr)].
  { rewrite (executeWorkflow_violated _ _ _ _ _ _ _ Hv). unfold run_failed. eauto. }
  rewrite (executeWorkflow_runnable _ _ _ _ _ _ _ _ Hr). cbv zeta.
  destruct Hr as (_ & Hnodes & Ht).
  destruct (select_edges supabase workflowId) as [edges|] eqn:Hedges;
    [|unfold run_failed; simpl; eauto].
  destruct (buildAdjacencyMap nodes (Some edges)) as [adj|msg] eqn:Hb;
    [|unfold run_failed; simpl; eauto].
  set (s1 := set_executionData ∅ _).
  assert (Hne : ∀ s', executeNode now fuel t adj nodes s1 ≠ Exhausted s').
  { intros s'. apply (walk_terminates now adj nodes) with (anc := []).
    - intros x Hx. apply (Hacyc edges eq_refl x). by eapply tc_arc_edge_of.
    - apply find_some in Ht as [Hin _]. apply list_elem_of_In in Hin.
      apply list_elem_of_fmap. by exists t.
    - apply NoDup_nil_2.
    - by intros a ?%elem_of_nil.
    - unfold node_ids. rewrite length_fmap. simpl. specialize (Hfuel nodes Hnodes). lia. }
  destruct (executeNode now fuel t adj nodes s1) as [[] s2|msg s2|s2].
  - unfold run_completed. eauto.
  - unfold run_failed. eauto.
  - by destruct (Hne s2).
Qed.

End RunTermination.

Section NodeControllerFacts.
Variable now : nat -> Z.
Variable uuidv4 : string.
Variable workflow_found : json -> bool.
Variable insert_node : list (string * json) -> StoreAnswer.



End NodeControllerFacts.

Lemma set_if_defined_lookup key v updates k :
  set_if_defined key v updates !! k
  = if decide (k = key) then from_option (Some ∘ FJson) (updates !! k) v
    else updates !! k.
Proof.
  unfold set_if_defined. destruct v as [j|]; simpl.
  - case_decide as Hk; [subst; by rewrite lookup_insert_eq|by rewrite lookup_insert_ne].
  - by case_decide.
Qed.

Lemma set_if_defined_size key v updates :
  updates !! key = None →
  size (set_if_defined key v updates) = size updates + defined v.
Proof.
  intros Hk. unfold set_if_defined. destruct v as [j|]; simpl; [|lia].
  rewrite map_size_insert_None by done. lia.
Qed.

Section UpdateFacts.
Variable date : Z.
Variable update_node : string -> gmap string field -> StoreAnswer.

(** X16 -- [updateNode] sends the store the four editable fields the request
    defines, as the request gives them, together with the time of the
    update, and nothing else: it cannot change the category, the workflow or
    the identifier of a node.  It answers [No fields to update] exactly when
    the request defines none of the four. *)
Theorem updateNode_keeps_category (id : string) (body : gmap string json) :
  let updates := node_updates date body in
  (∀ k, k ∈ ["label"; "config"; "position_x"; "position_y"] →
        updates !! k = FJson <$> body !! k)
  ∧ updates !! "updated_at" = Some (FDate date)
  ∧ (∀ k, k ∉ ["label"; "config"; "position_x"; "position_y"; "updated_at"] →
          updates !! k = None)
  ∧ updates !! "node_type" = None
  ∧ (updateNode date update_node id body = NoFields
     ↔ ∀ k, k ∈ ["label"; "config"; "position_x"; "position_y"] → body !! k = None).
Proof.
  intros updates.
  assert (Hlk : ∀ k, updates !! k
            = if decide (k = "updated_at") then Some (FDate date)
              else if decide (k ∈ ["label"; "config"; "position_x"; "position_y"])
                   then FJson <$> body !! k else None).
  { intros k. unfold updates, node_updates.
    destruct (decide (k = "updated_at")) as [->|Hu]; [by rewrite lookup_insert_eq|].
    rewrite lookup_insert_ne by done. rewrite !set_if_defined_lookup, lookup_empty.
    destruct (decide (k ∈ ["label"; "config"; "position_x"; "position_y"])) as [Hin|Hout].
    - repeat (apply elem_of_cons in Hin as [->|Hin];
              [repeat case_decide; try done; by destruct (body !! _)|]).
      by apply elem_of_nil in Hin.
    - repeat case_decide; subst; try done;
        exfalso; apply Hout; apply list_elem_of_In; simpl; auto 6. }
  assert (Hfour : ∀ k, k ∈ ["label"; "config"; "position_x"; "position_y"] →
            k ≠ "updated_at" ∧ k ≠ "node_type").
  { intros k Hk.
    repeat (apply elem_of_cons in Hk as [->|Hk]; [done|]). by apply elem_of_nil in Hk. }
  split; [|split; [|split; [|split]]].
  - intros k Hk. rewrite Hlk. destruct (Hfour k Hk) as [Hu _].
    by rewrite decide_False, decide_True.
  - by rewrite Hlk, decide_True.
  - intros k Hk. rewrite Hlk. rewrite !decide_False; [done| |].
    + intros Hin. apply Hk.
      repeat (apply elem_of_cons in Hin as [->|Hin];
              [apply list_elem_of_In; simpl; auto 6|]).
      by apply elem_of_nil in Hin.
    + intros ->. apply Hk. apply list_elem_of_In. simpl. auto 6.
  - rewrite Hlk. rewrite !decide_False; [done| |done].
    intros Hin. by destruct (Hfour _ Hin).
  - unfold updateNode. fold updates.
    assert (Hsize : size updates
              = 1 + (defined (body !! "label") + defined (body !! "config")
                     + defined (body !! "position_x")
                     + defined (body !! "position_y"))).
    { unfold updates, node_updates. rewrite map_size_insert_None.
      2:{ rewrite !set_if_defined_lookup, lookup_empty. by repeat case_decide. }
      rewrite !set_if_defined_size, map_size_empty; [lia|..];
        rewrite ?set_if_defined_lookup, ?lookup_empty; by repeat case_decide. }
    destruct (Nat.eqb_spec (size updates) 1) as [H1|H1].
    + split; [|done]. intros _ k Hk. rewrite Hsize in H1.
      repeat (apply elem_of_cons in Hk as [->|Hk];
              [by destruct (body !! "label"), (body !! "config"),
                    (body !! "position_x"), (body !! "position_y")|]).
      by apply elem_of_nil in Hk.
    + split.
      * intros Hno. exfalso.
        destruct (answer_error _); [done|].
        by destruct (answer_data _) as [[|? ?]|].
      * intros Hnone. exfalso. apply H1. rewrite Hsize.
        rewrite !Hnone; [done|..]; apply list_elem_of_In; simpl; auto 6.
Qed.
End UpdateFacts.

(** ** The further properties on the sample workflows *)

Lemma dangling_targets_ignored_witness :
  ∃ adj', buildAdjacencyMap Sample.chain_nodes
            (Some (resolvable_edges Sample.chain_nodes Fixture.ghost_edges))
          = Returns adj'
          ∧ ∀ fuel start s,
              executeNode Sample.clock fuel start
                (Sample.adjacency Sample.chain_nodes Fixture.ghost_edges)
                Sample.chain_nodes s
              = executeNode Sample.clock fuel start adj' Sample.chain_nodes s.
Proof.
  apply (dangling_targets_ignored Sample.clock Sample.chain_nodes Fixture.ghost_edges
           (Sample.adjacency Sample.chain_nodes Fixture.ghost_edges)).
  reflexivity.
Defined.

Lemma run_enters_in_preorder_witness :
  let s' := Fixture.after_run Fixture.diamond_store 3 in
  visits (events_since Sample.idle s')
    `prefix_of` preorder 3 (Sample.adjacency Sample.diamond_nodes Sample.diamond_edges)
                  Sample.diamond_nodes Sample.trigger
  ∧ (∀ id data,
       outcome_of (executeWorkflow Sample.clock "run-1" Fixture.diamond_store 3 "wf-1"
                     Sample.idle)
       = Some (RunSuccess id data) →
       visits (events_since Sample.idle s')
       = preorder 3 (Sample.adjacency Sample.diamond_nodes Sample.diamond_edges)
           Sample.diamond_nodes Sample.trigger)
  ∧ (∀ k, k ∈ visits (events_since Sample.idle s') →
       rtc (follows (Sample.adjacency Sample.diamond_nodes Sample.diamond_edges)
              Sample.diamond_nodes) "t" k).
Proof.
  apply (run_enters_in_preorder Sample.clock "run-1" Fixture.diamond_store 3 "wf-1"
           Sample.diamond_nodes Sample.trigger
           (Sample.adjacency Sample.diamond_nodes Sample.diamond_edges) Sample.idle).
  - split; [by exists Sample.workflow|split; reflexivity].
  - reflexivity.
Defined.

Lemma successful_run_covers_reachable_witness :
  ("c" ∈ dom (executionData (Fixture.after_run Fixture.diamond_store 3))
   ↔ rtc (follows (Sample.adjacency Sample.diamond_nodes Sample.diamond_edges)
            Sample.diamond_nodes) "t" "c")
  ∧ ("z" ∈ dom (executionData (Fixture.after_run Fixture.diamond_store 3))
     ↔ rtc (follows (Sample.adjacency Sample.diamond_nodes Sample.diamond_edges)
              Sample.diamond_nodes) "t" "z").
Proof.
  split;
    (apply (successful_run_covers_reachable Sample.clock "run-1" Fixture.diamond_store 3
              "wf-1" Sample.diamond_nodes Sample.trigger
              (Sample.adjacency Sample.diamond_nodes Sample.diamond_edges) Sample.idle
              "run-1");
     [split; [by exists Sample.workflow|split; reflexivity]
     |reflexivity
     |vm_compute; reflexivity]).
Defined.

Lemma passthrough_breaks_summarize_witness :
  (∀ e sd,
     dispatch Sample.clock Sample.sieve (logged (LogExecuting Sample.sieve) Sample.idle)
     = Ok e sd →
     circular (<["a" := e]> (executionData Sample.idle)) = true)
  ∧ (circular (executionData Sample.idle) = true →
     ∃ s', executeNode Sample.clock 1 Sample.digest
             (Sample.adjacency Sample.filtered_diamond_nodes Sample.diamond_edges)
             Sample.filtered_diamond_nodes Sample.idle
           = Throw msg_circular s')
  ∧ ∃ s', executeNode Sample.clock 2 Sample.sieve
            (Sample.adjacency Sample.filtered_diamond_nodes Sample.diamond_edges)
            Sample.filtered_diamond_nodes Sample.idle
          = Throw msg_circular s'.
Proof.
  apply (passthrough_breaks_summarize Sample.clock 0
           (Sample.adjacency Sample.filtered_diamond_nodes Sample.diamond_edges)
           Sample.filtered_diamond_nodes Sample.sieve Sample.digest "c" []
           Sample.idle); reflexivity.
Defined.


Lemma run_persists_one_row_witness :
  let s' := Fixture.after_run Fixture.chain_store 4 in
  ∃ row k,
    row_of "run-1" "wf-1" (RunSuccess "run-1" (executionData s')) row
    ∧ started_at row = Sample.clock 0 ∧ ended_at row = Sample.clock k
    ∧ 0 < k ∧ ticks s' = S k
    ∧ executions s' = [row].
Proof.
  apply (run_persists_one_row Sample.clock "run-1" Fixture.chain_store 4 "wf-1"
           Sample.idle (Fixture.after_run Fixture.chain_store 4)
           (RunSuccess "run-1" (executionData (Fixture.after_run Fixture.chain_store 4)))).
  vm_compute. reflexivity.
Defined.

Lemma run_reads_clock_per_node_witness :
  let s' := Fixture.after_run Fixture.diamond_store 3 in
  ticks s' = 0 + 2 + length (visits (events_since Sample.idle s'))
  ∧ ∀ k e, executionData s' !! k = Some e →
           ∃ i, 0 < i ∧ S i < ticks s' ∧ timestamp e = Sample.clock i.
Proof.
  apply (run_reads_clock_per_node Sample.clock "run-1" Fixture.diamond_store 3 "wf-1"
           Sample.idle (Fixture.after_run Fixture.diamond_store 3)
           (RunSuccess "run-1" (executionData (Fixture.after_run Fixture.diamond_store 3)))).
  vm_compute. reflexivity.
Defined.

Lemma only_transforms_read_context_witness :
  let s2 := set_executionData {["t" := ETrigger 0 ∅]} Sample.idle in
  match dispatch Sample.clock Sample.weather Sample.idle,
        dispatch Sample.clock Sample.weather s2 with
  | Ok e1 _, Ok e2 _ => e1 = e2
  | Throw msg1 _, Throw msg2 _ => msg1 = msg2
  | _, _ => False
  end
  ∧ events_since Sample.idle (final_state (dispatch Sample.clock Sample.weather Sample.idle))
    = events_since s2 (final_state (dispatch Sample.clock Sample.weather s2)).
Proof.
  apply (only_transforms_read_context Sample.clock Sample.weather Sample.idle
           (set_executionData {["t" := ETrigger 0 ∅]} Sample.idle)).
  - discriminate.
  - reflexivity.
Defined.

Lemma acyclic_run_resolves_witness :
  ∃ o s', executeWorkflow Sample.clock "run-1" Fixture.chain_store 4 "wf-1" Sample.idle
          = Ok o s'.
Proof.
  apply (acyclic_run_resolves Sample.clock "run-1" Fixture.chain_store 4 "wf-1"
           Sample.idle).
  - intros edges [= <-]. apply (ranked_acyclic _ Sample.chain_rank). intros e He.
    repeat (apply elem_of_cons in He as [->|He]; [vm_compute; lia|]).
    by apply elem_of_nil in He.
  - intros nodes [= <-]. simpl. lia.
Defined.




(** The lines of the sample diamond whose first branch has an unrecognised
    category: the error is printed for that node, then for the trigger. *)
Example error_stack_sample :
  error_lines (events_since Sample.idle (Fixture.after_run Fixture.hooked_store 3))
  = [("a", "Unknown node type: webhook"); ("t", "Unknown node type: webhook")].
Proof. vm_compute. reflexivity. Qed.

(** The controller on the sample stores: 200 for the chain, 500 for the
    diamond with an unrecognised category, 404 for an unknown workflow. *)
Example runWorkflow_sample :
  (∃ data s', runWorkflow Sample.clock "run-1" Fixture.chain_store 4 "wf-1" Sample.idle
              = Ok (Executed "run-1" data) s' ∧ size data = 4)
  ∧ (∃ s', runWorkflow Sample.clock "run-1" Fixture.hooked_store 3 "wf-1" Sample.idle
           = Ok (ExecutionFailed "run-1" "Unknown node type: webhook") s')
  ∧ runWorkflow Sample.clock "run-1" Fixture.chain_store 4 "wf-2" Sample.idle
    = Ok NotFound Sample.idle.
Proof.
  split; [|split; [|reflexivity]].
  - eexists _, _. split; [vm_compute; reflexivity|]. vm_compute. reflexivity.
  - eexists. vm_compute. reflexivity.
Qed.

(** [createNode] on a request for a data node, and on the same request with
    a category the engine does not know. *)
Example createNode_sample :
  (∃ row, createNode "node-1" (fun _ => true) Fixture.echo Fixture.node_request
          = NodeCreated (Some (JObj row))
          ∧ ("node_type", JStr "data") ∈ row ∧ ("config", JObj []) ∈ row)
  ∧ createNode "node-1" (fun _ => true) Fixture.echo
      (<["node_type" := JStr "webhook"]> Fixture.node_request)
    = InvalidNodeType.
Proof.
  split; [|vm_compute; reflexivity].
  eexists. split; [vm_compute; reflexivity|]. split.
  - do 2 apply list_elem_of_further. apply list_elem_of_here.
  - do 4 apply list_elem_of_further. apply list_elem_of_here.
Qed.

(** [updateNode] on a request that names a new label and a new category,
    and on one that names a category only. *)
Example updateNode_sample :
  node_updates 7 (<["node_type" := JStr "webhook"]> {["label" := JStr "Inbox"]})
  = <["updated_at" := FDate 7]> {["label" := FJson (JStr "Inbox")]}
  ∧ updateNode 7 (fun _ _ => Fixture.echo []) "node-1" {["node_type" := JStr "webhook"]}
    = NoFields.
Proof. split; vm_compute; reflexivity. Qed.
